(** * go-sqlite-bench: the bulk-insert engine, the join flattening and the
      WAL worker protocol of package [app], embedded in Rocq.

    Sources embedded here: [app/sqldb.go] ([SqlDb.Exec], [BulkInsert],
    [repeatJoin], [try], [try0], [InsertUsersBulk], [InsertUsers],
    [InsertArticles], [InsertComments], [FindUsers], [FindArticles],
    [FindUsersArticlesComments]) and [app/app.go] ([initSchema],
    [initJournalDelete], [initJournalWal], the validation loop of
    [benchConcurrent], and the closures [chunkUsers] and [checkChunk] and the
    worker loop of [benchWal]).

    Go's [int] is 64 bits wide.  The lengths and indices of the package, and
    the sums and products it forms from them, stay inside that width on every
    input that fits in memory, so they are integers of [Z] here; the stored
    timestamp is the one value narrowed to 64 bits, and its wrap-around is
    written out in [TimeSpec].  A count handed in by the caller is not a
    length: where a statement depends on the arithmetic on a count that is
    zero or negative, the count is bounded so that nothing wraps. *)

From Stdlib Require Import ZArith Lia ZifyNat Ascii String.
From stdpp Require Import base option list gmap strings pretty sorting.

Local Open Scope string_scope.
Local Open Scope list_scope.
Local Open Scope Z_scope.

(** ** Go runtime: a call returns, panics, or the model runs out of fuel *)

Inductive Res (A : Type) : Type :=
| Ok (a : A)
| Panic (msg : string)
| OutOfFuel.
Arguments Ok {A} a.
Arguments Panic {A} msg.
Arguments OutOfFuel {A}.

Definition res_bind {A B} (r : Res A) (k : A → Res B) : Res B :=
  match r with
  | Ok a => k a
  | Panic m => Panic m
  | OutOfFuel => OutOfFuel
  end.

Notation "'let?' x ':=' r 'in' k" := (res_bind r (λ x, k))
  (at level 10, x pattern, r at level 100, k at level 200,
   format "'[v' 'let?'  x  ':='  r  'in' '/' k ']'").
Notation "'do?' r 'in' k" := (res_bind r (λ _, k))
  (at level 10, r at level 100, k at level 200,
   format "'[v' 'do?'  r  'in' '/' k ']'").

Definition is_Ok {A} (r : Res A) : bool :=
  match r with Ok _ => true | _ => false end.

Definition is_Panic {A} (r : Res A) : bool :=
  match r with Panic _ => true | _ => false end.

(** Go's [len] of a string, as an [int]. *)
Definition len (s : string) : Z := Z.of_nat (String.length s).

(** ** [fmt.Sprintf]

    The standard library's formatter, restricted to what the package feeds
    it: string and integer operands, the verbs [%s], [%d] and [%v] without
    flags, and [%%].  A verb without operand prints [%!s(MISSING)], a verb
    that does not fit its operand prints [%!d(string=operand)], and operands
    left over are reported in a trailing [%!(EXTRA ...)] group, as the
    library does. *)

Inductive Operand : Type :=
| OStr (s : string)
| OInt (z : Z).

Definition typed (a : Operand) : string :=
  match a with
  | OStr s => "string=" +:+ s
  | OInt z => "int=" +:+ pretty z
  end.

Definition verb (v : ascii) (a : Operand) : string :=
  match a with
  | OStr s =>
      if bool_decide (v = "s"%char ∨ v = "v"%char) then s
      else "%!" +:+ String v ("(" +:+ typed a +:+ ")")
  | OInt z =>
      if bool_decide (v = "d"%char ∨ v = "v"%char) then pretty z
      else "%!" +:+ String v ("(" +:+ typed a +:+ ")")
  end.

Fixpoint extraArgs (args : list Operand) : string :=
  match args with
  | [] => ""
  | [a] => typed a
  | a :: rest => typed a +:+ ", " +:+ extraArgs rest
  end.

Definition extraGroup (args : list Operand) : string :=
  match args with
  | [] => ""
  | _ => "%!(EXTRA " +:+ extraArgs args +:+ ")"
  end.

Fixpoint Sprintf (format : string) (args : list Operand) : string :=
  match format with
  | EmptyString => extraGroup args
  | String c rest =>
      if bool_decide (c = "%"%char) then
        match rest with
        | EmptyString => "%!(NOVERB)" +:+ extraGroup args
        | String v rest' =>
            if bool_decide (v = "%"%char) then String "%" (Sprintf rest' args)
            else
              match args with
              | [] => "%!" +:+ String v "(MISSING)" +:+ Sprintf rest' []
              | a :: args' => verb v a +:+ Sprintf rest' args'
              end
        end
      else String c (Sprintf rest args)
  end.

(** ** [repeatJoin] (sqldb.go, lines 76-86) *)

(** [strings.Builder.Grow] panics on a negative count. *)
Definition Grow (n : Z) : Res unit :=
  if bool_decide (n < 0) then Panic "strings.Builder.Grow: negative count"
  else Ok tt.

(** The body of [for i := range n]: one round for every [i] of [idx]. *)
Fixpoint repeatJoin_loop (sb : string) (str sep : string) (idx : list Z) : string :=
  match idx with
  | [] => sb
  | i :: idx' =>
      let sb := if bool_decide (i > 0) then sb +:+ sep else sb in
      let sb := sb +:+ str in
      repeatJoin_loop sb str sep idx'
  end.

Definition repeatJoin (str : string) (n : Z) (sep : string) : Res string :=
  res_bind (Grow (len str * n + len sep * (n - 1))) (λ _,
  Ok (repeatJoin_loop "" str sep (seqZ 0 n))).

(** ** [database/sql]: calls, their outcomes, and the driver *)

(** A Go [any] as the package binds it to a statement. *)
Inductive Any : Type :=
| AInt (z : Z)
| AInt64 (z : Z)
| AString (s : string)
| APtrString (s : string)
| ABool (b : bool).

Global Instance Any_eq_dec : EqDecision Any.
Proof. solve_decision. Defined.

(** A prepared statement: the position of its [Prepare] in the history of
    the connection, and its text. *)
Record Stmt : Type := mkStmt { stmt_id : nat; stmt_sql : string }.

Global Instance Stmt_eq_dec : EqDecision Stmt.
Proof. solve_decision. Defined.

Inductive Call : Type :=
| Begin
| Prepare (sql : string)
| Exec (st : Stmt) (args : list Any)
| Close (st : Stmt)
| Commit.

Global Instance Call_eq_dec : EqDecision Call.
Proof. solve_decision. Defined.

(** [ev_err] is the [error] the call returned; [None] is Go's [nil]. *)
Record Event : Type := mkEvent { ev_call : Call; ev_err : option string }.

Global Instance Event_eq_dec : EqDecision Event.
Proof. solve_decision. Defined.

Definition Trace : Type := list Event.

(** The database under test: given the calls made so far, what the next call
    returns. *)
Definition Driver : Type := Trace → Call → option string.

(** A driver whose calls all succeed. *)
Definition reliable : Driver := λ _ _, None.

(** A computation that talks to the outside: it extends the history of
    events [E] and returns, panics or runs out of fuel. *)
Definition Eff (E A : Type) : Type := list E → list E * Res A.

Definition ret {E A} (a : A) : Eff E A := λ h, (h, Ok a).

Definition bind {E A B} (m : Eff E A) (k : A → Eff E B) : Eff E B := λ h,
  match m h with
  | (h', Ok a) => k a h'
  | (h', Panic msg) => (h', Panic msg)
  | (h', OutOfFuel) => (h', OutOfFuel)
  end.

Definition panic {E A} (msg : string) : Eff E A := λ h, (h, Panic msg).

Definition lift {E A} (r : Res A) : Eff E A := λ h, (h, r).

(** A computation against the connection. *)
Definition M : Type → Type := Eff Event.

Notation "'let!' x ':=' m 'in' k" := (bind m (λ x, k))
  (at level 10, x pattern, m at level 100, k at level 200,
   format "'[v' 'let!'  x  ':='  m  'in' '/' k ']'").
Notation "'do!' m 'in' k" := (bind m (λ _, k))
  (at level 10, m at level 100, k at level 200,
   format "'[v' 'do!'  m  'in' '/' k ']'").

(** Modelled from the spec: [MustBeNil] and [MustBeEqual] are declared outside
    the files embedded here; the spec has every failure and every mismatch
    abort the process. *)
Definition MustBeNil (err : option string) : Res unit :=
  match err with
  | Some e => Panic e
  | None => Ok tt
  end.

Definition MustBeEqual {A} `{EqDecision A} (expected actual : A) : Res unit :=
  if decide (expected = actual) then Ok tt else Panic "not equal".

Section Connection.
Variable drv : Driver.

(** One call to the driver, recorded with what it returned. *)
Definition call (c : Call) : M (option string) := λ h,
  let e := drv h c in (h ++ [mkEvent c e], Ok e).

(** [db.Begin()]: the transaction and the error. *)
Definition dbBegin : M (unit * option string) :=
  let! e := call Begin in ret (tt, e).

(** [tx.Prepare(sql)]: a nil statement when the error is not nil. *)
Definition txPrepare (sql : string) : M (option Stmt * option string) := λ h,
  let st := mkStmt (length h) sql in
  (let! e := call (Prepare sql) in
   ret (if e is None then Some st else None, e)) h.

(** [stmt.Exec(args...)]: calling it on a nil statement dereferences nil. *)
Definition stmtExec (stmt : option Stmt) (args : list Any) : M (option string) :=
  match stmt with
  | None => panic "invalid memory address or nil pointer dereference"
  | Some st => call (Exec st args)
  end.

(** [stmt.Close()], likewise. *)
Definition stmtClose (stmt : option Stmt) : M (option string) :=
  match stmt with
  | None => panic "invalid memory address or nil pointer dereference"
  | Some st => call (Close st)
  end.

Definition txCommit : M (option string) := call Commit.

(** *** [try0] and [try] (sqldb.go, lines 88-99) *)

Definition try0 (err : option string) (desc : string) : M unit :=
  match err with
  | Some e => panic (Sprintf "failed to %s: %v" [OStr desc; OStr e])
  | None => ret tt
  end.

Definition try {T} (r : M (T * option string)) (desc : string) : M T :=
  let! (t, err) := r in
  do! try0 err desc in
  ret t.

(** *** [BulkInsert] (sqldb.go, lines 32-74) *)

Section BulkInsert.
Context {T : Type}.
Variable fInsertSql : string.
Variable ncols : Z.
Variable values : T → list Any.

(** [for i := range batch { args = append(args, values(&batch[i])...) }] *)
Definition batchArgs (batch : list T) : list Any :=
  foldl (λ args r, args ++ values r) [] batch.

(** The three statement variables [st1], [st10], [st100]; [None] is nil. *)
Record Stmts : Type := mkStmts {
  st1 : option Stmt; st10 : option Stmt; st100 : option Stmt }.

(** The loop [for n := len(rows); n > 0; n = len(rows)]; every round
    shortens [rows], so [length rows] rounds of fuel are enough. *)
Fixpoint BulkInsert_loop (fuel : nat) (cols : string) (rows : list T)
    (sts : Stmts) : M Stmts :=
  let n := Z.of_nat (length rows) in
  if bool_decide (n > 0) then
    match fuel with
    | O => lift OutOfFuel
    | S fuel =>
        if bool_decide (n >= 100) then
          let batch := take 100 rows in
          let rows := drop 100 rows in
          let! s100 :=
            (if st100 sts is None then
               let! vals := lift (repeatJoin cols 100 ",") in
               try (txPrepare (Sprintf fInsertSql [OStr vals])) "prepare 100"
             else ret (st100 sts)) in
          let sts := mkStmts (st1 sts) (st10 sts) s100 in
          let stmt := s100 in
          do! stmtExec stmt (batchArgs batch) in
          BulkInsert_loop fuel cols rows sts
        else if bool_decide (n >= 10) then
          let batch := take 10 rows in
          let rows := drop 10 rows in
          let! s10 :=
            (if st10 sts is None then
               let! vals := lift (repeatJoin cols 10 ",") in
               try (txPrepare (Sprintf fInsertSql [OStr vals])) "prepare 10"
             else ret (st10 sts)) in
          let sts := mkStmts (st1 sts) s10 (st100 sts) in
          let stmt := s10 in
          do! stmtExec stmt (batchArgs batch) in
          BulkInsert_loop fuel cols rows sts
        else
          let batch := take 1 rows in
          let rows := drop 1 rows in
          let! s1 :=
            (if st1 sts is None then
               try (txPrepare (Sprintf fInsertSql [OStr cols])) "prepare 1"
             else ret (st1 sts)) in
          let sts := mkStmts s1 (st10 sts) (st100 sts) in
          let stmt := s1 in
          do! stmtExec stmt (batchArgs batch) in
          BulkInsert_loop fuel cols rows sts
    end
  else ret sts.

(** [if st != nil { try0(st.Close(), desc) }] *)
Definition closeIfPrepared (st : option Stmt) (desc : string) : M unit :=
  match st with
  | Some _ => let! e := stmtClose st in try0 e desc
  | None => ret tt
  end.

Definition BulkInsert (rows : list T) : M unit :=
  let! q := lift (repeatJoin "?" ncols ",") in
  let cols := Sprintf "(%s)" [OStr q] in
  let! tx := try dbBegin "open tx" in
  let! sts := BulkInsert_loop (length rows) cols rows (mkStmts None None None) in
  do! closeIfPrepared (st1 sts) "close st1" in
  do! closeIfPrepared (st10 sts) "close st10" in
  do! closeIfPrepared (st100 sts) "close st100" in
  let! e := txCommit in
  try0 e "commit".
End BulkInsert.

(** *** The row model and the two ways to insert users *)

Section Users.
(** [time.Time], and the conversion of the package to the stored integer,
    which is declared outside the files embedded here. *)
Context {Time : Type}.
Variable BindTime : Time → Z.

(** Modelled from the spec: the [User] record and its constructor
    [NewUser] are declared outside the files embedded here; the spec
    gives the fields [Id], [Created], [Email], [Active]. *)
Record User : Type := NewUser {
  Id : Z; Created : Time; Email : string; Active : bool }.

(** [InsertUsersBulk] (sqldb.go, lines 101-106). *)
Definition userValues (u : User) : list Any :=
  [AInt (Id u); AInt64 (BindTime (Created u)); APtrString (Email u);
   ABool (Active u)].

Definition InsertUsersBulk (fInsertSql : string) (users : list User) : M unit :=
  BulkInsert fInsertSql 4 userValues users.

(** [InsertUsers] (sqldb.go, lines 108-121). *)
Fixpoint InsertUsers_loop (stmt : option Stmt) (users : list User) : M unit :=
  match users with
  | [] => ret tt
  | u :: users' =>
      let! err := stmtExec stmt
        [AInt (Id u); AInt64 (BindTime (Created u)); AString (Email u);
         ABool (Active u)] in
      do! lift (MustBeNil err) in
      InsertUsers_loop stmt users'
  end.

Definition InsertUsers (insertSql : string) (users : list User) : M unit :=
  let! (tx, err) := dbBegin in
  do! lift (MustBeNil err) in
  let! (stmt, err) := txPrepare insertSql in
  do! lift (MustBeNil err) in
  do! InsertUsers_loop stmt users in
  let! err := stmtClose stmt in
  do! lift (MustBeNil err) in
  let! err := txCommit in
  lift (MustBeNil err).
End Users.
End Connection.

Arguments User Time : clear implicits.

(** ** What a history says *)

(** The statement texts compiled, in order. *)
Definition prepared (tr : Trace) : list string :=
  omap (λ e, if ev_call e is Prepare sql then Some sql else None) tr.

(** The executions, in order: statement, bound arguments, returned error. *)
Definition execs (tr : Trace) : list (Stmt * list Any * option string) :=
  omap (λ e, if ev_call e is Exec st args then Some (st, args, ev_err e) else None) tr.

Definition execArgs (tr : Trace) : list (list Any) :=
  (λ x, x.1.2) <$> execs tr.

Definition execStmts (tr : Trace) : list Stmt :=
  (λ x, x.1.1) <$> execs tr.

(** A value as [database/sql] hands it to the driver: the default converter
    follows a non-nil pointer to what it points at. *)
Inductive Value : Type :=
| VInt (z : Z)
| VText (s : string)
| VBool (b : bool).

Global Instance Value_eq_dec : EqDecision Value.
Proof. solve_decision. Defined.

Definition driverValue (a : Any) : Value :=
  match a with
  | AInt z => VInt z
  | AInt64 z => VInt z
  | AString s => VText s
  | APtrString s => VText s
  | ABool b => VBool b
  end.

(** The arguments of one execution, cut into tuples of [ncols] values. *)
Fixpoint tuples (fuel : nat) (ncols : nat) (vs : list Value) : list (list Value) :=
  match fuel, vs with
  | O, _ | _, [] => []
  | S fuel, _ => take ncols vs :: tuples fuel ncols (drop ncols vs)
  end.

(** The rows bound by the executions of a history, in binding order. *)
Definition boundRows (ncols : nat) (tr : Trace) : list (list Value) :=
  args ← execArgs tr; tuples (length args) ncols (driverValue <$> args).

(** The rows a history leaves in the table: those of the executions that
    returned no error, once a commit has returned no error. *)
Definition committed (tr : Trace) : bool :=
  bool_decide (mkEvent Commit None ∈ (tr : list Event)).

Definition storedRows (ncols : nat) (tr : Trace) : list (list Value) :=
  if committed tr then
    x ← execs tr;
    if x.2 is None then tuples (length x.1.2) ncols (driverValue <$> x.1.2) else []
  else [].

(** [SELECT ... ORDER BY id]: the identifier is the first column. *)
Definition rowId (r : list Value) : Z :=
  match r with
  | VInt z :: _ => z
  | _ => 0
  end.

Definition rowLe (r1 r2 : list Value) : Prop := rowId r1 ≤ rowId r2.

Global Instance rowLe_dec : RelDecision rowLe.
Proof. intros r1 r2. unfold rowLe. apply _. Defined.

Definition selectOrderById (table : list (list Value)) : list (list Value) :=
  merge_sort rowLe table.

(** ** Slices (Go runtime)

    The bounds are checked against the length; the package never slices
    beyond it, so the capacity does not come into play. *)

Definition goSlice {A} (u : list A) (lo hi : Z) : Res (list A) :=
  if bool_decide (0 ≤ lo ∧ lo ≤ hi ∧ hi ≤ Z.of_nat (length u))
  then Ok (take (Z.to_nat (hi - lo)) (drop (Z.to_nat lo) u))
  else Panic "slice bounds out of range".

Definition goIndex {A} (u : list A) (i : Z) : Res A :=
  if bool_decide (0 ≤ i) then
    match u !! Z.to_nat i with
    | Some x => Ok x
    | None => Panic "index out of range"
    end
  else Panic "index out of range".

Definition goSetIndex {A} (u : list A) (i : Z) (x : A) : Res (list A) :=
  if bool_decide (0 ≤ i < Z.of_nat (length u)) then Ok (<[Z.to_nat i := x]> u)
  else Panic "index out of range".

(** [s[lo:hi]] on a string. *)
Definition goSubstr (s : string) (lo hi : Z) : Res string :=
  if bool_decide (0 ≤ lo ∧ lo ≤ hi ∧ hi ≤ len s)
  then Ok (substring (Z.to_nat lo) (Z.to_nat (hi - lo)) s)
  else Panic "slice bounds out of range".

(** ** [chunkUsers] (app.go, lines 465-475) *)

Fixpoint chunkUsers_loop {A} (u : list A) (cn : Z) (cu : list (list A)) (idx : list Z)
    : Res (list (list A)) :=
  match idx with
  | [] => Ok cu
  | i :: idx' =>
      let? c := goSlice u (i * cn) ((i + 1) * cn) in
      chunkUsers_loop u cn (cu ++ [c]) idx'
  end.

Definition chunkUsers {A} (u : list A) (n : Z) : Res (list (list A)) :=
  if bool_decide (n = 0) then Panic "integer divide by zero" else
  let cn := Z.of_nat (length u) ÷ n in
  if bool_decide (n < 0) then Panic "makeslice: cap out of range" else
  let? cu := chunkUsers_loop u cn [] (seqZ 0 n) in
  if bool_decide (Z.of_nat (length u) > cn * n) then
    let? rest := goSlice u ((n - 1) * cn) (Z.of_nat (length u)) in
    goSetIndex cu (n - 1) rest
  else Ok cu.

(** ** Queries (sqldb.go, lines 153-232) *)

(** What [rows.Scan] leaves behind: the columns, and its error.  A column is
    [None] when the database returned NULL; reading the value field of a
    [sql.Null...] then gives the zero value. *)
Record Scan (A : Type) : Type := mkScan { scan_cols : A; scan_err : option string }.
Arguments mkScan {A} scan_cols scan_err.
Arguments scan_cols {A} s.
Arguments scan_err {A} s.

(** The outcome of [db.Query]: its error, and one scan per row. *)
Record Rows (A : Type) : Type := mkRows { rows_err : option string; rows_scans : list (Scan A) }.
Arguments mkRows {A} rows_err rows_scans.
Arguments rows_err {A} r.
Arguments rows_scans {A} r.

Definition Int32 (n : option Z) : Z := default 0 n.
Definition Int64 (n : option Z) : Z := default 0 n.
Definition String_ (n : option string) : string := default "" n.
Definition Bool (n : option bool) : bool := default false n.

Record UserCols : Type := mkUserCols {
  c_id : option Z; c_created : option Z; c_email : option string; c_active : option bool }.

Record JoinCols : Type := mkJoinCols {
  userId : option Z; userCreated : option Z; userEmail : option string;
  userActive : option bool;
  articleId : option Z; articleCreated : option Z; articleUserId : option Z;
  articleText : option string;
  commentId : option Z; commentCreated : option Z; commentArticleId : option Z;
  commentText : option string }.

(** [_, ok := indexer[x.Id]; if !ok { indexer[x.Id] = len(coll); coll =
    append(coll, x) }], the block the flattening repeats for users, articles
    and comments. *)
Definition appendIfNew {A} (key : A → Z) (x : A) (st : list A * gmap Z Z)
    : list A * gmap Z Z :=
  match st.2 !! key x with
  | Some _ => st
  | None => (st.1 ++ [x], <[key x := Z.of_nat (length st.1)]> st.2)
  end.

Section Queries.
Context {Time : Type}.
Variable UnbindTime : Z → Time.

(** Modelled from the spec: the [Article] and [Comment] records and their
    constructors are declared outside the files embedded here; the spec
    gives their fields. *)
Record Article : Type := NewArticle {
  a_Id : Z; a_Created : Time; a_UserId : Z; a_Text : string }.

Record Comment : Type := NewComment {
  k_Id : Z; k_Created : Time; k_ArticleId : Z; k_Text : string }.

(** [FindUsers] (sqldb.go, lines 153-167), on the outcome of its query. *)
Fixpoint FindUsers_loop (scans : list (Scan UserCols)) (users : list (User Time))
    : Res (list (User Time)) :=
  match scans with
  | [] => Ok users
  | sc :: scans' =>
      do? MustBeNil (scan_err sc) in
      let c := scan_cols sc in
      FindUsers_loop scans'
        (users ++ [NewUser (Int32 (c_id c)) (UnbindTime (Int64 (c_created c)))
                     (String_ (c_email c)) (Bool (c_active c))])
  end.

Definition FindUsers (rows : Rows UserCols) : Res (list (User Time)) :=
  do? MustBeNil (rows_err rows) in
  FindUsers_loop (rows_scans rows) [].

(** Reading a table of users back: the rows in identifier order, each
    scanned into the four columns; an identifier that does not fit
    [sql.NullInt32], or a value of another kind, is a scan error. *)
Definition scanUserRow (r : list Value) : Scan UserCols :=
  match r with
  | [VInt i; VInt c; VText e; VBool a] =>
      if bool_decide (- 2 ^ 31 ≤ i < 2 ^ 31)
      then mkScan (mkUserCols (Some i) (Some c) (Some e) (Some a)) None
      else mkScan (mkUserCols None None None None)
             (Some "converting driver.Value type int64 to a int32: value out of range")
  | _ => mkScan (mkUserCols None None None None) (Some "unsupported Scan")
  end.

Definition readBackUsers (table : list (list Value)) : Res (list (User Time)) :=
  FindUsers (mkRows None (scanUserRow <$> selectOrderById table)).

(** [FindUsersArticlesComments] (sqldb.go, lines 185-232). *)
Definition decodeUser (c : JoinCols) : User Time :=
  NewUser (Int32 (userId c)) (UnbindTime (Int64 (userCreated c)))
    (String_ (userEmail c)) (Bool (userActive c)).

Definition decodeArticle (c : JoinCols) : Article :=
  NewArticle (Int32 (articleId c)) (UnbindTime (Int64 (articleCreated c)))
    (Int32 (articleUserId c)) (String_ (articleText c)).

Definition decodeComment (c : JoinCols) : Comment :=
  NewComment (Int32 (commentId c)) (UnbindTime (Int64 (commentCreated c)))
    (Int32 (commentArticleId c)) (String_ (commentText c)).

(** The three collections with their indexers. *)
Record Flat : Type := mkFlat {
  f_users : list (User Time) * gmap Z Z;
  f_articles : list Article * gmap Z Z;
  f_comments : list Comment * gmap Z Z }.

Fixpoint flatten_loop (scans : list (Scan JoinCols)) (st : Flat) : Res Flat :=
  match scans with
  | [] => Ok st
  | sc :: scans' =>
      do? MustBeNil (scan_err sc) in
      let user := decodeUser (scan_cols sc) in
      let article := decodeArticle (scan_cols sc) in
      let comment := decodeComment (scan_cols sc) in
      flatten_loop scans'
        (mkFlat (appendIfNew Id user (f_users st))
                (appendIfNew a_Id article (f_articles st))
                (appendIfNew k_Id comment (f_comments st)))
  end.

Definition FindUsersArticlesComments (rows : Rows JoinCols)
    : Res (list (User Time) * list Article * list Comment) :=
  do? MustBeNil (rows_err rows) in
  let? st := flatten_loop (rows_scans rows) (mkFlat ([], ∅) ([], ∅) ([], ∅)) in
  Ok ((f_users st).1, (f_articles st).1, (f_comments st).1).
End Queries.

Arguments Article Time : clear implicits.
Arguments Comment Time : clear implicits.
Arguments Flat Time : clear implicits.

(** ** The worker of the WAL benchmark (app.go, lines 491-514) *)

(** app.go, line 74. *)
Definition insertUserSql : string :=
  "INSERT INTO users(id,created,email,active) VALUES(?,?,?,?)".

(** The two methods of the [Db] interface the worker calls. *)
Inductive DbCall (Time : Type) : Type :=
| DbInsertUsers (insertSql : string) (users : list (User Time))
| DbFindUsers (querySql : string).
Arguments DbInsertUsers {Time} insertSql users.
Arguments DbFindUsers {Time} querySql.

(** How a call ends: it returns (the users found; nothing for
    [InsertUsers], recorded as an empty list), or it panics inside. *)
Inductive DbAnswer (Time : Type) : Type :=
| Returned (users : list (User Time))
| Panicked (msg : string).
Arguments Returned {Time} users.
Arguments Panicked {Time} msg.

Record DbEvent (Time : Type) : Type := mkDbEvent {
  db_call : DbCall Time; db_answer : DbAnswer Time }.
Arguments mkDbEvent {Time} db_call db_answer.
Arguments db_call {Time} d.
Arguments db_answer {Time} d.

(** The database behind the interface, shared with the other workers: what
    it answers may depend on everything, so it is left open. *)
Definition Db (Time : Type) : Type := list (DbEvent Time) → DbCall Time → DbAnswer Time.

(** [for _, x := range xs { body }] *)
Fixpoint forEach {E A} (xs : list A) (body : A → Eff E unit) : Eff E unit :=
  match xs with
  | [] => ret tt
  | x :: xs' => do! body x in forEach xs' body
  end.

Definition findQuery (first last : Z) : string :=
  Sprintf "SELECT id,created,email,active FROM users WHERE id BETWEEN %d AND %d ORDER BY id"
    [OInt first; OInt last].

Section Worker.
Context {Time : Type}.
Variable Year : Time → Z.
Variable db : Db Time.

Definition dbCall (c : DbCall Time) : Eff (DbEvent Time) (list (User Time)) := λ h,
  let a := db h c in
  (h ++ [mkDbEvent c a],
   match a with
   | Returned users => Ok users
   | Panicked msg => Panic msg
   end).

(** The loop [for i, u := range users] of [checkChunk], from index [i]. *)
Fixpoint checkRows (first : Z) (i : Z) (users : list (User Time)) : Res unit :=
  match users with
  | [] => Ok tt
  | u :: users' =>
      do? MustBeEqual (i + first) (Id u) in
      do? MustBeEqual 2023 (Year (Created u)) in
      let? prefix := goSubstr (Email u) 0 4 in
      do? MustBeEqual "user" prefix in
      do? MustBeEqual true (Active u) in
      checkRows first (i + 1) users'
  end.

(** What [checkChunk] does with the users the query returned. *)
Definition checkFound (chunk : list (User Time)) (first : Z) (users : list (User Time))
    : Res unit :=
  do? MustBeEqual (Z.of_nat (length chunk)) (Z.of_nat (length users)) in
  checkRows first 0 users.

Definition checkChunk (chunks : list (list (User Time))) (i : Z)
    : Eff (DbEvent Time) unit :=
  let! chunk := lift (goIndex chunks i) in
  let! c0 := lift (goIndex chunk 0) in
  let! cl := lift (goIndex chunk (Z.of_nat (length chunk) - 1)) in
  let first := Id c0 in
  let last := Id cl in
  let! users := dbCall (DbFindUsers (findQuery first last)) in
  lift (checkFound chunk first users).

(** The body of [for i, chunk := range chunks]. *)
Definition workerRound (chunks : list (list (User Time))) (ic : Z * list (User Time))
    : Eff (DbEvent Time) unit :=
  let i := ic.1 in
  let chunk := ic.2 in
  do! dbCall (DbInsertUsers insertUserSql chunk) in
  forEach (seqZ 0 3) (λ j,
    if bool_decide (i - j >= 0) then checkChunk chunks (i - j) else ret tt).

Definition worker (shard : list (User Time)) : Eff (DbEvent Time) unit :=
  let! chunks := lift (chunkUsers shard 10) in
  forEach (zip (seqZ 0 (Z.of_nat (length chunks))) chunks) (workerRound chunks).
End Worker.

(** ** Timestamps *)

(** The civil year of a day counted from 1970-01-01, proleptic Gregorian. *)
Definition civilYear (days : Z) : Z :=
  let z := days + 719468 in
  let era := z / 146097 in
  let doe := z - era * 146097 in
  let yoe := (doe - doe / 1460 + doe / 36524 - doe / 146096) / 365 in
  let doy := doe - (365 * yoe + yoe / 4 - yoe / 100) in
  let mp := (5 * doy + 2) / 153 in
  let m := if bool_decide (mp < 10) then mp + 3 else mp - 9 in
  if bool_decide (m ≤ 2) then yoe + era * 400 + 1 else yoe + era * 400.

Module TimeSpec.
(** An instant, in nanoseconds since the Unix epoch. *)
Definition Instant : Type := Z.

Definition Year (t : Instant) : Z := civilYear (t / 86400000000000).

(** A Go [int64] holds the low 64 bits, read as a signed number. *)
Definition wrap64 (z : Z) : Z := (z + 2 ^ 63) mod 2 ^ 64 - 2 ^ 63.

Definition int64 (z : Z) : Prop := - 2 ^ 63 ≤ z < 2 ^ 63.

Section Unit.
(** The chosen unit of storage, in nanoseconds. *)
Variable unit : Z.

(** Modelled from the spec: [BindTime] and [UnbindTime] are declared
    outside the files embedded here.  The spec has a timestamp bound "as
    a signed 64-bit integer count of time units since a fixed epoch" and
    unbound "by the inverse transform". *)
Definition BindTime (t : Instant) : Z := wrap64 (t / unit).

Definition UnbindTime (v : Z) : Instant := v * unit.

(** The timestamps whose count of units fits the stored integer. *)
Definition representable (t : Instant) : Prop := int64 (t / unit).

(** A timestamp cut down to a whole number of units. *)
Definition truncate (t : Instant) : Instant := t - t mod unit.
End Unit.
End TimeSpec.

(** ** The batching of the specification

    "While at least 100 rows remain, consume a batch of exactly 100; while at
    least 10 remain, consume a batch of 10; otherwise consume batches of 1",
    written down from these words, to be compared with [BulkInsert_loop]. *)

Definition batchSizes (n : nat) : list nat :=
  replicate (n / 100)%nat 100%nat ++ replicate (n mod 100 / 10)%nat 10%nat
    ++ replicate (n mod 10)%nat 1%nat.

Definition specBatches {T} (rows : list T) : list (list T) :=
  reshape (batchSizes (length rows)) rows.

(** "A statement whose value-tuple clause is repeated batchSize times". *)
Definition tupleClause (cols : string) (k : nat) : string :=
  String.concat "," (replicate k cols).

(** The parenthesised placeholder tuple [BulkInsert] starts from. *)
Definition colsOf (ncols : Z) : string :=
  Sprintf "(%s)" [OStr (repeatJoin_loop "" "?" "," (seqZ 0 ncols))].

Definition stmtText (fInsertSql cols : string) (k : nat) : string :=
  Sprintf fInsertSql [OStr (tupleClause cols k)].

(** The statement variable a batch of [k] rows goes through. *)
Definition handleFor (sts : Stmts) (k : nat) : option Stmt :=
  if bool_decide (k = 100%nat) then st100 sts
  else if bool_decide (k = 10%nat) then st10 sts
  else st1 sts.

Definition setHandle (sts : Stmts) (k : nat) (s : option Stmt) : Stmts :=
  if bool_decide (k = 100%nat) then mkStmts (st1 sts) (st10 sts) s
  else if bool_decide (k = 10%nat) then mkStmts (st1 sts) s (st100 sts)
  else mkStmts s (st10 sts) (st100 sts).

Definition descFor (k : nat) : string :=
  if bool_decide (k = 100%nat) then "prepare 100"
  else if bool_decide (k = 10%nat) then "prepare 10"
  else "prepare 1".

Section Reference.
Variable drv : Driver.
Context {T : Type}.
Variable fInsertSql : string.
Variable values : T → list Any.

(** One round of the loop on a batch already cut: compile the statement of
    its size unless there is one, execute it on the batch. *)
Definition batchStep (cols : string) (sts : Stmts) (batch : list T) : M Stmts :=
  let k := length batch in
  let! s :=
    (if handleFor sts k is None then
       try (txPrepare drv (stmtText fInsertSql cols k)) (descFor k)
     else ret (handleFor sts k)) in
  do! stmtExec drv s (batchArgs values batch) in
  ret (setHandle sts k s).

Fixpoint batchSteps (cols : string) (batches : list (list T)) (sts : Stmts) : M Stmts :=
  match batches with
  | [] => ret sts
  | b :: bs => let! sts := batchStep cols sts b in batchSteps cols bs sts
  end.
End Reference.

(** ** The rows of the benchmarks *)

(** 2023-10-01 10:00:00, read as UTC: the [base] of the benchmarks. *)
Definition base2023 : TimeSpec.Instant := 1696154400 * 10 ^ 9.

(** The user generated at index [i] (app.go, lines 457-463). *)
Definition genUser (base : TimeSpec.Instant) (i : Z) : User TimeSpec.Instant :=
  NewUser (i + 1) (base + i * 10 ^ 9)
    (Sprintf "user%d@example.com" [OInt (i + 1)]) true.

Definition genUsers (n : nat) : list (User TimeSpec.Instant) :=
  (λ i : nat, genUser base2023 (Z.of_nat i)) <$> seq 0 n.

(** The statement template of the bulk benchmark (app.go, line 547). *)
Definition bulkSql : string := "INSERT INTO users(id,created,email,active) VALUES %s".

(** Timestamps stored as milliseconds. *)
Definition millis : Z := 10 ^ 6.

(** ** [SqlDb.Exec] (sqldb.go, lines 25-30) and the schema (app.go, lines 78-121) *)

(** One [db.Exec(s)] outside a transaction, with the error it returned. *)
Record ExecEvent : Type := mkExecEvent { ex_sql : string; ex_err : option string }.

(** The database behind [db.Exec]: given the statements run so far, what the
    next one returns. *)
Definition SqlDriver : Type := list ExecEvent → string → option string.

(** The statements [initSchema], [initJournalDelete] and [initJournalWal]
    pass to [db.Exec]. *)
Definition schemaSql : list string :=
  ["CREATE TABLE users (id INTEGER PRIMARY KEY NOT NULL, created INTEGER NOT NULL, email TEXT NOT NULL, active INTEGER NOT NULL)";
   "CREATE INDEX users_created ON users(created)";
   "CREATE TABLE articles (id INTEGER PRIMARY KEY NOT NULL, created INTEGER NOT NULL,  userId INTEGER NOT NULL REFERENCES users(id), text TEXT NOT NULL)";
   "CREATE INDEX articles_created ON articles(created)";
   "CREATE INDEX articles_userId ON articles(userId)";
   "CREATE TABLE comments (id INTEGER PRIMARY KEY NOT NULL, created INTEGER NOT NULL,  articleId INTEGER NOT NULL REFERENCES articles(id), text TEXT NOT NULL)";
   "CREATE INDEX comments_created ON comments(created)";
   "CREATE INDEX comments_articleId ON comments(articleId)"].

Definition journalDeleteSql : list string :=
  ["PRAGMA journal_mode=DELETE"; "PRAGMA synchronous=FULL";
   "PRAGMA foreign_keys=1"; "PRAGMA busy_timeout=5000"].

Definition journalWalSql : list string :=
  ["PRAGMA journal_mode=WAL"; "PRAGMA synchronous=normal";
   "PRAGMA foreign_keys=1"; "PRAGMA busy_timeout=20000"].

Section SqlDb.
Variable sdrv : SqlDriver.

Definition dbExec (s : string) : Eff ExecEvent (option string) := λ h,
  let e := sdrv h s in (h ++ [mkExecEvent s e], Ok e).

Definition SqlDb_Exec (sqls : list string) : Eff ExecEvent unit :=
  forEach sqls (λ s,
    let! err := dbExec s in
    lift (MustBeNil err)).

Definition initSchema : Eff ExecEvent unit := SqlDb_Exec schemaSql.

Definition initJournalDelete : Eff ExecEvent unit :=
  do! SqlDb_Exec journalDeleteSql in
  initSchema.

Definition initJournalWal : Eff ExecEvent unit :=
  do! SqlDb_Exec journalWalSql in
  initSchema.
End SqlDb.

(** ** [InsertArticles] and [InsertComments] (sqldb.go, lines 123-151) *)

Section Articles.
Variable drv : Driver.
Context {Time : Type}.
Variable BindTime : Time → Z.

Fixpoint InsertArticles_loop (stmt : option Stmt) (articles : list (Article Time)) : M unit :=
  match articles with
  | [] => ret tt
  | u :: articles' =>
      let! err := stmtExec drv stmt
        [AInt (a_Id u); AInt64 (BindTime (a_Created u)); AInt (a_UserId u);
         AString (a_Text u)] in
      do! lift (MustBeNil err) in
      InsertArticles_loop stmt articles'
  end.

Definition InsertArticles (insertSql : string) (articles : list (Article Time)) : M unit :=
  let! (tx, err) := dbBegin drv in
  do! lift (MustBeNil err) in
  let! (stmt, err) := txPrepare drv insertSql in
  do! lift (MustBeNil err) in
  do! InsertArticles_loop stmt articles in
  let! err := stmtClose drv stmt in
  do! lift (MustBeNil err) in
  let! err := txCommit drv in
  lift (MustBeNil err).

Fixpoint InsertComments_loop (stmt : option Stmt) (comments : list (Comment Time)) : M unit :=
  match comments with
  | [] => ret tt
  | u :: comments' =>
      let! err := stmtExec drv stmt
        [AInt (k_Id u); AInt64 (BindTime (k_Created u)); AInt (k_ArticleId u);
         AString (k_Text u)] in
      do! lift (MustBeNil err) in
      InsertComments_loop stmt comments'
  end.

Definition InsertComments (insertSql : string) (comments : list (Comment Time)) : M unit :=
  let! (tx, err) := dbBegin drv in
  do! lift (MustBeNil err) in
  let! (stmt, err) := txPrepare drv insertSql in
  do! lift (MustBeNil err) in
  do! InsertComments_loop stmt comments in
  let! err := stmtClose drv stmt in
  do! lift (MustBeNil err) in
  let! err := txCommit drv in
  lift (MustBeNil err).
End Articles.

(** ** [FindArticles] (sqldb.go, lines 169-183) *)

Record ArticleCols : Type := mkArticleCols {
  ac_id : option Z; ac_created : option Z; ac_userId : option Z;
  ac_text : option string }.

Section FindArticles.
Context {Time : Type}.
Variable UnbindTime : Z → Time.

Fixpoint FindArticles_loop (scans : list (Scan ArticleCols)) (articles : list (Article Time))
    : Res (list (Article Time)) :=
  match scans with
  | [] => Ok articles
  | sc :: scans' =>
      do? MustBeNil (scan_err sc) in
      let c := scan_cols sc in
      FindArticles_loop scans'
        (articles ++ [NewArticle (Int32 (ac_id c)) (UnbindTime (Int64 (ac_created c)))
                        (Int32 (ac_userId c)) (String_ (ac_text c))])
  end.

Definition FindArticles (rows : Rows ArticleCols) : Res (list (Article Time)) :=
  do? MustBeNil (rows_err rows) in
  FindArticles_loop (rows_scans rows) [].
End FindArticles.

(** ** The validation of [benchConcurrent] (app.go, lines 420-427) *)

Section Concurrent.
Context {Time : Type}.
Variable Year : Time → Z.

(** The loop [for i, u := range users], from index [i]. *)
Fixpoint validateUsers_loop (i : Z) (users : list (User Time)) : Res unit :=
  match users with
  | [] => Ok tt
  | u :: users' =>
      do? MustBeEqual (i + 1) (Id u) in
      do? MustBeEqual 2023 (Year (Created u)) in
      let? prefix := goSubstr (Email u) 0 4 in
      do? MustBeEqual "user" prefix in
      do? MustBeEqual true (Active u) in
      validateUsers_loop (i + 1) users'
  end.

Definition validateUsers (nusers : Z) (users : list (User Time)) : Res unit :=
  do? MustBeEqual (Z.of_nat (length users)) nusers in
  validateUsers_loop 0 users.
End Concurrent.

(** * The vocabulary of the properties *)

(** ** Histories of the connection *)

(** Events that end a call: closing a statement, committing. *)
Definition closing (e : Event) : Prop :=
  match ev_call e with
  | Close _ | Commit => True
  | _ => False
  end.

(** A driver that rejects every execution, as a table does on a duplicate
    primary key, and accepts every other call. *)
Definition rejectsExec : Driver := λ _ c,
  match c with
  | Exec _ _ => Some "UNIQUE constraint failed: users.id"
  | _ => None
  end.

Section BulkVocabulary.
Variable drv : Driver.
Context {T : Type}.
Variable fInsertSql : string.
Variable ncols : Z.
Variable values : T → list Any.

Inductive StepCase (cols : string) (sts : Stmts) (b : list T) (h : Trace) : Prop :=
| step_reuse (s : Stmt) :
    handleFor sts (length b) = Some s →
    batchStep drv fInsertSql values cols sts b h =
      (h ++ [mkEvent (Exec s (batchArgs values b))
               (drv h (Exec s (batchArgs values b)))],
       Ok (setHandle sts (length b) (Some s))) →
    StepCase cols sts b h
| step_prepare :
    handleFor sts (length b) = None →
    drv h (Prepare (stmtText fInsertSql cols (length b))) = None →
    (let s := mkStmt (length h) (stmtText fInsertSql cols (length b)) in
     let h1 := h ++ [mkEvent (Prepare (stmtText fInsertSql cols (length b))) None] in
     batchStep drv fInsertSql values cols sts b h =
       (h1 ++ [mkEvent (Exec s (batchArgs values b))
                 (drv h1 (Exec s (batchArgs values b)))],
        Ok (setHandle sts (length b) (Some s)))) →
    StepCase cols sts b h
| step_fail (e : string) :
    handleFor sts (length b) = None →
    drv h (Prepare (stmtText fInsertSql cols (length b))) = Some e →
    batchStep drv fInsertSql values cols sts b h =
      (h ++ [mkEvent (Prepare (stmtText fInsertSql cols (length b))) (Some e)],
       Panic (Sprintf "failed to %s: %v" [OStr (descFor (length b)); OStr e])) →
    StepCase cols sts b h.

Definition sts0 : Stmts := mkStmts None None None.

Definition succeeded (e : Event) : Prop := ev_err e = None.

(** The driver was asked: the recorded error is its answer. *)
Definition answered (e : Event) : Prop := ∃ h, ev_err e = drv h (ev_call e).

(** The end of [BulkInsert]: release what was compiled, commit. *)
Definition finish (sts : Stmts) : M unit :=
  do! closeIfPrepared drv (st1 sts) "close st1" in
  do! closeIfPrepared drv (st10 sts) "close st10" in
  do! closeIfPrepared drv (st100 sts) "close st100" in
  let! e := txCommit drv in
  try0 e "commit".

Inductive CallShape (rows : list T) : Trace * Res unit → Prop :=
| shape_no_columns (msg : string) :
    ncols ≤ 0 → CallShape rows ([], Panic msg)
| shape_no_tx (e : string) :
    0 < ncols → drv [] Begin = Some e →
    CallShape rows ([mkEvent Begin (Some e)],
                    Panic (Sprintf "failed to %s: %v" [OStr "open tx"; OStr e]))
| shape_rounds (evs post : Trace) (r1 : Res Stmts) (r : Res unit) :
    0 < ncols → drv [] Begin = None →
    batchSteps drv fInsertSql values (colsOf ncols) (specBatches rows) sts0 [mkEvent Begin None]
      = ([mkEvent Begin None] ++ evs, r1) →
    Forall closing post →
    (is_Ok r1 = false → post = []) →
    r ≠ OutOfFuel →
    (is_Ok r = true ↔ is_Ok r1 = true ∧ Forall succeeded post) →
    (is_Ok r = true → mkEvent Commit None ∈ post) →
    Forall answered post →
    CallShape rows (mkEvent Begin None :: evs ++ post, r).

Definition pend (st : option Stmt) (text : string) : list string :=
  if st is None then [text] else [].

Definition need (cols : string) (sts : Stmts) (n : nat) : list string :=
  (if bool_decide (100 ≤ n)%nat then pend (st100 sts) (stmtText fInsertSql cols 100) else [])
  ++ (if bool_decide (10 ≤ n)%nat then pend (st10 sts) (stmtText fInsertSql cols 10) else [])
  ++ (if bool_decide (1 ≤ n)%nat then pend (st1 sts) (stmtText fInsertSql cols 1) else []).

Definition keeps (sts sts' : Stmts) : Prop :=
  ∀ k s, handleFor sts k = Some s → handleFor sts' k = Some s.

(** Every statement held was compiled from the text of its size, by the
    [Prepare] recorded at its position in the history. *)
Definition compiled (cols : string) (sts : Stmts) (h : Trace) : Prop :=
  ∀ k s, k ∈ [100; 10; 1]%nat → handleFor sts k = Some s →
    stmt_sql s = stmtText fInsertSql cols k
    ∧ h !! stmt_id s = Some (mkEvent (Prepare (stmt_sql s)) None).

Definition usedBy (cols : string) (sts : Stmts) (tr : Trace) (x : Stmt) (b : list T) : Prop :=
  handleFor sts (length b) = Some x
  ∧ stmt_sql x = stmtText fInsertSql cols (length b)
  ∧ tr !! stmt_id x = Some (mkEvent (Prepare (stmt_sql x)) None).

Definition isExec (e : Event) : Prop :=
  match ev_call e with
  | Exec _ _ => True
  | _ => False
  end.

Definition argsAndError (x : Stmt * list Any * option string) : list Any * option string :=
  (x.1.2, x.2).
End BulkVocabulary.

Section UsersVocabulary.
Context {Time : Type}.
Variable BindTime : Time → Z.

(** The tuple a user is bound to, as the driver receives it. *)
Definition rowOf (u : User Time) : list Value :=
  [VInt (Id u); VInt (BindTime (Created u)); VText (Email u); VBool (Active u)].
End UsersVocabulary.

(** ** Partition and flattening *)

(** The full-size pieces [i], [i+1], ..., [i+m-1] of [c] elements each. *)
Definition pieces {A} (c i m : nat) (u : list A) : list (list A) :=
  (λ j, take c (drop (j * c) u)) <$> seq i m.

(** The elements of a list at the first occurrence of their key: the head
    stays, what repeats its key further on goes. *)
Fixpoint firstsBy {A} (key : A → Z) (xs : list A) : list A :=
  match xs with
  | [] => []
  | x :: xs' => x :: filter (λ y, key y ≠ key x) (firstsBy key xs')
  end.

(** One collection alone, fed the decoded records in order. *)
Definition collect {A} (key : A → Z) (xs : list A) (st : list A * gmap Z Z)
    : list A * gmap Z Z :=
  foldl (λ st x, appendIfNew key x st) st xs.

(** The indexer knows exactly the keys of the collection. *)
Definition tracks {A} (key : A → Z) (st : list A * gmap Z Z) : Prop :=
  ∀ k, is_Some (st.2 !! k) ↔ k ∈ key <$> st.1.

(** ** The schedule of a worker *)

(** What the worker does, chunk by chunk. *)
Inductive Step : Type :=
| SInsert (i : nat)
| SCheck (j : nat).

(** "Chunks [i], [i-1], [i-2], clipped at the lower bound". *)
Definition window (i : nat) : list nat :=
  omap (λ j, if (j <=? i)%nat then Some (i - j)%nat else None) [0; 1; 2]%nat.

Definition schedule (m : nat) : list Step :=
  i ← seq 0 m; SInsert i :: (SCheck <$> window i).

(** Every chunk checked was inserted before. *)
Fixpoint insertedFirst (seen : list nat) (l : list Step) : bool :=
  match l with
  | [] => true
  | SInsert i :: l' => insertedFirst (i :: seen) l'
  | SCheck j :: l' => bool_decide (j ∈ seen) && insertedFirst seen l'
  end.

Section WorkerVocabulary.
Context {Time : Type}.
Variable Year : Time → Z.

(** The query that reads a chunk back, if the chunk has a first and a last
    user. *)
Definition findFor (chunk : list (User Time)) : list (DbCall Time) :=
  match chunk !! 0%nat, chunk !! (length chunk - 1)%nat with
  | Some c0, Some cl => [DbFindUsers (findQuery (Id c0) (Id cl))]
  | _, _ => []
  end.

Definition callsOf (chunks : list (list (User Time))) (st : Step) : list (DbCall Time) :=
  match st with
  | SInsert i =>
      match chunks !! i with
      | Some c => [DbInsertUsers insertUserSql c]
      | None => []
      end
  | SCheck j =>
      match chunks !! j with
      | Some c => findFor c
      | None => []
      end
  end.

Definition expectedCalls (chunks : list (list (User Time))) : list (DbCall Time) :=
  st ← schedule (length chunks); callsOf chunks st.

Definition roundCalls (chunks : list (list (User Time))) (n : nat) : list (DbCall Time) :=
  callsOf chunks (SInsert n) ++ (j ← window n; callsOf chunks (SCheck j)).

(** The calls of [m] are a beginning of [expected], all of it when [m]
    returns. *)
Definition follows {A} (m : Eff (DbEvent Time) A) (expected : list (DbCall Time)) : Prop :=
  ∀ h, ∃ evs r, m h = (h ++ evs, r)
    ∧ (db_call <$> evs) `prefix_of` expected
    ∧ (is_Ok r = true → db_call <$> evs = expected)
    ∧ r ≠ OutOfFuel.

Definition rowAccepted (first : Z) (p : nat) (u : User Time) : Prop :=
  Id u = Z.of_nat p + first
  ∧ Year (Created u) = 2023
  ∧ (∃ rest, Email u = "user" +:+ rest)
  ∧ Active u = true.
End WorkerVocabulary.

(** ** What the worker owes for every call *)

Section WorkerDuties.
Context {Time : Type}.
Variable Year : Time → Z.

(** A call the worker makes, with the check it runs on the users the call
    returns. *)
Definition Duty : Type := DbCall Time * (list (User Time) → Res unit).

(** The call was made, it returned, and what it returned passed the
    check. *)
Definition met (d : Duty) (e : DbEvent Time) : Prop :=
  db_call e = d.1 ∧ ∃ users, db_answer e = Returned users ∧ d.2 users = Ok tt.

(** Reading a chunk back: the range query from its first to its last
    identifier, checked by [checkFound] against the chunk. *)
Definition checkDuty (chunk : list (User Time)) : list Duty :=
  match chunk !! 0%nat, chunk !! (length chunk - 1)%nat with
  | Some c0, Some cl =>
      [(DbFindUsers (findQuery (Id c0) (Id cl)), checkFound Year chunk (Id c0))]
  | _, _ => []
  end.

Definition dutiesOf (chunks : list (list (User Time))) (st : Step) : list Duty :=
  match st with
  | SInsert i =>
      match chunks !! i with
      | Some c => [(DbInsertUsers insertUserSql c, λ _, Ok tt)]
      | None => []
      end
  | SCheck j =>
      match chunks !! j with
      | Some c => checkDuty c
      | None => []
      end
  end.

Definition duties (chunks : list (list (User Time))) : list Duty :=
  st ← schedule (length chunks); dutiesOf chunks st.

Definition roundDuties (chunks : list (list (User Time))) (n : nat) : list Duty :=
  dutiesOf chunks (SInsert n) ++ (j ← window n; dutiesOf chunks (SCheck j)).

(** The chunk at [j] has a first row, whose identifier opens the range. *)
Definition readable (chunks : list (list (User Time))) (j : nat) : Prop :=
  match chunks !! j with
  | Some c => c ≠ []
  | None => False
  end.

(** [m] makes the calls of [ds] in order and goes on to the next call only
    when the duty of the last one is met; it returns exactly when [able]
    holds and every duty of [ds] is met. *)
Definition discharges {A} (m : Eff (DbEvent Time) A) (ds : list Duty) (able : Prop) : Prop :=
  ∀ h, ∃ evs r, m h = (h ++ evs, r)
    ∧ r ≠ OutOfFuel
    ∧ Forall2 (λ e d, db_call e = d.1) evs (take (length evs) ds)
    ∧ (∀ k e d, evs !! k = Some e → ds !! k = Some d → (S k < length evs)%nat → met d e)
    ∧ (is_Ok r = true ↔ able ∧ Forall2 (λ e d, met d e) evs ds).
End WorkerDuties.

(** ** Calls that are checked one by one *)

(** A statement the database accepted. *)
Definition execOk (e : ExecEvent) : Prop := ex_err e = None.

(** The calls of a row-by-row insert through the statement compiled at
    position [id] of the history. *)
Definition insertPlan (id : nat) (sql : string) (argss : list (list Any)) : list Call :=
  [Begin; Prepare sql] ++ (Exec (mkStmt id sql) <$> argss)
    ++ [Close (mkStmt id sql); Commit].

(** The events [evs] that follow the history [h] are what the driver
    answered. *)
Definition driven (drv : Driver) (h evs : Trace) : Prop :=
  ∀ i e, evs !! i = Some e → ev_err e = drv (h ++ take i evs) (ev_call e).

(** A plan of calls made in order, each error checked with [MustBeNil]. *)
Fixpoint runPlan (drv : Driver) (plan : list Call) (h : Trace) : Trace * Res unit :=
  match plan with
  | [] => (h, Ok tt)
  | c :: plan' =>
      match drv h c with
      | Some e => (h ++ [mkEvent c (Some e)], Panic e)
      | None => runPlan drv plan' (h ++ [mkEvent c None])
      end
  end.

(** What a checked run of [plan] after the history [h] leaves: the calls
    made are a beginning of the plan, all of it and all successful exactly
    when the run returns; a panic carries the error of the last call, the
    only one that failed. *)
Definition checked (drv : Driver) (h : Trace) (plan : list Call) (evs : Trace)
    (r : Res unit) : Prop :=
  (ev_call <$> evs) `prefix_of` plan
  ∧ driven drv h evs
  ∧ r ≠ OutOfFuel
  ∧ (is_Ok r = true ↔ ev_call <$> evs = plan ∧ Forall succeeded evs)
  ∧ (∀ msg, r = Panic msg →
       ∃ front c, evs = front ++ [mkEvent c (Some msg)] ∧ Forall succeeded front).

Section RowVocabulary.
Context {Time : Type}.
Variable BindTime : Time → Z.

(** What the row-by-row inserts bind for one record. *)
Definition userArgs (u : User Time) : list Any :=
  [AInt (Id u); AInt64 (BindTime (Created u)); AString (Email u); ABool (Active u)].

Definition articleArgs (u : Article Time) : list Any :=
  [AInt (a_Id u); AInt64 (BindTime (a_Created u)); AInt (a_UserId u);
   AString (a_Text u)].

Definition commentArgs (u : Comment Time) : list Any :=
  [AInt (k_Id u); AInt64 (BindTime (k_Created u)); AInt (k_ArticleId u);
   AString (k_Text u)].
End RowVocabulary.

(** ** Queries *)

(** The error a query ends on: that of [db.Query], else that of the first
    scan that fails. *)
Definition queryError {A} (rows : Rows A) : option string :=
  match rows_err rows with
  | Some e => Some e
  | None => head (omap scan_err (rows_scans rows))
  end.

(** The columns of the rows of a query, in order. *)
Definition columns {A} (rows : Rows A) : list A := scan_cols <$> rows_scans rows.

Section QueryVocabulary.
Context {Time : Type}.
Variable UnbindTime : Z → Time.

Definition userOfCols (c : UserCols) : User Time :=
  NewUser (Int32 (c_id c)) (UnbindTime (Int64 (c_created c)))
    (String_ (c_email c)) (Bool (c_active c)).

Definition articleOfCols (c : ArticleCols) : Article Time :=
  NewArticle (Int32 (ac_id c)) (UnbindTime (Int64 (ac_created c)))
    (Int32 (ac_userId c)) (String_ (ac_text c)).
End QueryVocabulary.

(** The indexer maps the key of every entry of the collection to the
    position of the entry, and holds nothing else. *)
Definition indexed {A} (key : A → Z) (st : list A * gmap Z Z) : Prop :=
  ∀ k i, st.2 !! k = Some i
    ↔ ∃ (j : nat) (x : A), i = Z.of_nat j ∧ st.1 !! j = Some x ∧ key x = k.

(** A query that succeeds on every row. *)
Definition rowsOf {A} (cs : list A) : Rows A := mkRows None ((λ c, mkScan c None) <$> cs).

(** ** The statements of a history *)

Definition isPrepare (e : Event) : Prop :=
  match ev_call e with
  | Prepare _ => True
  | _ => False
  end.

(** The statements compiled by the events [tr] that follow a history of
    [n] events: one for every [Prepare] that returned no error. *)
Fixpoint openedFrom (n : nat) (tr : Trace) : list Stmt :=
  match tr with
  | [] => []
  | e :: tr' =>
      match ev_call e, ev_err e with
      | Prepare sql, None => mkStmt n sql :: openedFrom (S n) tr'
      | _, _ => openedFrom (S n) tr'
      end
  end.

Definition opened (tr : Trace) : list Stmt := openedFrom 0 tr.

(** The statements a history closes, in order. *)
Definition closes (tr : Trace) : list Stmt :=
  omap (λ e, if ev_call e is Close s then Some s else None) tr.

(** The statements held in the three variables, in the order [BulkInsert]
    closes them. *)
Definition handlesOf (sts : Stmts) : list Stmt :=
  omap id [st1 sts; st10 sts; st100 sts].

(** The record [FindUsers] gives back for a user that was stored. *)
Definition storedUser {Time} (BindTime : Time → Z) (UnbindTime : Z → Time)
    (u : User Time) : User Time :=
  NewUser (Id u) (UnbindTime (BindTime (Created u))) (Email u) (Active u).

(** ** What [BulkInsert] tells its caller *)

(** The descriptions [BulkInsert] gives the steps that can fail, by the
    call that failed. *)
Definition stepsOf (c : Call) : list string :=
  match c with
  | Begin => ["open tx"]
  | Prepare _ => ["prepare 1"; "prepare 10"; "prepare 100"]
  | Close _ => ["close st1"; "close st10"; "close st100"]
  | Commit => ["commit"]
  | Exec _ _ => []
  end.

(** A template without any [%]. *)
Fixpoint plain (s : string) : bool :=
  match s with
  | EmptyString => true
  | String c rest => negb (bool_decide (c = "%"%char)) && plain rest
  end.

(** [k] tuples of [n] placeholders, as SQL. *)
Definition tuplesSql (n k : nat) : string :=
  String.concat "," (replicate k ("(" +:+ String.concat "," (replicate n "?") +:+ ")")).

(** ** A database that returns what was inserted *)

(** The database accepts the insert of every chunk and answers the range
    query of a chunk with the users of that chunk. *)
Definition echoes {Time} (db : Db Time) (chunks : list (list (User Time))) : Prop :=
  ∀ h chunk, chunk ∈ chunks →
    (∃ l, db h (DbInsertUsers insertUserSql chunk) = Returned l)
    ∧ ∀ q, findFor chunk = [q] → db h q = Returned chunk.

(** The text of the range query of a chunk, if it has a first and a last
    user. *)
Definition queryOf {Time} (chunk : list (User Time)) : option string :=
  match chunk !! 0%nat, chunk !! (length chunk - 1)%nat with
  | Some a, Some b => Some (findQuery (Id a) (Id b))
  | _, _ => None
  end.

(** Such a database, for chunks with different identifier ranges. *)
Definition echoDb {Time} (chunks : list (list (User Time))) : Db Time := λ _ c,
  match c with
  | DbInsertUsers _ _ => Returned []
  | DbFindUsers q =>
      Returned (default [] (head (filter (λ ch, queryOf ch = Some q) chunks)))
  end.

(** Generated users in a row, the first with identifier [first]. *)
Definition runFrom (first : Z) (l : list (User TimeSpec.Instant)) : Prop :=
  ∀ p u, l !! p = Some u →
    u = genUser base2023 (first - 1 + Z.of_nat p)
    ∧ 0 ≤ first - 1 + Z.of_nat p < 7912800.

(** The number of occurrences of a character in a text. *)
Fixpoint countChar (c : ascii) (s : string) : nat :=
  match s with
  | EmptyString => 0
  | String x rest => (if bool_decide (x = c) then 1 else 0) + countChar c rest
  end.

(** * Properties *)

(** ** [repeatJoin] *)

Lemma append_cons (x : ascii) (a b : string) : String x a +:+ b = String x (a +:+ b).
Proof. reflexivity. Qed.

Lemma append_empty_l (a : string) : "" +:+ a = a.
Proof. reflexivity. Qed.

Lemma append_assoc (a b c : string) : (a +:+ b) +:+ c = a +:+ (b +:+ c).
Proof.
  induction a as [|x a IH]; [done|].
  rewrite !append_cons. by f_equal.
Qed.

Lemma append_empty_r (a : string) : a +:+ "" = a.
Proof.
  induction a as [|x a IH]; [done|].
  rewrite append_cons. by f_equal.
Qed.

Lemma concat_empty_replicate_S (s : string) (m : nat) :
  String.concat "" (replicate (S m) s) = s +:+ String.concat "" (replicate m s).
Proof.
  destruct m as [|m]; cbn [replicate String.concat].
  - by rewrite append_empty_r.
  - by rewrite append_empty_l.
Qed.

Lemma concat_sep_replicate_S (str sep : string) (m : nat) :
  String.concat sep (replicate (S (S m)) str)
  = str +:+ sep +:+ String.concat sep (replicate (S m) str).
Proof. reflexivity. Qed.

Lemma repeatJoin_loop_pos (sb str sep : string) (i : Z) (m : nat) :
  0 < i →
  repeatJoin_loop sb str sep (seqZ i (Z.of_nat m))
  = sb +:+ String.concat "" (replicate m (sep +:+ str)).
Proof.
  revert sb i. induction m as [|m IH]; intros sb i Hi.
  - cbn. by rewrite append_empty_r.
  - rewrite seqZ_cons by lia. cbn [repeatJoin_loop].
    rewrite bool_decide_true by lia.
    replace (Z.pred (Z.of_nat (S m))) with (Z.of_nat m) by lia.
    rewrite IH by lia. rewrite concat_empty_replicate_S.
    by rewrite !append_assoc.
Qed.

Lemma concat_sep_replicate (str sep : string) (m : nat) :
  str +:+ String.concat "" (replicate m (sep +:+ str))
  = String.concat sep (replicate (S m) str).
Proof.
  induction m as [|m IH].
  - cbn. by rewrite append_empty_r.
  - rewrite concat_sep_replicate_S, <- IH, concat_empty_replicate_S.
    by rewrite !append_assoc.
Qed.

Lemma repeatJoin_loop_spec (str sep : string) (k : nat) :
  repeatJoin_loop "" str sep (seqZ 0 (Z.of_nat k)) = String.concat sep (replicate k str).
Proof.
  destruct k as [|k]; [done|].
  rewrite seqZ_cons by lia. cbn [repeatJoin_loop].
  rewrite bool_decide_false by lia.
  replace (Z.pred (Z.of_nat (S k))) with (Z.of_nat k) by lia.
  rewrite append_empty_l, repeatJoin_loop_pos by lia.
  apply concat_sep_replicate.
Qed.

(** From one copy on, [repeatJoin] returns the copies joined by the
    separator. *)
Lemma repeatJoin_spec (str sep : string) (k : nat) :
  (1 ≤ k)%nat →
  repeatJoin str (Z.of_nat k) sep = Ok (String.concat sep (replicate k str)).
Proof.
  intros Hk. unfold repeatJoin, Grow, len.
  rewrite bool_decide_false by nia. simpl.
  by rewrite repeatJoin_loop_spec.
Qed.

(** Without copies and with a separator, the size hint is negative and
    [Grow] panics. *)
Lemma repeatJoin_nonpositive (str sep : string) (n : Z) :
  n ≤ 0 → sep ≠ "" → is_Panic (repeatJoin str n sep) = true.
Proof.
  intros Hn Hsep. unfold repeatJoin, Grow, len.
  rewrite bool_decide_true; [done|].
  destruct sep as [|c sep]; [done|]. simpl String.length. nia.
Qed.

(** ** The loop of [BulkInsert] against the batching of the specification *)

Lemma batchSizes_100 (n : nat) :
  (100 ≤ n)%nat → batchSizes n = 100%nat :: batchSizes (n - 100).
Proof.
  intros Hn. unfold batchSizes.
  replace (n / 100)%nat with (S ((n - 100) / 100)) by
    (zify; Z.div_mod_to_equations; lia).
  replace ((n - 100) mod 100)%nat with (n mod 100)%nat by
    (zify; Z.div_mod_to_equations; lia).
  replace ((n - 100) mod 10)%nat with (n mod 10)%nat by
    (zify; Z.div_mod_to_equations; lia).
  done.
Qed.

Lemma batchSizes_10 (n : nat) :
  (10 ≤ n < 100)%nat → batchSizes n = 10%nat :: batchSizes (n - 10).
Proof.
  intros Hn. unfold batchSizes.
  replace (n / 100)%nat with 0%nat by (zify; Z.div_mod_to_equations; lia).
  replace ((n - 10) / 100)%nat with 0%nat by (zify; Z.div_mod_to_equations; lia).
  replace (n mod 100 / 10)%nat with (S ((n - 10) mod 100 / 10)) by
    (zify; Z.div_mod_to_equations; lia).
  replace ((n - 10) mod 10)%nat with (n mod 10)%nat by
    (zify; Z.div_mod_to_equations; lia).
  done.
Qed.

Lemma batchSizes_1 (n : nat) :
  (1 ≤ n < 10)%nat → batchSizes n = 1%nat :: batchSizes (n - 1).
Proof.
  intros Hn. unfold batchSizes.
  replace (n / 100)%nat with 0%nat by (zify; Z.div_mod_to_equations; lia).
  replace ((n - 1) / 100)%nat with 0%nat by (zify; Z.div_mod_to_equations; lia).
  replace (n mod 100 / 10)%nat with 0%nat by (zify; Z.div_mod_to_equations; lia).
  replace ((n - 1) mod 100 / 10)%nat with 0%nat by (zify; Z.div_mod_to_equations; lia).
  replace (n mod 10)%nat with (S ((n - 1) mod 10)) by
    (zify; Z.div_mod_to_equations; lia).
  done.
Qed.

Lemma batchSizes_0 : batchSizes 0 = [].
Proof. reflexivity. Qed.

Lemma specBatches_nil {T} : specBatches (@nil T) = [].
Proof. reflexivity. Qed.

Lemma specBatches_step {T} (rows : list T) (k : nat) :
  batchSizes (length rows) = k :: batchSizes (length rows - k) →
  specBatches rows = take k rows :: specBatches (drop k rows).
Proof.
  intros Hk. unfold specBatches. rewrite Hk. cbn [reshape].
  by rewrite length_drop.
Qed.

(** ** Reading histories *)

Lemma prepared_app (a b : Trace) : prepared (a ++ b) = prepared a ++ prepared b.
Proof. apply omap_app. Qed.

Lemma execs_app (a b : Trace) : execs (a ++ b) = execs a ++ execs b.
Proof. apply omap_app. Qed.

Lemma execArgs_app (a b : Trace) : execArgs (a ++ b) = execArgs a ++ execArgs b.
Proof. unfold execArgs. by rewrite execs_app, fmap_app. Qed.

Lemma execStmts_app (a b : Trace) : execStmts (a ++ b) = execStmts a ++ execStmts b.
Proof. unfold execStmts. by rewrite execs_app, fmap_app. Qed.

Lemma execStmts_exec (s : Stmt) (args : list Any) (e : option string) (tr : Trace) :
  execStmts (mkEvent (Exec s args) e :: tr) = s :: execStmts tr.
Proof. reflexivity. Qed.

Lemma execStmts_prepare (sql : string) (e : option string) (tr : Trace) :
  execStmts (mkEvent (Prepare sql) e :: tr) = execStmts tr.
Proof. reflexivity. Qed.

Lemma closing_prepared (post : Trace) : Forall closing post → prepared post = [].
Proof.
  induction 1 as [|[c e] post Hc _ IH]; [done|].
  destruct c; try done; apply IH.
Qed.

Lemma closing_execs (post : Trace) : Forall closing post → execs post = [].
Proof.
  induction 1 as [|[c e] post Hc _ IH]; [done|].
  destruct c; try done; apply IH.
Qed.

(** ** Cutting a row sequence into batches *)

Lemma reshape_concat {T} (sizes : list nat) (rows : list T) :
  (length rows ≤ sum_list sizes)%nat → concat (reshape sizes rows) = rows.
Proof.
  revert rows. induction sizes as [|k sizes IH]; intros rows Hlen.
  - destruct rows; [done | simpl in Hlen; lia].
  - cbn [reshape concat]. rewrite IH.
    + apply take_drop.
    + rewrite length_drop. simpl in Hlen. lia.
Qed.

Lemma reshape_lengths {T} (sizes : list nat) (rows : list T) :
  (sum_list sizes ≤ length rows)%nat → length <$> reshape sizes rows = sizes.
Proof.
  revert rows. induction sizes as [|k sizes IH]; intros rows Hlen; [done|].
  simpl in Hlen. cbn [reshape fmap list_fmap]. f_equal.
  - rewrite length_take. lia.
  - apply IH. rewrite length_drop. lia.
Qed.

Lemma batchSizes_sum (n : nat) : sum_list (batchSizes n) = n.
Proof.
  unfold batchSizes. rewrite !sum_list_with_app, !sum_list_replicate.
  zify; Z.div_mod_to_equations; lia.
Qed.

Lemma batchSizes_nominal (n : nat) :
  Forall (λ k, k ∈ [100; 10; 1]%nat) (batchSizes n).
Proof.
  unfold batchSizes. rewrite !Forall_app. repeat split.
  all: apply Forall_replicate; set_solver.
Qed.

Lemma specBatches_concat {T} (rows : list T) : concat (specBatches rows) = rows.
Proof. apply reshape_concat. by rewrite batchSizes_sum. Qed.

Lemma specBatches_lengths {T} (rows : list T) :
  length <$> specBatches rows = batchSizes (length rows).
Proof. apply reshape_lengths. by rewrite batchSizes_sum. Qed.

Lemma specBatches_nominal {T} (rows : list T) :
  Forall (λ b, length b ∈ [100; 10; 1]%nat) (specBatches rows).
Proof.
  pose proof (batchSizes_nominal (length rows)) as H.
  rewrite <- specBatches_lengths in H. by apply Forall_fmap in H.
Qed.

Section BulkInsertProps.
Variable drv : Driver.
Context {T : Type}.
Variable fInsertSql : string.
Variable ncols : Z.
Variable values : T → list Any.

Local Abbreviation loop := (BulkInsert_loop drv fInsertSql values).
Local Abbreviation steps := (batchSteps drv fInsertSql values).

Lemma loop_unfold (fuel : nat) (cols : string) (rows : list T) (sts : Stmts) :
  loop (S fuel) cols rows sts =
    let n := Z.of_nat (length rows) in
    if bool_decide (n > 0) then
      if bool_decide (n >= 100) then
        let! s100 :=
          (if st100 sts is None then
             let! vals := lift (repeatJoin cols 100 ",") in
             try (txPrepare drv (Sprintf fInsertSql [OStr vals])) "prepare 100"
           else ret (st100 sts)) in
        do! stmtExec drv s100 (batchArgs values (take 100 rows)) in
        loop fuel cols (drop 100 rows) (mkStmts (st1 sts) (st10 sts) s100)
      else if bool_decide (n >= 10) then
        let! s10 :=
          (if st10 sts is None then
             let! vals := lift (repeatJoin cols 10 ",") in
             try (txPrepare drv (Sprintf fInsertSql [OStr vals])) "prepare 10"
           else ret (st10 sts)) in
        do! stmtExec drv s10 (batchArgs values (take 10 rows)) in
        loop fuel cols (drop 10 rows) (mkStmts (st1 sts) s10 (st100 sts))
      else
        let! s1 :=
          (if st1 sts is None then
             try (txPrepare drv (Sprintf fInsertSql [OStr cols])) "prepare 1"
           else ret (st1 sts)) in
        do! stmtExec drv s1 (batchArgs values (take 1 rows)) in
        loop fuel cols (drop 1 rows) (mkStmts s1 (st10 sts) (st100 sts))
    else ret sts.
Proof. reflexivity. Qed.

Lemma loop_refines (fuel : nat) (cols : string) (rows : list T) (sts : Stmts) (h : Trace) :
  (length rows ≤ fuel)%nat →
  loop fuel cols rows sts h = steps cols (specBatches rows) sts h.
Proof.
  revert rows sts h. induction fuel as [|fuel IH]; intros rows sts h Hlen.
  - destruct rows; [done | simpl in Hlen; lia].
  - rewrite loop_unfold. cbv zeta.
    case_bool_decide as H0; cycle 1.
    { destruct rows; [done | simpl in H0; lia]. }
    case_bool_decide as H100; [|case_bool_decide as H10].
    + rewrite (specBatches_step rows 100) by (apply batchSizes_100; lia).
      cbn [batchSteps]. unfold batchStep.
      rewrite length_take, Nat.min_l by lia.
      unfold handleFor, setHandle, descFor, stmtText, tupleClause.
      rewrite !bool_decide_true by done.
      change 100 with (Z.of_nat 100). rewrite repeatJoin_spec by lia.
      unfold bind, ret, lift.
      destruct (st100 sts) as [s|].
      * destruct (stmtExec drv (Some s) _ h) as [h1 [e| |]]; try done.
        apply IH. rewrite length_drop. lia.
      * destruct (try _ _ h) as [h1 [s| |]]; try done.
        destruct (stmtExec drv s _ h1) as [h2 [e| |]]; try done.
        apply IH. rewrite length_drop. lia.
    + rewrite (specBatches_step rows 10) by (apply batchSizes_10; lia).
      cbn [batchSteps]. unfold batchStep.
      rewrite length_take, Nat.min_l by lia.
      unfold handleFor, setHandle, descFor, stmtText, tupleClause.
      rewrite bool_decide_false, bool_decide_true by done.
      change 10 with (Z.of_nat 10). rewrite repeatJoin_spec by lia.
      unfold bind, ret, lift.
      destruct (st10 sts) as [s|].
      * destruct (stmtExec drv (Some s) _ h) as [h1 [e| |]]; try done.
        apply IH. rewrite length_drop. lia.
      * destruct (try _ _ h) as [h1 [s| |]]; try done.
        destruct (stmtExec drv s _ h1) as [h2 [e| |]]; try done.
        apply IH. rewrite length_drop. lia.
    + rewrite (specBatches_step rows 1) by (apply batchSizes_1; lia).
      cbn [batchSteps]. unfold batchStep.
      rewrite length_take, Nat.min_l by lia.
      unfold handleFor, setHandle, descFor, stmtText, tupleClause.
      rewrite !bool_decide_false by done.
      change (String.concat "," (replicate 1 cols)) with cols.
      unfold bind, ret, lift.
      destruct (st1 sts) as [s|].
      * destruct (stmtExec drv (Some s) _ h) as [h1 [e| |]]; try done.
        apply IH. rewrite length_drop. lia.
      * destruct (try _ _ h) as [h1 [s| |]]; try done.
        destruct (stmtExec drv s _ h1) as [h2 [e| |]]; try done.
        apply IH. rewrite length_drop. lia.
Qed.

(** *** One round *)

Local Abbreviation step := (batchStep drv fInsertSql values).

Lemma step_cases (cols : string) (sts : Stmts) (b : list T) (h : Trace) :
  StepCase drv fInsertSql values cols sts b h.
Proof.
  destruct (handleFor sts (length b)) as [s|] eqn:Hs.
  - apply (step_reuse _ _ _ _ _ _ _ s); [done|].
    unfold batchStep. rewrite Hs. reflexivity.
  - destruct (drv h (Prepare (stmtText fInsertSql cols (length b)))) as [e|] eqn:He.
    + apply (step_fail _ _ _ _ _ _ _ e); [done..|].
      unfold batchStep. rewrite Hs.
      unfold bind, try, txPrepare, call, ret, bind. rewrite He. reflexivity.
    + apply step_prepare; [done..|].
      unfold batchStep. rewrite Hs.
      unfold bind, try, txPrepare, call, ret, bind. rewrite He. reflexivity.
Qed.

Lemma steps_cons (cols : string) (b : list T) (bs : list (list T)) (sts : Stmts) (h : Trace) :
  steps cols (b :: bs) sts h =
    match step cols sts b h with
    | (h', Ok sts') => steps cols bs sts' h'
    | (h', Panic msg) => (h', Panic msg)
    | (h', OutOfFuel) => (h', OutOfFuel)
    end.
Proof. reflexivity. Qed.

(** The rounds extend the history and never run out of fuel. *)
Lemma steps_extends (cols : string) (bs : list (list T)) (sts : Stmts) (h : Trace) :
  ∃ evs r, steps cols bs sts h = (h ++ evs, r) ∧ r ≠ OutOfFuel.
Proof.
  revert sts h. induction bs as [|b bs IH]; intros sts h.
  - exists [], (Ok sts). by rewrite app_nil_r.
  - rewrite steps_cons.
    destruct (step_cases cols sts b h) as [s _ ->| _ _ ->|e _ _ ->]; cbv zeta.
    + destruct (IH (setHandle sts (length b) (Some s)) (h ++ [mkEvent (Exec s (batchArgs values b))
               (drv h (Exec s (batchArgs values b)))])) as (evs & r & -> & Hr).
      eexists _, r. by rewrite <- app_assoc.
    + match goal with |- context [steps cols bs ?s ?h'] =>
        destruct (IH s h') as (evs & r & -> & Hr) end.
      eexists _, r. by rewrite <- !app_assoc.
    + by eexists _, _.
Qed.

(** *** When no [Prepare] fails, the executions are the batches of the
    specification *)

Lemma steps_execArgs (cols : string) (bs : list (list T)) (sts : Stmts) (h : Trace) :
  (∀ h sql, drv h (Prepare sql) = None) →
  ∃ evs sts', steps cols bs sts h = (h ++ evs, Ok sts')
    ∧ execArgs evs = batchArgs values <$> bs.
Proof.
  intros Hprep. revert sts h. induction bs as [|b bs IH]; intros sts h.
  - exists [], sts. by rewrite app_nil_r.
  - rewrite steps_cons.
    destruct (step_cases cols sts b h) as [s _ ->| _ _ ->|e _ He _]; cbv zeta.
    + match goal with |- context [steps cols bs ?s ?h'] =>
        destruct (IH s h') as (evs & sts' & -> & Hargs) end.
      eexists _, sts'. rewrite <- app_assoc. split; [done|].
      rewrite execArgs_app, Hargs. reflexivity.
    + match goal with |- context [steps cols bs ?s ?h'] =>
        destruct (IH s h') as (evs & sts' & -> & Hargs) end.
      eexists _, sts'. rewrite <- !app_assoc. split; [done|].
      rewrite !execArgs_app, Hargs. reflexivity.
    + by rewrite Hprep in He.
Qed.

(** *** The shape of a whole call *)

Lemma repeatJoin_placeholders :
  0 < ncols → repeatJoin "?" ncols "," = Ok (repeatJoin_loop "" "?" "," (seqZ 0 ncols)).
Proof.
  intros Hn. unfold repeatJoin, Grow, len. cbn [String.length].
  rewrite bool_decide_false by lia. reflexivity.
Qed.

Lemma finish_spec (sts : Stmts) (h : Trace) :
  ∃ post r, finish drv sts h = (h ++ post, r)
    ∧ Forall closing post ∧ Forall (answered drv) post
    ∧ r ≠ OutOfFuel
    ∧ (is_Ok r = true ↔ Forall succeeded post)
    ∧ (is_Ok r = true → mkEvent Commit None ∈ post).
Proof.
  destruct sts as [[a|] [b|] [c|]].
  all: unfold finish, closeIfPrepared, stmtClose, txCommit, bind, call, try0, ret, panic;
    cbn [st1 st10 st100].
  all: repeat match goal with
         | |- context [drv ?h' ?c'] =>
             let e := fresh "e" in let He := fresh "He" in
             destruct (drv h' c') as [e|] eqn:He
         end.
  all: eexists _, _; rewrite <- ?app_assoc.
  all: (split; [reflexivity|]).
  all: unfold succeeded, closing, answered; cbn [is_Ok app].
  all: split_and!; try done.
  all: first
    [ by (repeat (apply Forall_cons; split); try apply Forall_nil; try exact I;
          eexists; cbn; symmetry; eassumption)
    | by (split; [done | intros HF; decompose_Forall_hyps; simplify_eq/=])
    | by (split; [intros _; repeat (apply Forall_cons; split); try apply Forall_nil; done
                 | done])
    | by (intros _; rewrite !elem_of_cons; naive_solver) ].
Qed.

Lemma BulkInsert_shape (rows : list T) :
  CallShape drv fInsertSql ncols values rows (BulkInsert drv fInsertSql ncols values rows []).
Proof.
  unfold BulkInsert.
  destruct (decide (0 < ncols)) as [Hn|Hn]; cycle 1.
  { unfold bind at 1, lift at 1.
    pose proof (repeatJoin_nonpositive "?" "," ncols ltac:(lia) ltac:(done)) as Hp.
    destruct (repeatJoin "?" ncols ",") as [q|msg|]; try done.
    apply shape_no_columns. lia. }
  rewrite repeatJoin_placeholders by done.
  unfold bind at 1, lift at 1. fold (colsOf ncols).
  unfold bind at 1, try at 1, dbBegin, bind at 1 2, call at 1, ret at 1.
  destruct (drv [] Begin) as [e|] eqn:Hb.
  { cbn. by apply shape_no_tx. }
  cbn [app try0 ret]. unfold bind at 1, ret at 1. unfold bind at 1.
  unfold ret at 1. cbv beta iota.
  rewrite loop_refines by done.
  destruct (steps_extends (colsOf ncols) (specBatches rows) (mkStmts None None None)
              [mkEvent Begin None]) as (evs & r1 & Hsteps & Hr1).
  fold sts0 in Hsteps |- *. rewrite Hsteps.
  destruct r1 as [sts'|msg|]; [|clear Hr1|done].
  - change (CallShape drv fInsertSql ncols values rows (finish drv sts' ([mkEvent Begin None] ++ evs))).
    destruct (finish_spec sts' ([mkEvent Begin None] ++ evs))
      as (post & r & -> & Hc & Ha & Hf & Hok & Hcommit).
    rewrite <- app_assoc. cbn [app].
    eapply (shape_rounds _ _ _ _ rows evs post (Ok sts')); try done.
    rewrite Hok. cbn. tauto.
  - cbn [app]. rewrite <- (app_nil_r evs) at 1.
    eapply (shape_rounds _ _ _ _ rows evs [] (Panic msg)); try done.
    cbn. intuition discriminate.
Qed.

(** C1. Once the transaction is open and the statements compile, the bound
    argument lists of the executions are those of batches that tile the
    rows front to back: [n / 100] batches of exactly 100 rows, then
    [n mod 100 / 10] batches of exactly 10, then [n mod 10] batches of 1;
    the sizes sum to [n] and every batch has one of the nominal sizes in
    full, so none is short. *)
Theorem BulkInsert_batches (rows : list T) :
  0 < ncols →
  (∀ h, drv h Begin = None) →
  (∀ h sql, drv h (Prepare sql) = None) →
  let tr := (BulkInsert drv fInsertSql ncols values rows []).1 in
  let n := length rows in
  ∃ batches : list (list T),
    execArgs tr = batchArgs values <$> batches
    ∧ concat batches = rows
    ∧ length <$> batches =
        replicate (n / 100)%nat 100%nat ++ replicate (n mod 100 / 10)%nat 10%nat
          ++ replicate (n mod 10)%nat 1%nat
    ∧ sum_list (length <$> batches) = n
    ∧ Forall (λ b, length b ∈ [100; 10; 1]%nat) batches.
Proof.
  intros Hn Hbegin Hprep tr n. exists (specBatches rows).
  split; [|split; [|split; [|split]]].
  - subst tr.
    destruct (BulkInsert_shape rows) as [msg Hn'|e _ Hb|evs post r1 r _ _ Hsteps Hpost _ _ _ _ _].
    + lia.
    + by rewrite Hbegin in Hb.
    + destruct (steps_execArgs (colsOf ncols) (specBatches rows) sts0
                  [mkEvent Begin None] Hprep) as (evs' & sts' & Hsteps' & Hargs).
      rewrite Hsteps in Hsteps'. simplify_eq.
      cbn [fst]. change (mkEvent Begin None :: evs' ++ post)
        with ([mkEvent Begin None] ++ evs' ++ post).
      rewrite !execArgs_app, Hargs. unfold execArgs at 2.
      rewrite closing_execs by done. cbn. by rewrite app_nil_r.
  - apply specBatches_concat.
  - apply specBatches_lengths.
  - rewrite specBatches_lengths. apply batchSizes_sum.
  - apply specBatches_nominal.
Qed.

(** *** Compilations: one per size, in the order 100, 10, 1 *)

Ltac sublist_atoms :=
  repeat first [ apply sublist_nil_l | apply sublist_skip | apply sublist_cons ].

Lemma need_weaken (cols : string) (sts : Stmts) (n m : nat) (l : list string) :
  (m ≤ n)%nat → l `sublist_of` need fInsertSql cols sts m → l `sublist_of` need fInsertSql cols sts n.
Proof.
  intros Hmn Hl. etrans; [exact Hl|]. unfold need, pend.
  destruct (st100 sts), (st10 sts), (st1 sts).
  all: repeat case_bool_decide; try lia; cbn [app]; sublist_atoms.
Qed.

Lemma steps_prepared (fuel : nat) (cols : string) (rows : list T) (sts : Stmts)
    (h evs : Trace) (r : Res Stmts) :
  (length rows ≤ fuel)%nat →
  steps cols (specBatches rows) sts h = (h ++ evs, r) →
  prepared evs `sublist_of` need fInsertSql cols sts (length rows).
Proof.
  revert rows sts h evs r.
  induction fuel as [|fuel IH]; intros rows sts h evs r Hlen Hrun.
  { destruct rows; [|simpl in Hlen; lia].
    cbn in Hrun. unfold ret in Hrun. simplify_eq.
    assert (evs = []) as -> by (by eapply app_inv_head; rewrite app_nil_r).
    apply sublist_nil_l. }
  destruct (decide (length rows = 0%nat)) as [Hz|Hz].
  { destruct rows; [|done].
    cbn in Hrun. unfold ret in Hrun. simplify_eq.
    assert (evs = []) as -> by (by eapply app_inv_head; rewrite app_nil_r).
    apply sublist_nil_l. }
  assert (∃ k, k ∈ [100; 10; 1]%nat ∧ (k ≤ length rows)%nat
               ∧ batchSizes (length rows) = k :: batchSizes (length rows - k)
               ∧ (∀ j, j ∈ [100; 10; 1]%nat → (k < j)%nat → (length rows < j)%nat))
    as (k & Hk & Hkn & Hsz & Hmax).
  { destruct (decide (100 ≤ length rows)%nat);
      [|destruct (decide (10 ≤ length rows)%nat)].
    - exists 100%nat. split_and!; [set_solver | lia | by apply batchSizes_100 |].
      intros j Hj. set_unfold. lia.
    - exists 10%nat. split_and!; [set_solver | lia | apply batchSizes_10; lia |].
      intros j Hj. set_unfold. lia.
    - exists 1%nat. split_and!; [set_solver | lia | apply batchSizes_1; lia |].
      intros j Hj. set_unfold. lia. }
  rewrite (specBatches_step rows k Hsz), steps_cons in Hrun.
  assert (1 ≤ k)%nat as Hk1 by (set_unfold; lia).
  assert (length (take k rows) = k) as Hb by (rewrite length_take; lia).
  assert (length (drop k rows) ≤ fuel)%nat as Hfuel by (rewrite length_drop; lia).
  destruct (step_cases cols sts (take k rows) h) as [s Hs Hstep|Hs Hd Hstep|e Hs Hd Hstep];
    rewrite Hstep in Hrun; clear Hstep; rewrite Hb in *; cbv zeta in Hrun.
  - destruct (steps_extends cols (specBatches (drop k rows))
                (setHandle sts k (Some s))
                (h ++ [mkEvent (Exec s (batchArgs values (take k rows)))
                         (drv h (Exec s (batchArgs values (take k rows))))]))
      as (evs' & r' & Hrun' & _).
    rewrite Hrun' in Hrun. rewrite <- app_assoc in Hrun. simplify_eq.
    apply IH in Hrun'; [|done].
    rewrite prepared_app. cbn [prepared omap app ev_call mbind option_bind].
    cbn [prepared omap list_omap ev_call]. cbn.
    apply (need_weaken cols sts (length rows) (length (drop k rows)));
      [rewrite length_drop; lia|].
    etrans; [exact Hrun'|].
    unfold need, pend, handleFor, setHandle in *.
    set_unfold in Hk. destruct Hk as [->|[->|[->|[]]]].
    all: repeat (rewrite ?bool_decide_true, ?bool_decide_false in Hs by done).
    all: repeat (rewrite ?bool_decide_true, ?bool_decide_false by done).
    all: cbn [st1 st10 st100]; rewrite Hs; reflexivity.
  - match type of Hrun with steps cols ?bs ?sts1 ?h1 = _ =>
      destruct (steps_extends cols bs sts1 h1) as (evs' & r' & Hrun' & _) end.
    rewrite Hrun' in Hrun. rewrite <- !app_assoc in Hrun. simplify_eq.
    apply IH in Hrun'; [|done].
    rewrite !prepared_app. cbn.
    assert (prepared evs' `sublist_of`
              need fInsertSql cols (setHandle sts k (Some (mkStmt (length h) (stmtText fInsertSql cols k))))
                (length rows - k)) as Hsub.
    { by rewrite <- length_drop. }
    clear Hrun'. revert Hsub.
    generalize (prepared evs'). intros l Hl.
    assert (k < 100 → length rows < 100)%nat as Hmax100
      by (intros; apply Hmax; [set_unfold; auto | done]).
    assert (k < 10 → length rows < 10)%nat as Hmax10
      by (intros; apply Hmax; [set_unfold; auto | done]).
    clear Hmax.
    apply (sublist_skip (stmtText fInsertSql cols k)) in Hl.
    etrans; [exact Hl|]. clear Hl.
    unfold need, pend, handleFor, setHandle in *.
    set_unfold in Hk. destruct Hk as [->|[->|[->|[]]]].
    all: repeat (rewrite ?bool_decide_true, ?bool_decide_false in Hs by done).
    all: rewrite ?(bool_decide_true (100 = 100)%nat), ?(bool_decide_true (10 = 10)%nat),
           ?(bool_decide_false (10 = 100)%nat), ?(bool_decide_false (1 = 100)%nat),
           ?(bool_decide_false (1 = 10)%nat) by done.
    all: cbn [st1 st10 st100]; rewrite Hs.
    all: destruct (st100 sts), (st10 sts), (st1 sts); try done.
    all: repeat case_bool_decide; try lia; cbn [app]; sublist_atoms.
  - simplify_eq.
    cbn. unfold need, pend, handleFor in *.
    set_unfold in Hk. destruct Hk as [->|[->|[->|[]]]].
    all: repeat (rewrite ?bool_decide_true, ?bool_decide_false in Hs by done).
    all: cbn [st1 st10 st100]; rewrite Hs.
    all: destruct (st100 sts), (st10 sts), (st1 sts); try done.
    all: repeat case_bool_decide; try lia; cbn [app]; sublist_atoms.
Qed.

(** *** Reuse: every batch of one size goes through one statement *)

Lemma setHandle_id (sts : Stmts) (k : nat) (s : Stmt) :
  handleFor sts k = Some s → setHandle sts k (Some s) = sts.
Proof.
  destruct sts as [a b c]. unfold handleFor, setHandle.
  repeat case_bool_decide; cbn; congruence.
Qed.

Lemma handleFor_setHandle (sts : Stmts) (k : nat) (x : option Stmt) :
  handleFor (setHandle sts k x) k = x.
Proof.
  destruct sts as [a b c]. unfold handleFor, setHandle.
  repeat case_bool_decide; cbn; congruence.
Qed.

Lemma handleFor_setHandle_ne (sts : Stmts) (j k : nat) (x : option Stmt) :
  j ∈ [100; 10; 1]%nat → k ∈ [100; 10; 1]%nat → j ≠ k →
  handleFor (setHandle sts k x) j = handleFor sts j.
Proof.
  destruct sts as [a b c]. unfold handleFor, setHandle. set_unfold.
  intros Hj Hk Hjk. repeat case_bool_decide; cbn; try congruence; lia.
Qed.

Lemma keeps_setHandle (sts : Stmts) (k : nat) (x : option Stmt) :
  handleFor sts k = None → keeps sts (setHandle sts k x).
Proof.
  destruct sts as [a b c]. unfold keeps, handleFor, setHandle.
  intros Hk j s. repeat case_bool_decide; cbn in *; congruence.
Qed.

Lemma compiled_extend (cols : string) (sts : Stmts) (h evs : Trace) :
  compiled fInsertSql cols sts h → compiled fInsertSql cols sts (h ++ evs).
Proof.
  intros Hc k s Hk Hs. destruct (Hc k s Hk Hs) as [Ht Hl].
  split; [done|]. by apply lookup_app_l_Some.
Qed.

Lemma steps_reuse (cols : string) (bs : list (list T)) (sts : Stmts) (h : Trace) :
  Forall (λ b, length b ∈ [100; 10; 1]%nat) bs →
  compiled fInsertSql cols sts h →
  ∃ evs r sts',
    steps cols bs sts h = (h ++ evs, r)
    ∧ keeps sts sts'
    ∧ compiled fInsertSql cols sts' (h ++ evs)
    ∧ (∀ s, r = Ok s → s = sts' ∧ length (execStmts evs) = length bs)
    ∧ Forall2 (λ x b, handleFor sts' (length b) = Some x)
        (execStmts evs) (take (length (execStmts evs)) bs).
Proof.
  intros Hnom. revert sts h.
  induction Hnom as [|b bs Hb Hnom IH]; intros sts h Hc.
  { exists [], (Ok sts), sts. rewrite app_nil_r.
    split_and!; [done | by intros k s | done | by intros s [= ->] | constructor]. }
  rewrite steps_cons.
  destruct (step_cases cols sts b h) as [s Hs ->|Hs Hd ->|e Hs Hd ->]; cbv zeta.
  - rewrite (setHandle_id _ _ _ Hs).
    destruct (IH sts (h ++ [mkEvent (Exec s (batchArgs values b))
                             (drv h (Exec s (batchArgs values b)))]))
      as (evs & r & sts' & -> & Hk & Hc' & Hr & Hu); [by apply compiled_extend|].
    eexists (_ :: evs), r, sts'. rewrite <- app_assoc. cbn [app].
    split_and!; try done.
    + by rewrite <- app_assoc in Hc'.
    + intros s' ->. destruct (Hr s' eq_refl) as [-> Hl]. split; [done|].
      rewrite execStmts_exec. cbn [length]. by rewrite Hl.
    + rewrite execStmts_exec. cbn [length take]. constructor; [by apply Hk | exact Hu].
  - set (s := mkStmt (length h) (stmtText fInsertSql cols (length b))).
    set (p := mkEvent (Prepare (stmtText fInsertSql cols (length b))) None).
    assert (compiled fInsertSql cols (setHandle sts (length b) (Some s)) (h ++ [p])) as Hc1.
    { intros k s' Hk Hs'. destruct (decide (k = length b)) as [->|Hne].
      - rewrite handleFor_setHandle in Hs'. simplify_eq. split; [done|].
        cbn [stmt_id stmt_sql]. by apply list_lookup_middle.
      - rewrite handleFor_setHandle_ne in Hs' by done.
        by apply (compiled_extend cols sts h [p] Hc). }
    match goal with |- context [steps cols bs ?sts1 (?h1 ++ [?ex])] =>
      destruct (IH sts1 (h1 ++ [ex]))
        as (evs & r & sts' & -> & Hk & Hc' & Hr & Hu); [by apply compiled_extend|]
    end.
    eexists (p :: _ :: evs), r, sts'. rewrite <- !app_assoc. cbn [app].
    split_and!; try done.
    + intros k s' Hs'. apply Hk. by apply keeps_setHandle.
    + by rewrite <- !app_assoc in Hc'.
    + intros s' ->. destruct (Hr s' eq_refl) as [-> Hl]. split; [done|].
      unfold p. rewrite execStmts_prepare, execStmts_exec. cbn [length]. by rewrite Hl.
    + unfold p. rewrite execStmts_prepare, execStmts_exec. cbn [length take].
      constructor; [|exact Hu].
      apply Hk. apply handleFor_setHandle.
  - eexists [_], _, sts.
    split_and!; [done | by intros k s | by apply compiled_extend | done | constructor].
Qed.

Lemma Forall2_with_right {A B} (P : A → B → Prop) (Q : B → Prop) (xs : list A) (ys : list B) :
  Forall2 P xs ys → Forall Q ys → Forall2 (λ x y, P x y ∧ Q y) xs ys.
Proof.
  induction 1 as [|x y xs ys Hxy _ IH]; intros HQ; [constructor|].
  inversion HQ; subst. constructor; [done | by apply IH].
Qed.

(** C4. In one call, the statement texts compiled form a subsequence of
    the texts for 100, 10 and 1 tuples, in this order: each size is compiled
    at most once, so at most three compilations, whatever the driver
    answers.  There are three statement variables such that the execution
    of every batch goes through the variable of its size, which holds the
    statement whose value-tuple clause is repeated as many times as the
    batch has rows, returned by a compilation recorded in the history. *)
Theorem BulkInsert_compiles_once (rows : list T) :
  let tr := (BulkInsert drv fInsertSql ncols values rows []).1 in
  let cols := colsOf ncols in
  prepared tr `sublist_of`
    [stmtText fInsertSql cols 100; stmtText fInsertSql cols 10;
     stmtText fInsertSql cols 1]
  ∧ (length (prepared tr) ≤ 3)%nat
  ∧ ∃ sts : Stmts,
      Forall2 (usedBy fInsertSql cols sts tr) (execStmts tr)
        (take (length (execStmts tr)) (specBatches rows)).
Proof.
  intros tr cols.
  assert (prepared tr `sublist_of`
    [stmtText fInsertSql cols 100; stmtText fInsertSql cols 10;
     stmtText fInsertSql cols 1]
    ∧ ∃ sts : Stmts,
      Forall2 (usedBy fInsertSql cols sts tr) (execStmts tr)
        (take (length (execStmts tr)) (specBatches rows))) as [Hsub Huse].
  { subst tr cols.
    destruct (BulkInsert_shape rows)
      as [msg Hn'|e _ Hb|evs post r1 r _ _ Hsteps Hpost _ _ _ _ _]; cbn [fst].
    - split; [apply sublist_nil_l | exists sts0; constructor].
    - split; [apply sublist_nil_l | exists sts0; constructor].
    - change (mkEvent Begin None :: evs ++ post)
        with ([mkEvent Begin None] ++ evs ++ post).
      rewrite !prepared_app, !execStmts_app.
      rewrite (closing_prepared post Hpost).
      unfold execStmts at 3 6. rewrite (closing_execs post Hpost).
      cbn [prepared execStmts execs omap list_omap ev_call fmap list_fmap app].
      rewrite !app_nil_r. split.
      + pose proof (steps_prepared (length rows) (colsOf ncols) rows sts0 _ _ _
                      (Nat.le_refl _) Hsteps) as Hp.
        etrans; [exact Hp|]. unfold need, pend, sts0. cbn [st1 st10 st100].
        repeat case_bool_decide; cbn [app]; sublist_atoms.
      + destruct (steps_reuse (colsOf ncols) (specBatches rows) sts0 [mkEvent Begin None]
                    (specBatches_nominal rows))
          as (evs' & r' & sts' & Hsteps' & _ & Hc & _ & Hu).
        { intros k s _ Hs. unfold handleFor, sts0 in Hs.
          repeat case_bool_decide; done. }
        rewrite Hsteps in Hsteps'. simplify_eq.
        exists sts'.
        eapply Forall2_impl;
          [apply (Forall2_with_right _ (λ b, length b ∈ [100; 10; 1]%nat) _ _ Hu)|].
        * apply Forall_take, specBatches_nominal.
        * intros x b [Hx Hb]. destruct (Hc _ _ Hb Hx) as [Ht Hl].
          split_and!; [done..|].
          apply (lookup_app_l_Some _ post) in Hl. exact Hl. }
  split_and!; [done| |done].
  apply sublist_length in Hsub. exact Hsub.
Qed.

(** *** Failures *)

Lemma steps_failures (cols : string) (bs : list (list T)) (sts : Stmts)
    (h evs : Trace) (r : Res Stmts) :
  steps cols bs sts h = (h ++ evs, r) → is_Ok r = true →
  Forall (λ ev, succeeded ev ∨ isExec ev) evs.
Proof.
  revert sts h evs. induction bs as [|b bs IH]; intros sts h evs Hrun Hok.
  { cbn in Hrun. unfold ret in Hrun. simplify_eq.
    assert (evs = []) as -> by (by eapply app_inv_head; rewrite app_nil_r).
    constructor. }
  rewrite steps_cons in Hrun.
  destruct (step_cases cols sts b h) as [s _ Hstep| _ _ Hstep|e _ _ Hstep];
    rewrite Hstep in Hrun; clear Hstep; cbv zeta in Hrun.
  - match type of Hrun with steps cols bs ?sts1 ?h1 = _ =>
      destruct (steps_extends cols bs sts1 h1) as (evs' & r' & Hrun' & _) end.
    rewrite Hrun' in Hrun. rewrite <- app_assoc in Hrun. simplify_eq.
    constructor; [by right | by eapply IH].
  - match type of Hrun with steps cols bs ?sts1 ?h1 = _ =>
      destruct (steps_extends cols bs sts1 h1) as (evs' & r' & Hrun' & _) end.
    rewrite Hrun' in Hrun. rewrite <- !app_assoc in Hrun. simplify_eq.
    constructor; [by left|]. constructor; [by right | by eapply IH].
  - by simplify_eq.
Qed.

(** A call that returns has seen no failure except of executions: a failed
    [Begin], [Prepare], [Close] or [Commit] makes [BulkInsert] panic, a
    failed [Exec] does not. *)
Lemma BulkInsert_failures (rows : list T) :
  let res := BulkInsert drv fInsertSql ncols values rows [] in
  res.2 ≠ OutOfFuel
  ∧ (is_Ok res.2 = true → Forall (λ ev, succeeded ev ∨ isExec ev) res.1).
Proof.
  intros res. subst res.
  destruct (BulkInsert_shape rows)
    as [msg Hn'|e _ Hb|evs post r1 r _ _ Hsteps Hpost _ Hfuel Hok _ _]; cbn [fst snd].
  - done.
  - done.
  - split; [done|]. intros Hr. destruct (proj1 Hok Hr) as (Hr1 & Hsucc).
    constructor; [by left|]. apply Forall_app. split.
    + by eapply steps_failures.
    + eapply Forall_impl; [exact Hsucc|]. by left.
Qed.

(** *** One row, and none *)

Lemma BulkInsert_nil :
  0 < ncols → drv [] Begin = None →
  BulkInsert drv fInsertSql ncols values [] [] =
    ([mkEvent Begin None; mkEvent Commit (drv [mkEvent Begin None] Commit)],
     if drv [mkEvent Begin None] Commit is Some e
     then Panic (Sprintf "failed to %s: %v" [OStr "commit"; OStr e]) else Ok tt).
Proof.
  intros Hn Hb. unfold BulkInsert.
  rewrite repeatJoin_placeholders by done.
  unfold bind at 1, lift at 1.
  unfold bind at 1, try at 1, dbBegin, bind at 1 2, call at 1, ret at 1.
  rewrite Hb. cbn [app try0 ret]. unfold bind at 1, ret at 1. unfold bind at 1.
  unfold ret at 1. cbv beta iota.
  rewrite loop_refines by done. change (specBatches []) with (@nil (list T)).
  cbn [batchSteps]. unfold ret at 1. cbv beta iota.
  cbn [st1 st10 st100 closeIfPrepared]. unfold bind, ret, txCommit, call.
  destruct (drv _ Commit); reflexivity.
Qed.

(** C8. With the transaction open: a call on no rows makes exactly two
    calls, [Begin] and [Commit], so it compiles and executes nothing; a
    call on one row compiles exactly the one-tuple text, every execution
    goes through that statement, and when the compilation succeeds there is
    exactly one execution, binding the values of the row. *)
Theorem BulkInsert_one_or_none (x : T) :
  0 < ncols → drv [] Begin = None →
  let text1 := stmtText fInsertSql (colsOf ncols) 1 in
  let tr0 := (BulkInsert drv fInsertSql ncols values [] []).1 in
  let tr1 := (BulkInsert drv fInsertSql ncols values [x] []).1 in
  tr0 = [mkEvent Begin None; mkEvent Commit (drv [mkEvent Begin None] Commit)]
  ∧ prepared tr0 = [] ∧ execs tr0 = []
  ∧ prepared tr1 = [text1]
  ∧ Forall (λ s, s = mkStmt 1 text1) (execStmts tr1)
  ∧ (drv [mkEvent Begin None] (Prepare text1) = None →
     execStmts tr1 = [mkStmt 1 text1] ∧ execArgs tr1 = [values x]).
Proof.
  intros Hn Hb text1 tr0 tr1.
  assert (tr0 = [mkEvent Begin None; mkEvent Commit (drv [mkEvent Begin None] Commit)])
    as H0 by (subst tr0; by rewrite BulkInsert_nil).
  split; [exact H0|]. rewrite H0. split; [done|]. split; [done|].
  subst tr1.
  destruct (BulkInsert_shape [x])
    as [msg Hn'|e _ Hb'|evs post r1 r _ _ Hsteps Hpost _ _ _ _ _]; cbn [fst].
  { lia. }
  { by rewrite Hb in Hb'. }
  change (specBatches [x]) with [[x]] in Hsteps.
  rewrite steps_cons in Hsteps.
  change (mkEvent Begin None :: evs ++ post)
    with ([mkEvent Begin None] ++ evs ++ post).
  rewrite !prepared_app, !execStmts_app, !execArgs_app.
  rewrite (closing_prepared post Hpost).
  unfold execStmts at 3 6, execArgs at 3. rewrite (closing_execs post Hpost).
  destruct (step_cases (colsOf ncols) sts0 [x] [mkEvent Begin None])
    as [s Hs _|_ Hd Hstep|e _ Hd Hstep].
  - done.
  - rewrite Hstep in Hsteps. cbv zeta in Hsteps. cbn [batchSteps] in Hsteps.
    unfold ret in Hsteps. simplify_eq.
    split_and!; [done | by repeat constructor |done].
  - rewrite Hstep in Hsteps. simplify_eq.
    split_and!; [done | by repeat constructor |].
    intros Hd'. change (length [x]) with 1%nat in Hd. subst text1.
    by rewrite Hd' in Hd.
Qed.

(** *** A driver that accepts every call *)

Lemma steps_execs_ok (cols : string) (bs : list (list T)) (sts : Stmts) (h : Trace) :
  (∀ h c, drv h c = None) →
  ∃ evs sts', steps cols bs sts h = (h ++ evs, Ok sts')
    ∧ argsAndError <$> execs evs = (λ b, (batchArgs values b, None)) <$> bs.
Proof.
  intros Hall. revert sts h. induction bs as [|b bs IH]; intros sts h.
  - exists [], sts. by rewrite app_nil_r.
  - rewrite steps_cons.
    destruct (step_cases cols sts b h) as [s _ ->| _ _ ->|e _ He _]; cbv zeta.
    + match goal with |- context [steps cols bs ?s ?h'] =>
        destruct (IH s h') as (evs & sts' & -> & Hargs) end.
      eexists _, sts'. rewrite <- app_assoc. split; [done|].
      rewrite execs_app, fmap_app, Hargs, Hall. reflexivity.
    + match goal with |- context [steps cols bs ?s ?h'] =>
        destruct (IH s h') as (evs & sts' & -> & Hargs) end.
      eexists _, sts'. rewrite <- !app_assoc. split; [done|].
      rewrite !execs_app, !fmap_app, Hargs, Hall. reflexivity.
    + by rewrite Hall in He.
Qed.

Lemma BulkInsert_accepted (rows : list T) :
  0 < ncols →
  (∀ h c, drv h c = None) →
  let res := BulkInsert drv fInsertSql ncols values rows [] in
  res.2 = Ok tt
  ∧ committed res.1 = true
  ∧ argsAndError <$> execs res.1
    = (λ b, (batchArgs values b, None)) <$> specBatches rows.
Proof.
  intros Hn Hall res. subst res.
  destruct (BulkInsert_shape rows)
    as [msg Hn'|e _ Hb|evs post r1 r _ _ Hsteps Hpost _ Hfuel Hok Hcommit Hans];
    cbn [fst snd].
  { lia. }
  { by rewrite Hall in Hb. }
  destruct (steps_execs_ok (colsOf ncols) (specBatches rows) sts0
              [mkEvent Begin None] Hall) as (evs' & sts' & Hsteps' & Hargs).
  rewrite Hsteps in Hsteps'. simplify_eq.
  assert (is_Ok r = true) as Hr.
  { apply Hok. split; [done|]. eapply Forall_impl; [exact Hans|].
    intros ev [h' Hev]. unfold succeeded. by rewrite Hev, Hall. }
  split_and!.
  - by destruct r as [[]| |].
  - unfold committed. apply bool_decide_eq_true.
    apply list_elem_of_further, elem_of_app. right. by apply Hcommit.
  - change (mkEvent Begin None :: evs' ++ post)
      with ([mkEvent Begin None] ++ evs' ++ post).
    rewrite !execs_app, (closing_execs post Hpost), app_nil_r. exact Hargs.
Qed.
End BulkInsertProps.

(** ** Bulk insert against row-by-row insert *)

Lemma batchArgs_concat {T} (values : T → list Any) (b : list T) :
  batchArgs values b = concat (values <$> b).
Proof.
  unfold batchArgs.
  assert (∀ acc, foldl (λ args r, args ++ values r) acc b = acc ++ concat (values <$> b))
    as H; [|apply (H [])].
  induction b as [|x b IH]; intros acc; cbn.
  - by rewrite app_nil_r.
  - by rewrite IH, app_assoc.
Qed.

Lemma tuples_rows (ncols : nat) (rows : list (list Value)) (fuel : nat) :
  (0 < ncols)%nat → Forall (λ r, length r = ncols) rows → (length rows ≤ fuel)%nat →
  tuples fuel ncols (concat rows) = rows.
Proof.
  intros Hn Hrows. revert fuel.
  induction Hrows as [|r rows Hr Hrows IH]; intros fuel Hfuel.
  - by destruct fuel.
  - destruct fuel as [|fuel]; [simpl in Hfuel; lia|].
    cbn [concat tuples]. simpl in Hfuel.
    destruct (r ++ concat rows) as [|v vs] eqn:Hrv.
    { apply app_eq_nil in Hrv as [-> _]. simpl in Hr. exfalso. lia. }
    rewrite <- Hrv. rewrite take_app_length', drop_app_length' by done.
    f_equal. apply IH. lia.
Qed.

Lemma storedRows_boundRows (ncols : nat) (tr : Trace) :
  committed tr = true → Forall (λ x, x.2 = None) (execs tr) →
  storedRows ncols tr = boundRows ncols tr.
Proof.
  intros Hc Hok. unfold storedRows, boundRows, execArgs. rewrite Hc.
  induction Hok as [|[[s a] e] xs Hx _ IH]; [done|].
  cbn in Hx. subst e. cbn. by rewrite IH.
Qed.

Section UsersProps.
Variable drv : Driver.
Context {Time : Type}.
Variable BindTime : Time → Z.
Variable UnbindTime : Z → Time.

(** [FindUsers] returns one user per scanned row, in order, NULL columns read
    as zero values. *)
Lemma FindUsers_decodes (cs : list UserCols) :
  FindUsers UnbindTime (mkRows None ((λ c, mkScan c None) <$> cs)) =
    Ok ((λ c, NewUser (Int32 (c_id c)) (UnbindTime (Int64 (c_created c)))
               (String_ (c_email c)) (Bool (c_active c))) <$> cs).
Proof.
  unfold FindUsers. cbn [rows_err rows_scans MustBeNil res_bind].
  assert (∀ acc, FindUsers_loop UnbindTime ((λ c, mkScan c None) <$> cs) acc =
            Ok (acc ++ ((λ c, NewUser (Int32 (c_id c)) (UnbindTime (Int64 (c_created c)))
               (String_ (c_email c)) (Bool (c_active c))) <$> cs))) as H;
    [|apply (H [])].
  induction cs as [|c cs IH]; intros acc.
  - cbn. by rewrite app_nil_r.
  - cbn [fmap list_fmap FindUsers_loop scan_err scan_cols MustBeNil res_bind].
    rewrite IH. by rewrite <- app_assoc.
Qed.

Lemma boundRows_batches (bs : list (list (User Time))) (xs : list (list Any)) :
  xs = batchArgs (userValues BindTime) <$> bs →
  (args ← xs; tuples (length args) 4 (driverValue <$> args)) = rowOf BindTime <$> concat bs.
Proof.
  intros ->. induction bs as [|b bs IH]; [done|].
  cbn [fmap list_fmap mbind list_bind concat]. rewrite fmap_app.
  f_equal; [|exact IH]. clear IH.
  rewrite batchArgs_concat.
  replace (driverValue <$> concat (userValues BindTime <$> b))
    with (concat (rowOf BindTime <$> b)).
  - apply tuples_rows; [lia| |].
    + apply Forall_fmap, Forall_forall. by intros u _.
    + clear. induction b as [|u b IHb]; [cbn; lia|].
      cbn [fmap list_fmap concat]. rewrite length_app.
      cbn [length userValues] in *. lia.
  - induction b as [|u b IHb]; [done|].
    cbn [fmap list_fmap concat]. rewrite fmap_app. by rewrite <- IHb.
Qed.

Lemma InsertUsers_loop_accepted (s : Stmt) (users : list (User Time)) (h : Trace) :
  (∀ h c, drv h c = None) →
  InsertUsers_loop drv BindTime (Some s) users h =
    (h ++ ((λ u, mkEvent (Exec s
              [AInt (Id u); AInt64 (BindTime (Created u)); AString (Email u);
               ABool (Active u)]) None) <$> users),
     Ok tt).
Proof.
  intros Hall. revert h. induction users as [|u users IH]; intros h.
  - cbn. by rewrite app_nil_r.
  - cbn [InsertUsers_loop fmap list_fmap]. unfold bind, stmtExec, call.
    rewrite Hall. unfold lift. cbn [MustBeNil]. rewrite IH.
    by rewrite <- app_assoc.
Qed.

Lemma InsertUsers_accepted (insertSql : string) (users : list (User Time)) :
  (∀ h c, drv h c = None) →
  let s := mkStmt 1 insertSql in
  InsertUsers drv BindTime insertSql users [] =
    ([mkEvent Begin None; mkEvent (Prepare insertSql) None]
       ++ ((λ u, mkEvent (Exec s
              [AInt (Id u); AInt64 (BindTime (Created u)); AString (Email u);
               ABool (Active u)]) None) <$> users)
       ++ [mkEvent (Close s) None; mkEvent Commit None],
     Ok tt).
Proof.
  intros Hall s. unfold InsertUsers.
  unfold bind at 1, dbBegin, bind at 1, call at 1, ret at 1. rewrite Hall.
  cbn [MustBeNil]. unfold bind at 1, lift at 1.
  unfold bind at 1, txPrepare, bind at 1, call at 1, ret at 1. rewrite Hall.
  cbn [MustBeNil app length]. unfold bind at 1, lift at 1.
  unfold bind at 1. rewrite InsertUsers_loop_accepted by done.
  unfold bind at 1, stmtClose, call at 1. rewrite Hall.
  cbn [MustBeNil]. unfold bind at 1, lift at 1.
  unfold bind, txCommit, call. rewrite Hall. unfold lift. cbn [MustBeNil].
  by rewrite <- !app_assoc.
Qed.

(** C3. On a database that accepts every call, [InsertUsersBulk] and
    [InsertUsers] both return, and both bind, user by user and in input
    order, the tuple (id, bound timestamp, email, active): the rows bound,
    the rows stored and the rows read back in identifier order are the
    same, and so is what [FindUsers] makes of them. *)
Theorem bulk_matches_row_by_row (fInsertSql insertSql : string) (users : list (User Time)) :
  (∀ h c, drv h c = None) →
  let bulk := InsertUsersBulk drv BindTime fInsertSql users [] in
  let single := InsertUsers drv BindTime insertSql users [] in
  bulk.2 = Ok tt ∧ single.2 = Ok tt
  ∧ boundRows 4 bulk.1 = rowOf BindTime <$> users
  ∧ boundRows 4 single.1 = rowOf BindTime <$> users
  ∧ storedRows 4 bulk.1 = storedRows 4 single.1
  ∧ selectOrderById (storedRows 4 bulk.1) = selectOrderById (storedRows 4 single.1)
  ∧ readBackUsers UnbindTime (storedRows 4 bulk.1)
    = readBackUsers UnbindTime (storedRows 4 single.1).
Proof.
  intros Hall bulk single.
  destruct (BulkInsert_accepted drv fInsertSql 4 (userValues BindTime) users
              ltac:(lia) Hall) as (Hb2 & Hbc & Hbx).
  fold (InsertUsersBulk drv BindTime fInsertSql users) in Hb2, Hbc, Hbx.
  fold bulk in Hb2, Hbc, Hbx.
  pose proof (InsertUsers_accepted insertSql users Hall) as Hs. cbv zeta in Hs.
  fold single in Hs.
  assert (boundRows 4 bulk.1 = rowOf BindTime <$> users) as Hbb.
  { unfold boundRows.
    transitivity (rowOf BindTime <$> concat (specBatches users));
      [|by rewrite specBatches_concat].
    apply boundRows_batches. unfold execArgs.
    apply (f_equal (fmap fst)) in Hbx. rewrite <- !list_fmap_compose in Hbx.
    exact Hbx. }
  assert (Forall (λ x, x.2 = None) (execs bulk.1)) as Hbok.
  { apply (f_equal (fmap snd)) in Hbx. rewrite <- !list_fmap_compose in Hbx.
    apply Forall_forall. intros x Hx.
    apply (list_elem_of_fmap_2 (snd ∘ argsAndError)) in Hx. rewrite Hbx in Hx.
    apply list_elem_of_fmap in Hx as (b & Hb & _). exact Hb. }
  assert (execs single.1 = (λ u, (mkStmt 1 insertSql,
              [AInt (Id u); AInt64 (BindTime (Created u)); AString (Email u);
               ABool (Active u)], None)) <$> users) as Hsx.
  { rewrite Hs. cbn [fst]. rewrite !execs_app. cbn [execs omap list_omap ev_call app].
    rewrite app_nil_r. clear. induction users as [|u users IH]; [done|].
    cbn. by rewrite <- IH. }
  assert (boundRows 4 single.1 = rowOf BindTime <$> users) as Hsb.
  { unfold boundRows, execArgs. rewrite Hsx. clear.
    induction users as [|u users IH]; [done|]. cbn. by rewrite <- IH. }
  assert (storedRows 4 bulk.1 = storedRows 4 single.1) as Hst.
  { rewrite !storedRows_boundRows; [congruence| | |done..].
    - rewrite Hs. cbn [fst]. unfold committed. apply bool_decide_eq_true.
      rewrite !elem_of_app, !elem_of_cons. tauto.
    - rewrite Hsx. apply Forall_fmap, Forall_forall. by intros u _. }
  split_and!; [done | by rewrite Hs | done | done | done | by rewrite Hst
              | by rewrite Hst].
Qed.
End UsersProps.

(** ** A batch the database rejects *)

(** C2. On one user and a database that rejects the execution,
    [InsertUsersBulk] records the error of [Exec], goes on to close the
    statement and to commit, and returns; [InsertUsers] on the same input
    panics at the execution. *)
Theorem BulkInsert_ignores_exec_failure :
  let bulk :=
    InsertUsersBulk rejectsExec (TimeSpec.BindTime millis) bulkSql (genUsers 1) [] in
  let single :=
    InsertUsers rejectsExec (TimeSpec.BindTime millis) insertUserSql (genUsers 1) [] in
  bulk.2 = Ok tt
  ∧ ev_err <$> bulk.1 =
      [None; None; Some "UNIQUE constraint failed: users.id"; None; None]
  ∧ mkEvent Commit None ∈ bulk.1
  ∧ single.2 = Panic "UNIQUE constraint failed: users.id"
  ∧ mkEvent Commit None ∉ single.1.
Proof.
  cbv zeta. split_and!; [by vm_compute..| |by vm_compute|].
  - apply (bool_decide_unpack _). by vm_compute.
  - apply (bool_decide_unpack _). by vm_compute.
Qed.

(** ** Partition into shards and chunks *)

Lemma goSlice_ok {A} (u : list A) (lo hi : nat) :
  (lo ≤ hi ≤ length u)%nat →
  goSlice u (Z.of_nat lo) (Z.of_nat hi) = Ok (take (hi - lo) (drop lo u)).
Proof.
  intros H. unfold goSlice. rewrite bool_decide_true by lia.
  by rewrite <- Nat2Z.inj_sub, !Nat2Z.id by lia.
Qed.

Lemma chunkUsers_loop_pieces {A} (u : list A) (c : nat) (cu : list (list A)) (i m : nat) :
  ((i + m) * c ≤ length u)%nat →
  chunkUsers_loop u (Z.of_nat c) cu (seqZ (Z.of_nat i) (Z.of_nat m))
  = Ok (cu ++ pieces c i m u).
Proof.
  revert cu i. induction m as [|m IH]; intros cu i Hle.
  - cbn. by rewrite app_nil_r.
  - rewrite seqZ_cons by lia. cbn [chunkUsers_loop].
    replace (Z.of_nat i * Z.of_nat c) with (Z.of_nat (i * c)) by lia.
    replace ((Z.of_nat i + 1) * Z.of_nat c) with (Z.of_nat (i * c + c)) by lia.
    rewrite goSlice_ok by nia. cbn [res_bind].
    replace (Z.succ (Z.of_nat i)) with (Z.of_nat (S i)) by lia.
    replace (Z.pred (Z.of_nat (S m))) with (Z.of_nat m) by lia.
    rewrite IH by lia. unfold pieces. cbn [seq fmap list_fmap].
    rewrite <- app_assoc. cbn [app].
    by replace (i * c + c - i * c)%nat with c by lia.
Qed.

Lemma concat_pieces {A} (c i m : nat) (u : list A) :
  concat (pieces c i m u) = take (m * c) (drop (i * c) u).
Proof.
  revert i. unfold pieces. induction m as [|m IH]; intros i; [done|].
  cbn [seq fmap list_fmap concat]. rewrite IH.
  replace (S i * c)%nat with (i * c + c)%nat by lia.
  rewrite <- drop_drop. rewrite take_take_drop. f_equal; lia.
Qed.

Lemma length_pieces {A} (c i m : nat) (u : list A) : length (pieces c i m u) = m.
Proof. unfold pieces. by rewrite length_fmap, length_seq. Qed.

Lemma lookup_pieces {A} (c m : nat) (u : list A) (j : nat) (p : list A) :
  pieces c 0 m u !! j = Some p → (m * c ≤ length u)%nat → length p = c.
Proof.
  unfold pieces. rewrite list_lookup_fmap. intros Hj Hle.
  destruct (seq 0 m !! j) as [k|] eqn:Hk; [|done].
  apply lookup_seq in Hk as [-> Hlt]. cbn in Hj. simplify_eq.
  rewrite length_take, length_drop. nia.
Qed.

(** [chunkUsers] in closed form: the full pieces but one, then the rest. *)
Lemma chunkUsers_closed {A} (u : list A) (k : Z) :
  1 ≤ k →
  let K := Z.to_nat k in
  let c := (length u / K)%nat in
  chunkUsers u k = Ok (pieces c 0 (K - 1) u ++ [drop ((K - 1) * c) u]).
Proof.
  intros Hk K c. unfold chunkUsers.
  rewrite bool_decide_false by lia.
  rewrite (bool_decide_false (k < 0)) by lia.
  assert (k = Z.of_nat K) as HK by lia.
  assert (1 ≤ K)%nat as HK1 by lia.
  assert (Z.of_nat (length u) ÷ k = Z.of_nat c) as ->.
  { rewrite Z.quot_div_nonneg by lia. subst c. rewrite HK.
    by rewrite Nat2Z.inj_div. }
  assert (K * c ≤ length u)%nat as Hle.
  { subst c. apply Nat.Div0.mul_div_le. }
  rewrite HK at 1. change 0 with (Z.of_nat 0).
  rewrite chunkUsers_loop_pieces by (cbn; lia). cbn [res_bind app].
  assert (pieces c 0 K u = pieces c 0 (K - 1) u ++ [take c (drop ((K - 1) * c) u)]) as HP.
  { unfold pieces. replace K with (K - 1 + 1)%nat at 1 by lia.
    rewrite seq_app, fmap_app. reflexivity. }
  case_bool_decide as Hrem.
  - replace ((k - 1) * Z.of_nat c) with (Z.of_nat ((K - 1) * c)) by lia.
    rewrite goSlice_ok by nia. cbn [res_bind].
    unfold goSetIndex. rewrite length_pieces, bool_decide_true by lia.
    f_equal. rewrite HP.
    replace (Z.to_nat (k - 1)) with (length (pieces c 0 (K - 1) u) + 0)%nat
      by (rewrite length_pieces; lia).
    rewrite insert_app_r. cbn. f_equal. f_equal.
    apply take_ge. rewrite length_drop. lia.
  - f_equal. rewrite HP. f_equal. f_equal.
    apply take_ge. rewrite length_drop. nia.
Qed.

(** C5. For every slice of [n] rows and every count [k ≥ 1], [chunkUsers]
    returns exactly [k] sub-slices which, laid end to end in order, are the
    input: their lengths sum to [n]; every sub-slice but the last has
    [n / k] rows, and the last has the [n mod k] rows of remainder on top. *)
Theorem chunkUsers_partition {A} (u : list A) (k : Z) :
  1 ≤ k →
  let K := Z.to_nat k in
  let n := length u in
  ∃ cu : list (list A),
    chunkUsers u k = Ok cu
    ∧ length cu = K
    ∧ concat cu = u
    ∧ sum_list (length <$> cu) = n
    ∧ (∀ i c, (i < K - 1)%nat → cu !! i = Some c → length c = (n / K)%nat)
    ∧ (∃ rest, cu !! (K - 1)%nat = Some rest
               ∧ length rest = (n / K + n mod K)%nat).
Proof.
  intros Hk K n. eexists. split; [by apply chunkUsers_closed|].
  fold K. fold n. set (c := (n / K)%nat).
  assert (1 ≤ K)%nat as HK1 by lia.
  assert (K * c ≤ n)%nat as Hle.
  { subst c. apply Nat.Div0.mul_div_le. }
  assert (concat (pieces c 0 (K - 1) u ++ [drop ((K - 1) * c) u]) = u) as Hcat.
  { rewrite concat_app, concat_pieces. cbn [concat drop].
    rewrite app_nil_r. apply take_drop. }
  split_and!.
  - rewrite length_app, length_pieces. cbn. lia.
  - exact Hcat.
  - etrans; [symmetry; apply length_concat|]. by rewrite Hcat.
  - intros i p Hi Hp. rewrite lookup_app_l in Hp by (rewrite length_pieces; lia).
    eapply lookup_pieces; [exact Hp|]. fold n. nia.
  - exists (drop ((K - 1) * c) u). split.
    + rewrite lookup_app_r by (rewrite length_pieces; lia).
      by rewrite length_pieces, Nat.sub_diag.
    + rewrite length_drop. fold n. subst c.
      pose proof (Nat.div_mod_eq n K). nia.
Qed.

(** ** Join flattening *)

Lemma tracks_empty {A} (key : A → Z) : tracks key ([], ∅).
Proof.
  intros k. cbn. rewrite lookup_empty. split; [by intros [? ?]|].
  by intros ?%elem_of_nil.
Qed.

Lemma tracks_appendIfNew {A} (key : A → Z) (x : A) (st : list A * gmap Z Z) :
  tracks key st → tracks key (appendIfNew key x st).
Proof.
  intros Ht. unfold appendIfNew.
  destruct (st.2 !! key x) as [i|] eqn:Hx; [done|].
  intros k. cbn. rewrite fmap_app, elem_of_app. cbn.
  rewrite list_elem_of_singleton. rewrite <- (Ht k).
  destruct (decide (k = key x)) as [->|Hne].
  - rewrite lookup_insert_eq. split; [by right | intros _; by eexists].
  - rewrite lookup_insert_ne by done. split; [by left | by intros [?|?]].
Qed.

Lemma collect_firstsBy {A} (key : A → Z) (xs : list A) (st : list A * gmap Z Z) :
  tracks key st →
  (collect key xs st).1 = st.1 ++ filter (λ y, key y ∉ key <$> st.1) (firstsBy key xs).
Proof.
  revert st. induction xs as [|x xs IH]; intros st Ht.
  - cbn. by rewrite app_nil_r.
  - cbn [collect foldl firstsBy]. fold (collect key xs (appendIfNew key x st)).
    rewrite IH by (by apply tracks_appendIfNew).
    unfold appendIfNew. destruct (st.2 !! key x) as [i|] eqn:Hx.
    + assert (key x ∈ key <$> st.1) as Hin by (apply Ht; by rewrite Hx).
      rewrite filter_cons_False by (by intros Hn; apply Hn).
      f_equal. rewrite list_filter_filter. apply list_filter_iff.
      intros y. split; [|tauto]. intros Hy. split; [done|]. congruence.
    + assert (key x ∉ key <$> st.1) as Hnin.
      { intros Hin. apply Ht in Hin. rewrite Hx in Hin. by destruct Hin. }
      rewrite filter_cons_True by done. cbn [fst].
      rewrite <- app_assoc. cbn [app]. f_equal. f_equal.
      rewrite list_filter_filter. apply list_filter_iff.
      intros y. rewrite fmap_app, elem_of_app. cbn.
      rewrite list_elem_of_singleton. tauto.
Qed.

Lemma collect_from_empty {A} (key : A → Z) (xs : list A) :
  (collect key xs ([], ∅)).1 = firstsBy key xs.
Proof.
  rewrite collect_firstsBy by apply tracks_empty. cbn.
  induction (firstsBy key xs) as [|y l IH]; [done|].
  rewrite filter_cons_True by (by intros ?%elem_of_nil). by f_equal.
Qed.

Lemma firstsBy_elem {A} (key : A → Z) (xs : list A) (k : Z) :
  k ∈ key <$> firstsBy key xs ↔ k ∈ key <$> xs.
Proof.
  induction xs as [|x xs IH]; [done|].
  cbn [firstsBy fmap list_fmap]. rewrite !elem_of_cons, <- IH.
  rewrite !list_elem_of_fmap. setoid_rewrite list_elem_of_filter.
  split.
  - intros [->|(y & -> & _ & Hy)]; [by left|]. right. by exists y.
  - intros [->|(y & -> & Hy)]; [by left|].
    destruct (decide (key y = key x)) as [->|Hne]; [by left|].
    right. by exists y.
Qed.

Lemma firstsBy_NoDup {A} (key : A → Z) (xs : list A) :
  NoDup (key <$> firstsBy key xs).
Proof.
  induction xs as [|x xs IH]; [constructor|].
  cbn [firstsBy fmap list_fmap]. constructor.
  - rewrite list_elem_of_fmap. intros (y & Hk & Hy).
    apply list_elem_of_filter in Hy as [Hne _]. congruence.
  - revert IH. generalize (firstsBy key xs). intros l Hl.
    induction l as [|y l IHl]; [constructor|].
    cbn [fmap list_fmap] in Hl. apply NoDup_cons in Hl as [Hy Hl].
    destruct (decide (key y ≠ key x)) as [Hne|Heq].
    + rewrite filter_cons_True by done. cbn [fmap list_fmap]. constructor.
      * rewrite list_elem_of_fmap. intros (z & Hk & Hz).
        apply list_elem_of_filter in Hz as [_ Hz].
        apply Hy. rewrite list_elem_of_fmap. by exists z.
      * by apply IHl.
    + rewrite filter_cons_False by done. by apply IHl.
Qed.


Section FlattenProps.
Context {Time : Type}.
Variable UnbindTime : Z → Time.

Local Abbreviation scanned := (λ c : JoinCols, mkScan c None).

Lemma flatten_loop_collect (rs : list JoinCols) (st : Flat Time) :
  flatten_loop UnbindTime (scanned <$> rs) st =
    Ok (mkFlat (collect Id (decodeUser UnbindTime <$> rs) (f_users st))
               (collect a_Id (decodeArticle UnbindTime <$> rs) (f_articles st))
               (collect k_Id (decodeComment UnbindTime <$> rs) (f_comments st))).
Proof.
  revert st. induction rs as [|r rs IH]; intros st; [by destruct st|].
  cbn [fmap list_fmap flatten_loop scan_err scan_cols MustBeNil res_bind].
  by rewrite IH.
Qed.

Lemma FindUsersArticlesComments_firsts (rs : list JoinCols) :
  FindUsersArticlesComments UnbindTime (mkRows None (scanned <$> rs)) =
    Ok (firstsBy Id (decodeUser UnbindTime <$> rs),
        firstsBy a_Id (decodeArticle UnbindTime <$> rs),
        firstsBy k_Id (decodeComment UnbindTime <$> rs)).
Proof.
  unfold FindUsersArticlesComments.
  cbn [rows_err rows_scans MustBeNil res_bind].
  rewrite flatten_loop_collect. cbn [res_bind f_users f_articles f_comments].
  by rewrite !collect_from_empty.
Qed.

(** C6. On any stream of scanned user/article/comment triples the
    flattening returns three collections; the identifiers of each are those
    of the stream, each once, in the order of first appearance. *)
Theorem flatten_first_occurrence_order (rs : list JoinCols) :
  ∃ users articles comments,
    FindUsersArticlesComments UnbindTime (mkRows None (scanned <$> rs))
      = Ok (users, articles, comments)
    ∧ Id <$> users = firstsBy id ((λ r, Int32 (userId r)) <$> rs)
    ∧ a_Id <$> articles = firstsBy id ((λ r, Int32 (articleId r)) <$> rs)
    ∧ k_Id <$> comments = firstsBy id ((λ r, Int32 (commentId r)) <$> rs)
    ∧ NoDup (Id <$> users) ∧ NoDup (a_Id <$> articles) ∧ NoDup (k_Id <$> comments)
    ∧ (∀ k, k ∈ Id <$> users ↔ k ∈ (λ r, Int32 (userId r)) <$> rs)
    ∧ (∀ k, k ∈ a_Id <$> articles ↔ k ∈ (λ r, Int32 (articleId r)) <$> rs)
    ∧ (∀ k, k ∈ k_Id <$> comments ↔ k ∈ (λ r, Int32 (commentId r)) <$> rs).
Proof.
  eexists _, _, _. split; [apply FindUsersArticlesComments_firsts|].
  assert (∀ {A B} (key : B → Z) (f : A → B) (l : list A),
            key <$> firstsBy key (f <$> l) = firstsBy id ((key ∘ f) <$> l)) as Hkeys.
  { intros A B key f l. induction l as [|x l IH]; [done|].
    cbn [fmap list_fmap firstsBy]. f_equal. rewrite <- IH. clear IH.
    induction (firstsBy key (f <$> l)) as [|y l' IH']; [done|].
    unfold id at 1. cbn [fmap list_fmap].
    destruct (decide (key y ≠ key (f x))) as [Hne|Heq].
    - rewrite !filter_cons_True by done. cbn [fmap list_fmap]. by f_equal.
    - by rewrite !filter_cons_False by done. }
  split_and!.
  - apply (Hkeys _ _ Id (decodeUser UnbindTime)).
  - apply (Hkeys _ _ a_Id (decodeArticle UnbindTime)).
  - apply (Hkeys _ _ k_Id (decodeComment UnbindTime)).
  - apply firstsBy_NoDup.
  - apply firstsBy_NoDup.
  - apply firstsBy_NoDup.
  - intros k. rewrite firstsBy_elem. by rewrite <- list_fmap_compose.
  - intros k. rewrite firstsBy_elem. by rewrite <- list_fmap_compose.
  - intros k. rewrite firstsBy_elem. by rewrite <- list_fmap_compose.
Qed.

End FlattenProps.

(** ** The worker of the WAL benchmark *)

Section WorkerProps.
Context {Time : Type}.
Variable Year : Time → Z.
Variable db : Db Time.

Lemma follows_ret {A} (a : A) : follows (ret a : Eff (DbEvent Time) A) [].
Proof. intros h. exists [], (Ok a). by rewrite app_nil_r. Qed.

Lemma follows_panic {A} (msg : string) (e : list (DbCall Time)) :
  follows (lift (Panic msg) : Eff (DbEvent Time) A) e.
Proof.
  intros h. exists [], (Panic msg). rewrite app_nil_r.
  split_and!; [done | apply prefix_nil | done | done].
Qed.

Lemma follows_bind {A B} (m : Eff (DbEvent Time) A) (k : A → Eff (DbEvent Time) B)
    (e1 e2 : list (DbCall Time)) :
  follows m e1 → (∀ a, follows (k a) e2) → follows (bind m k) (e1 ++ e2).
Proof.
  intros Hm Hk h. destruct (Hm h) as (evs1 & r1 & Hrun & Hpre & Hok & Hfuel).
  unfold bind. rewrite Hrun. destruct r1 as [a| |]; [| |done].
  - destruct (Hk a (h ++ evs1)) as (evs2 & r2 & Hrun2 & Hpre2 & Hok2 & Hfuel2).
    rewrite Hrun2. exists (evs1 ++ evs2), r2. rewrite app_assoc, fmap_app.
    rewrite (Hok eq_refl). split_and!; [done | by apply prefix_app | | done].
    intros Hr. by rewrite (Hok2 Hr).
  - exists evs1, (Panic msg).
    split_and!; [done | by apply prefix_app_r | done | done].
Qed.

Lemma follows_dbCall (c : DbCall Time) : follows (dbCall db c) [c].
Proof.
  intros h. unfold dbCall. eexists [_], _.
  split_and!; [reflexivity | done | done | by destruct (db h c)].
Qed.

Lemma follows_forEach {A} (xs : list A) (body : A → Eff (DbEvent Time) unit)
    (exp : A → list (DbCall Time)) :
  Forall (λ x, follows (body x) (exp x)) xs →
  follows (forEach xs body) (x ← xs; exp x).
Proof.
  induction 1 as [|x xs Hx _ IH]; [apply follows_ret|].
  cbn [forEach mbind list_bind]. by apply follows_bind.
Qed.

Lemma checkRows_fuel (first i : Z) (users : list (User Time)) :
  checkRows Year first i users ≠ OutOfFuel.
Proof.
  revert i. induction users as [|u users IH]; intros i; [done|].
  cbn [checkRows]. unfold MustBeEqual, goSubstr.
  repeat (case_decide || case_bool_decide); cbn [res_bind]; try done.
  all: repeat (case_decide; cbn [res_bind]; try done).
  all: apply IH.
Qed.

Lemma checkFound_fuel (chunk : list (User Time)) (first : Z) (users : list (User Time)) :
  checkFound Year chunk first users ≠ OutOfFuel.
Proof.
  unfold checkFound, MustBeEqual. case_decide; cbn [res_bind]; [|done].
  apply checkRows_fuel.
Qed.

Lemma follows_checkChunk (chunks : list (list (User Time))) (j : nat) :
  follows (checkChunk Year db chunks (Z.of_nat j)) (callsOf chunks (SCheck j)).
Proof.
  unfold checkChunk, goIndex. rewrite bool_decide_true by lia.
  rewrite Nat2Z.id. cbn [callsOf].
  destruct (chunks !! j) as [chunk|]; [|apply follows_panic].
  intros h. unfold bind at 1, lift at 1. revert h.
  unfold findFor. change (Z.to_nat 0) with 0%nat. rewrite bool_decide_true by lia.
  destruct (chunk !! 0%nat) as [c0|] eqn:H0; [|apply follows_panic].
  intros h. unfold bind at 1, lift at 1. revert h.
  assert (0 < length chunk)%nat as Hlen by (by eapply lookup_lt_Some).
  rewrite bool_decide_true by lia.
  replace (Z.to_nat (Z.of_nat (length chunk) - 1)) with (length chunk - 1)%nat by lia.
  destruct (chunk !! (length chunk - 1)%nat) as [cl|]; [|apply follows_panic].
  intros h. unfold bind at 1, lift at 1. revert h.
  rewrite <- (app_nil_r [DbFindUsers _]).
  apply follows_bind; [apply follows_dbCall|].
  intros users h. exists [], (checkFound Year chunk (Id c0) users).
  rewrite app_nil_r. split_and!; [done | done | done | apply checkFound_fuel].
Qed.

Lemma follows_round (chunks : list (list (User Time))) (n : nat) (chunk : list (User Time)) :
  chunks !! n = Some chunk →
  follows (workerRound Year db chunks (Z.of_nat n, chunk)) (roundCalls chunks n).
Proof.
  intros Hn. unfold workerRound, roundCalls. cbn [fst snd callsOf]. rewrite Hn.
  apply follows_bind; [apply follows_dbCall|]. intros _.
  change (seqZ 0 3) with [0; 1; 2]. cbn [forEach].
  assert (∀ j : nat,
    follows (if bool_decide (Z.of_nat n - Z.of_nat j >= 0)
             then checkChunk Year db chunks (Z.of_nat n - Z.of_nat j) else ret tt)
            (if (j <=? n)%nat then callsOf chunks (SCheck (n - j)) else [])) as Hj.
  { intros j. destruct (j <=? n)%nat eqn:Hle.
    - apply Nat.leb_le in Hle. rewrite bool_decide_true by lia.
      replace (Z.of_nat n - Z.of_nat j) with (Z.of_nat (n - j)) by lia.
      apply follows_checkChunk.
    - apply Nat.leb_gt in Hle. rewrite bool_decide_false by lia.
      apply follows_ret. }
  pose proof (Hj 0%nat) as H0. pose proof (Hj 1%nat) as H1.
  pose proof (Hj 2%nat) as H2. clear Hj.
  change (Z.of_nat 0) with 0 in H0. change (Z.of_nat 1) with 1 in H1.
  change (Z.of_nat 2) with 2 in H2.
  replace (j ← window n; callsOf chunks (SCheck j))
    with ((if (0 <=? n)%nat then callsOf chunks (SCheck (n - 0)) else [])
          ++ (if (1 <=? n)%nat then callsOf chunks (SCheck (n - 1)) else [])
          ++ (if (2 <=? n)%nat then callsOf chunks (SCheck (n - 2)) else []) ++ []).
  - apply follows_bind; [exact H0|]. intros _.
    apply follows_bind; [exact H1|]. intros _.
    apply follows_bind; [exact H2|]. intros _.
    apply follows_ret.
  - unfold window. cbn [omap list_omap].
    destruct (0 <=? n)%nat, (1 <=? n)%nat, (2 <=? n)%nat; cbn; by rewrite ?app_nil_r.
Qed.

(** *** What a check accepts *)

Lemma goSubstr_user (s : string) :
  goSubstr s 0 4 = Ok "user" ↔ ∃ rest, s = "user" +:+ rest.
Proof.
  unfold goSubstr, len.
  change (Z.to_nat 0) with 0%nat. change (Z.to_nat (4 - 0)) with 4%nat. split.
  - case_bool_decide as Hb; [|done]. intros [= Hs].
    destruct s as [|a [|b [|c [|d rest]]]]; cbn in Hb; try lia.
    cbn in Hs. exists rest. destruct rest; by simplify_eq.
  - intros [rest ->].
    change ("user" +:+ rest)
      with (String "u" (String "s" (String "e" (String "r" rest)))).
    rewrite bool_decide_true by (cbn [String.length]; lia).
    by destruct rest.
Qed.

Lemma checkRows_accepts (first : Z) (i : nat) (users : list (User Time)) :
  checkRows Year first (Z.of_nat i) users = Ok tt
  ↔ ∀ p u, users !! p = Some u → rowAccepted Year first (i + p) u.
Proof.
  revert i. induction users as [|u users IH]; intros i.
  { split; [|done]. by intros _ p u' ?. }
  cbn [checkRows]. split.
  - unfold MustBeEqual at 1 2 4.
    destruct (decide (Z.of_nat i + first = Id u)) as [Hid|]; [|done].
    destruct (decide (2023 = Year (Created u))) as [Hy|]; [|done].
    cbn [res_bind].
    destruct (goSubstr (Email u) 0 4) as [pre| |] eqn:Hpre; [|done..].
    cbn [res_bind]. unfold MustBeEqual at 1.
    destruct (decide ("user" = pre)) as [<-|]; [|done].
    destruct (decide (true = Active u)) as [Ha|]; [|done].
    cbn [res_bind].
    replace (Z.of_nat i + 1) with (Z.of_nat (S i)) by lia.
    intros Hrest p u' Hp. destruct p as [|p].
    + cbn in Hp. simplify_eq. unfold rowAccepted.
      rewrite Nat.add_0_r. split_and!; [lia | done | by apply goSubstr_user | done].
    + cbn in Hp. replace (i + S p)%nat with (S i + p)%nat by lia.
      by apply (proj1 (IH (S i)) Hrest).
  - intros Hall. destruct (Hall 0%nat u eq_refl) as (Hid & Hy & He & Ha).
    rewrite Nat.add_0_r in Hid.
    unfold MustBeEqual at 1 2 4.
    rewrite decide_True by lia. rewrite decide_True by done. cbn [res_bind].
    apply goSubstr_user in He. rewrite He. cbn [res_bind].
    unfold MustBeEqual. rewrite decide_True by done.
    rewrite decide_True by done. cbn [res_bind].
    replace (Z.of_nat i + 1) with (Z.of_nat (S i)) by lia.
    apply IH. intros p u' Hp.
    replace (S i + p)%nat with (i + S p)%nat by lia. by apply Hall.
Qed.

Lemma checkFound_accepts (chunk : list (User Time)) (first : Z) (found : list (User Time)) :
  checkFound Year chunk first found = Ok tt
  ↔ length found = length chunk
    ∧ ∀ p u, found !! p = Some u → rowAccepted Year first p u.
Proof.
  unfold checkFound, MustBeEqual.
  destruct (decide (Z.of_nat (length chunk) = Z.of_nat (length found))) as [Hl|Hl];
    cbn [res_bind].
  - rewrite (checkRows_accepts first 0 found). cbn [Nat.add]. split; [|tauto].
    intros H. split; [lia | done].
  - split; [done|]. intros [Hlen _]. lia.
Qed.

Lemma window_clipped (i : nat) :
  window i =
    if bool_decide (i = 0)%nat then [0]%nat
    else if bool_decide (i = 1)%nat then [1; 0]%nat
    else [i; i - 1; i - 2]%nat.
Proof.
  destruct i as [|[|i]]; [done..|].
  rewrite !bool_decide_false by lia. unfold window. cbn [omap list_omap].
  change (0 <=? S (S i))%nat with true. change (1 <=? S (S i))%nat with true.
  change (2 <=? S (S i))%nat with true. cbn [option_bind mbind]. reflexivity.
Qed.

(** *** The duties of the worker

    Every call of the worker comes with a check on what the call returns;
    the worker goes on to its next call only when the check passed. *)

Lemma discharges_ret {A} (a : A) : discharges (ret a : Eff (DbEvent Time) A) [] True.
Proof.
  intros h. exists [], (Ok a). rewrite app_nil_r.
  split_and!; [done | done | constructor | by intros k e d ? | ].
  split; [by split; [|constructor] | done].
Qed.

Lemma discharges_panic {A} (msg : string) (ds : list (Duty (Time:=Time))) :
  discharges (lift (Panic msg) : Eff (DbEvent Time) A) ds False.
Proof.
  intros h. exists [], (Panic msg). rewrite app_nil_r.
  split_and!; [done | done | constructor | by intros k e d ? | ].
  split; [done | by intros []].
Qed.

Lemma discharges_able {A} (m : Eff (DbEvent Time) A) (ds : list (Duty (Time:=Time)))
    (able able' : Prop) :
  (able ↔ able') → discharges m ds able → discharges m ds able'.
Proof.
  intros Hiff Hm h. destruct (Hm h) as (evs & r & Hrun & Hfuel & Hcalls & Hmet & Hok).
  exists evs, r. split_and!; [done..|]. by rewrite Hok, Hiff.
Qed.

Lemma discharges_bind {A B} (m : Eff (DbEvent Time) A) (k : A → Eff (DbEvent Time) B)
    (ds1 ds2 : list (Duty (Time:=Time))) (able1 able2 : Prop) :
  discharges m ds1 able1 → (∀ a, discharges (k a) ds2 able2) →
  discharges (bind m k) (ds1 ++ ds2) (able1 ∧ able2).
Proof.
  intros Hm Hk h. destruct (Hm h) as (evs1 & r1 & Hrun & Hfuel & Hcalls & Hmet & Hok).
  unfold bind. rewrite Hrun. destruct r1 as [a|msg|]; [| |done].
  - destruct (proj1 Hok eq_refl) as [Ha1 Hall1].
    pose proof (Forall2_length _ _ _ Hall1) as Hlen.
    destruct (Hk a (h ++ evs1)) as (evs2 & r2 & Hrun2 & Hfuel2 & Hcalls2 & Hmet2 & Hok2).
    rewrite Hrun2. exists (evs1 ++ evs2), r2. rewrite app_assoc.
    split_and!; [done | done | | | ].
    + rewrite length_app, (take_app_add' ds1 ds2 (length evs1) (length evs2)) by done.
      apply Forall2_app; [|done].
      eapply Forall2_impl; [exact Hall1|]. by intros e d [? _].
    + intros i e d He Hd Hlt. rewrite length_app in Hlt.
      destruct (decide (i < length evs1)%nat) as [Hi|Hi].
      * rewrite lookup_app_l in He by done. rewrite lookup_app_l in Hd by lia.
        exact (Forall2_lookup_lr _ _ _ _ _ _ Hall1 He Hd).
      * rewrite lookup_app_r in He by lia. rewrite lookup_app_r in Hd by lia.
        rewrite <- Hlen in Hd. eapply Hmet2; [done..|lia].
    + rewrite Hok2. split.
      * intros [Ha2 Hall2]. split; [done|]. by apply Forall2_app.
      * intros [[_ Ha2] Hall]. split; [done|].
        by apply Forall2_app_inv in Hall as [_ ?].
  - pose proof (Forall2_length _ _ _ Hcalls) as Hlen. rewrite length_take in Hlen.
    assert (length evs1 ≤ length ds1)%nat as Hle
      by (rewrite Hlen; apply Nat.le_min_r).
    clear Hlen.
    exists evs1, (Panic msg).
    split_and!; [done | done | | | ].
    + by rewrite take_app_le by lia.
    + intros i e d He Hd Hlt. rewrite lookup_app_l in Hd by lia. by eapply Hmet.
    + split; [done|]. intros [[Ha1 _] Hall].
      pose proof (Forall2_length _ _ _ Hall) as Hlen'. rewrite length_app in Hlen'.
      assert (ds2 = []) as -> by (apply nil_length_inv; lia).
      rewrite app_nil_r in Hall. by apply Hok.
Qed.

Lemma discharges_dbCall (c : DbCall Time) :
  discharges (dbCall db c) [(c, λ _, Ok tt)] True.
Proof.
  intros h. unfold dbCall. eexists [_], _. split_and!; [reflexivity| | | | ].
  - by destruct (db h c).
  - cbn. by repeat constructor.
  - intros [|k] e d He Hd Hlt; cbn in Hlt; lia.
  - unfold met. cbn. destruct (db h c) as [users|msg]; cbn.
    + split; [|done]. intros _. split; [done|]. repeat constructor. by exists users.
    + split; [done|]. intros [_ Hall].
      apply Forall2_cons_1 in Hall as [[_ (users & [=] & _)] _].
Qed.

Lemma discharges_call_check (c : DbCall Time) (check : list (User Time) → Res unit) :
  (∀ users, check users ≠ OutOfFuel) →
  discharges (let! users := dbCall db c in lift (check users)) [(c, check)] True.
Proof.
  intros Hcheck h. unfold bind, dbCall, lift, met.
  destruct (db h c) as [users|msg]; eexists [_], _.
  - split_and!; [reflexivity | apply Hcheck | by repeat constructor | | ].
    + intros [|k] e d He Hd Hlt; cbn in Hlt; lia.
    + cbn. split.
      * intros Hok. split; [done|]. repeat constructor. exists users. split; [done|].
        cbn. by destruct (check users) as [[]| |].
      * intros [_ Hall]. apply Forall2_cons_1 in Hall as [[_ (users' & [= <-] & Hc)] _].
        cbn in Hc. by rewrite Hc.
  - split_and!; [reflexivity | done | by repeat constructor | | ].
    + intros [|k] e d He Hd Hlt; cbn in Hlt; lia.
    + cbn. split; [done|]. intros [_ Hall].
      apply Forall2_cons_1 in Hall as [[_ (users & [=] & _)] _].
Qed.

Lemma discharges_forEach {A} (xs : list A) (body : A → Eff (DbEvent Time) unit)
    (ds : A → list (Duty (Time:=Time))) (able : A → Prop) :
  Forall (λ x, discharges (body x) (ds x) (able x)) xs →
  discharges (forEach xs body) (x ← xs; ds x) (Forall able xs).
Proof.
  induction 1 as [|x xs Hx _ IH].
  - eapply discharges_able; [|apply discharges_ret]. by split; [constructor|].
  - cbn [forEach mbind list_bind].
    eapply discharges_able; [|by apply discharges_bind].
    by rewrite Forall_cons.
Qed.

Lemma discharges_checkChunk (chunks : list (list (User Time))) (j : nat) :
  discharges (checkChunk Year db chunks (Z.of_nat j)) (dutiesOf Year chunks (SCheck j))
    (readable chunks j).
Proof.
  unfold checkChunk, goIndex, readable. rewrite bool_decide_true by lia.
  rewrite Nat2Z.id. cbn [dutiesOf].
  destruct (chunks !! j) as [chunk|]; [|apply (discharges_panic _ [])].
  intros h. unfold bind at 1, lift at 1. revert h.
  unfold checkDuty. change (Z.to_nat 0) with 0%nat. rewrite bool_decide_true by lia.
  destruct (chunk !! 0%nat) as [c0|] eqn:H0; cycle 1.
  { eapply discharges_able; [|apply (discharges_panic _ [])].
    destruct chunk; [by split|done]. }
  assert (0 < length chunk)%nat as Hlen by (by eapply lookup_lt_Some).
  assert (chunk ≠ []) as Hne by (by intros ->).
  intros h. unfold bind at 1, lift at 1. revert h.
  rewrite bool_decide_true by lia.
  replace (Z.to_nat (Z.of_nat (length chunk) - 1)) with (length chunk - 1)%nat by lia.
  destruct (lookup_lt_is_Some_2 chunk (length chunk - 1)%nat ltac:(lia)) as [cl Hl].
  rewrite Hl. intros h. unfold bind at 1, lift at 1. revert h.
  eapply discharges_able; [|apply discharges_call_check, checkFound_fuel].
  by split.
Qed.
Lemma discharges_round (chunks : list (list (User Time))) (n : nat) (chunk : list (User Time)) :
  chunks !! n = Some chunk →
  discharges (workerRound Year db chunks (Z.of_nat n, chunk)) (roundDuties Year chunks n)
    (Forall (readable chunks) (window n)).
Proof.
  intros Hn. unfold workerRound, roundDuties. cbn [fst snd dutiesOf]. rewrite Hn.
  change (seqZ 0 3) with [0; 1; 2]. cbn [forEach].
  assert (∀ j : nat,
    discharges (if bool_decide (Z.of_nat n - Z.of_nat j >= 0)
                then checkChunk Year db chunks (Z.of_nat n - Z.of_nat j) else ret tt)
      (if (j <=? n)%nat then dutiesOf Year chunks (SCheck (n - j)) else [])
      (if (j <=? n)%nat then readable chunks (n - j) else True)) as Hj.
  { intros j. destruct (j <=? n)%nat eqn:Hle.
    - apply Nat.leb_le in Hle. rewrite bool_decide_true by lia.
      replace (Z.of_nat n - Z.of_nat j) with (Z.of_nat (n - j)) by lia.
      apply discharges_checkChunk.
    - apply Nat.leb_gt in Hle. rewrite bool_decide_false by lia.
      apply discharges_ret. }
  pose proof (Hj 0%nat) as H0. pose proof (Hj 1%nat) as H1.
  pose proof (Hj 2%nat) as H2. clear Hj.
  change (Z.of_nat 0) with 0 in H0. change (Z.of_nat 1) with 1 in H1.
  change (Z.of_nat 2) with 2 in H2.
  replace (j ← window n; dutiesOf Year chunks (SCheck j))
    with ((if (0 <=? n)%nat then dutiesOf Year chunks (SCheck (n - 0)) else [])
          ++ (if (1 <=? n)%nat then dutiesOf Year chunks (SCheck (n - 1)) else [])
          ++ (if (2 <=? n)%nat then dutiesOf Year chunks (SCheck (n - 2)) else []) ++ []).
  - eapply discharges_able; cycle 1.
    + apply discharges_bind; [apply discharges_dbCall|]. intros _.
      apply discharges_bind; [exact H0|]. intros _.
      apply discharges_bind; [exact H1|]. intros _.
      apply discharges_bind; [exact H2|]. intros _.
      apply discharges_ret.
    + unfold window. cbn [omap list_omap]. change (0 <=? n)%nat with true.
      destruct (1 <=? n)%nat, (2 <=? n)%nat; cbn;
        rewrite ?Forall_cons, ?Forall_nil; tauto.
  - unfold window. cbn [omap list_omap].
    destruct (0 <=? n)%nat, (1 <=? n)%nat, (2 <=? n)%nat; cbn; by rewrite ?app_nil_r.
Qed.

Lemma discharges_worker (chunks : list (list (User Time))) :
  length chunks = 10%nat →
  discharges (forEach (zip (seqZ 0 (Z.of_nat (length chunks))) chunks)
                (workerRound Year db chunks))
    (duties Year chunks) (Forall (λ c, c ≠ []) chunks).
Proof.
  intros Hlen. do 11 (destruct chunks as [|? chunks]; try done).
  match goal with |- discharges (forEach ?l ?body) ?ds ?a =>
    let l' := eval vm_compute in l in change (discharges (forEach l' body) ds a)
  end.
  unfold duties.
  match goal with |- discharges _ (mbind ?f (schedule ?m)) _ =>
    let s := eval vm_compute in (schedule m) in change (schedule m) with s
  end.
  eapply discharges_able; cycle 1.
  - eapply (eq_ind _ (λ ds, discharges _ ds _)).
    + match goal with |- discharges (forEach _ (workerRound _ _ ?cs)) _ _ =>
        apply (discharges_forEach _ _ (λ ic, roundDuties Year cs (Z.to_nat ic.1))
                 (λ ic, Forall (readable cs) (window (Z.to_nat ic.1))))
      end.
      repeat constructor.
      all: match goal with |- discharges (workerRound _ _ ?cs (?i, ?c)) _ _ =>
             apply (discharges_round cs (Z.to_nat i) c); reflexivity
           end.
    + unfold roundDuties. cbv -[checkDuty insertUserSql app].
      cbn [app]. rewrite <- ?app_assoc, ?app_nil_r. cbn [app].
      rewrite <- ?app_assoc. reflexivity.
  - rewrite !Forall_cons, !Forall_nil. cbv beta. cbn [fst].
    repeat match goal with |- context [window ?i] =>
      let w := eval vm_compute in (window i) in change (window i) with w
    end.
    rewrite !Forall_cons, !Forall_nil. unfold readable. cbn. tauto.
Qed.

Lemma duties_calls (chunks : list (list (User Time))) :
  fst <$> duties Year chunks = expectedCalls chunks.
Proof.
  unfold duties, expectedCalls. induction (schedule (length chunks)) as [|st l IH]; [done|].
  cbn [mbind list_bind]. rewrite fmap_app, IH. f_equal.
  destruct st as [i|j]; cbn [dutiesOf callsOf].
  - by destruct (chunks !! i).
  - destruct (chunks !! j) as [c|]; [|done]. unfold checkDuty, findFor.
    by destruct (c !! 0%nat), (c !! (length c - 1)%nat).
Qed.

(** C7, as the code has it.  A shard is cut into exactly 10 chunks; the
    calls of the worker are a beginning of: for [i] from 0 to 9, insert
    chunk [i], then read back chunks [i], [i-1], [i-2] clipped at 0, and all
    of that when the worker returns; what is read back was inserted before.
    Every read-back is checked against its chunk, and the outcome of the
    worker hangs on the checks: the worker goes on to its next call only
    when the last call returned and what it returned passed the check of
    its chunk; a call that panics or a read-back that fails its check is
    the last call and the worker panics; the worker returns exactly when
    no chunk is empty and every insert returned and every read-back passed
    its check.  A read-back passes exactly when it has as many rows as the
    chunk, the identifiers count up by one from the first identifier of the
    chunk, every creation year is 2023, every email starts with "user" and
    every row is active. *)
Theorem worker_validates_window (shard : list (User Time)) :
  ∃ chunks : list (list (User Time)),
    chunkUsers shard 10 = Ok chunks
    ∧ length chunks = 10%nat
    ∧ (let res := worker Year db shard [] in
       (db_call <$> res.1) `prefix_of` expectedCalls chunks
       ∧ (res.2 = Ok tt → db_call <$> res.1 = expectedCalls chunks)
       ∧ res.2 ≠ OutOfFuel
       ∧ fst <$> duties Year chunks = expectedCalls chunks
       ∧ Forall2 (λ e d, db_call e = d.1) res.1
           (take (length res.1) (duties Year chunks))
       ∧ (∀ k e d, res.1 !! k = Some e → duties Year chunks !! k = Some d →
            (S k < length res.1)%nat → met d e)
       ∧ (∀ k e d, res.1 !! k = Some e → duties Year chunks !! k = Some d →
            ¬ met d e → S k = length res.1 ∧ is_Panic res.2 = true)
       ∧ (res.2 = Ok tt
          ↔ Forall (λ c, c ≠ []) chunks
            ∧ Forall2 (λ e d, met d e) res.1 (duties Year chunks)))
    ∧ (∀ j chunk, chunks !! j = Some chunk →
         dutiesOf Year chunks (SCheck j) =
           match chunk !! 0%nat, chunk !! (length chunk - 1)%nat with
           | Some c0, Some cl =>
               [(DbFindUsers (findQuery (Id c0) (Id cl)), checkFound Year chunk (Id c0))]
           | _, _ => []
           end)
    ∧ schedule 10 = (i ← seq 0 10; SInsert i :: (SCheck <$> window i))
    ∧ (∀ i, window i =
          if bool_decide (i = 0)%nat then [0]%nat
          else if bool_decide (i = 1)%nat then [1; 0]%nat
          else [i; i - 1; i - 2]%nat)
    ∧ insertedFirst [] (schedule 10) = true
    ∧ (∀ chunk first found,
         checkFound Year chunk first found = Ok tt
         ↔ length found = length chunk
           ∧ ∀ p u, found !! p = Some u → rowAccepted Year first p u).
Proof.
  pose proof (chunkUsers_closed shard 10 ltac:(lia)) as Hcu. cbv zeta in Hcu.
  change (Z.to_nat 10) with 10%nat in Hcu.
  set (chunks := pieces (length shard / 10) 0 (10 - 1) shard
                   ++ [drop ((10 - 1) * (length shard / 10)) shard]) in Hcu.
  assert (length chunks = 10%nat) as Hlen
    by (unfold chunks; rewrite length_app, length_pieces; reflexivity).
  clearbody chunks. exists chunks.
  split_and!; [done | done | | | done | apply window_clipped | done
              | apply checkFound_accepts]; cycle 1.
  { intros j chunk Hj. cbn [dutiesOf]. by rewrite Hj. }
  assert (worker Year db shard [] =
            forEach (zip (seqZ 0 (Z.of_nat (length chunks))) chunks)
              (workerRound Year db chunks) []) as Hw
    by (unfold worker; rewrite Hcu; reflexivity).
  assert (follows (forEach (zip (seqZ 0 (Z.of_nat (length chunks))) chunks)
                     (workerRound Year db chunks))
                  (expectedCalls chunks)) as Hf.
  { do 11 (destruct chunks as [|? chunks]; try done).
    match goal with |- follows (forEach ?l ?body) ?e =>
      let l' := eval vm_compute in l in change (follows (forEach l' body) e)
    end.
    unfold expectedCalls.
    match goal with |- follows _ (mbind ?f (schedule ?m)) =>
      let s := eval vm_compute in (schedule m) in change (schedule m) with s
    end.
    eapply (eq_ind _ (follows _)).
    - match goal with |- follows (forEach _ (workerRound _ _ ?cs)) _ =>
        apply (follows_forEach _ _ (λ ic, roundCalls cs (Z.to_nat ic.1)))
      end.
      repeat constructor.
      all: match goal with |- follows (workerRound _ _ ?cs (?i, ?c)) _ =>
             apply (follows_round cs (Z.to_nat i) c); reflexivity
           end.
    - unfold roundCalls. cbv -[findFor insertUserSql app].
      cbn [app]. rewrite <- ?app_assoc, ?app_nil_r. cbn [app].
      rewrite <- ?app_assoc. reflexivity. }
  destruct (Hf []) as (evs & r & Hrun & Hpre & Hok & Hfuel).
  destruct (discharges_worker chunks Hlen []) as (evs' & r' & Hrun' & _ & Hcalls & Hmet & Hiff).
  rewrite Hrun in Hrun'. cbn [app] in Hrun'. injection Hrun' as <- <-.
  assert (r = Ok tt ↔ is_Ok r = true) as Hunit
    by (destruct r as [[]| |]; split; done).
  cbv zeta. rewrite Hw, Hrun. cbn [fst snd app].
  split_and!; [done | by intros -> ; apply Hok | done | apply duties_calls | done | done
              | | by rewrite Hunit].
  intros k e d He Hd Hnot.
  pose proof (lookup_lt_Some _ _ _ He) as Hk.
  destruct (decide (S k < length evs)%nat) as [Hlt|Hge];
    [destruct (Hnot (Hmet k e d He Hd Hlt))|].
  split; [lia|]. destruct r as [[]|msg|]; [|done..].
  destruct (proj1 Hiff eq_refl) as [_ Hall].
  destruct (Hnot (Forall2_lookup_lr _ _ _ _ _ _ Hall He Hd)).
Qed.
End WorkerProps.

(** C7 as the specification words it, that an accepted read-back carries the
    payload of the generation rule, does not hold: a row with the right
    identifier, another timestamp of 2023 and another email that starts with
    "user" is accepted. *)
Lemma validation_accepts_other_payload :
  ¬ ∀ (chunk found : list (User TimeSpec.Instant)) (first : Z),
      checkFound TimeSpec.Year chunk first found = Ok tt →
      ∀ u, u ∈ found → u = genUser base2023 (Id u - 1).
Proof.
  intros H.
  specialize (H (genUsers 1)
                [NewUser 1 (base2023 + 86400 * 10 ^ 9) "user-of-another-run" true] 1).
  specialize (H ltac:(by vm_compute) _ ltac:(by apply list_elem_of_here)).
  by vm_compute in H.
Qed.

(** A later row with an identifier already seen changes nothing, whatever
    its other fields. *)
Example flatten_ignores_later_fields :
  let row (email : string) (article : Z) :=
    mkJoinCols (Some 7) (Some 1696154400000) (Some email) (Some true)
               (Some article) (Some 1696154400000) (Some 7) (Some "article text")
               None None None None in
  FindUsersArticlesComments (TimeSpec.UnbindTime millis)
    (mkRows None [mkScan (row "first@example.com" 1) None;
                  mkScan (row "second@example.com" 2) None])
  = Ok ([NewUser 7 base2023 "first@example.com" true],
        [NewArticle 1 base2023 7 "article text"; NewArticle 2 base2023 7 "article text"],
        [NewComment 0 0 0 ""]).
Proof. by vm_compute. Qed.

(** ** Timestamps *)

Lemma wrap64_int64 (z : Z) : TimeSpec.int64 z → TimeSpec.wrap64 z = z.
Proof.
  unfold TimeSpec.int64, TimeSpec.wrap64. intros Hz.
  rewrite Z.mod_small by lia. lia.
Qed.

(** C9. For a positive unit and a timestamp whose count of units fits a
    signed 64-bit integer, unbinding the bound value gives the timestamp cut
    down to whole units, the timestamp itself when it is a whole number of
    units; the bound value is a signed 64-bit integer, and binding what was
    unbound gives it back. *)
Theorem bind_unbind_roundtrip (unit : Z) (t : TimeSpec.Instant) :
  0 < unit → TimeSpec.representable unit t →
  TimeSpec.UnbindTime unit (TimeSpec.BindTime unit t) = TimeSpec.truncate unit t
  ∧ (t mod unit = 0 → TimeSpec.UnbindTime unit (TimeSpec.BindTime unit t) = t)
  ∧ TimeSpec.int64 (TimeSpec.BindTime unit t)
  ∧ TimeSpec.BindTime unit (TimeSpec.UnbindTime unit (TimeSpec.BindTime unit t))
    = TimeSpec.BindTime unit t.
Proof.
  intros Hu Hr. unfold TimeSpec.representable in Hr.
  unfold TimeSpec.BindTime, TimeSpec.UnbindTime, TimeSpec.truncate.
  rewrite (wrap64_int64 (t / unit)) by done.
  pose proof (Z.div_mod t unit ltac:(lia)) as Hdm.
  split_and!.
  - lia.
  - intros Hz. lia.
  - done.
  - rewrite Z.div_mul by lia. by apply wrap64_int64.
Qed.

(** Unbinding any stored integer and binding it again gives it back. *)
Lemma unbind_bind (unit v : Z) :
  0 < unit → TimeSpec.int64 v →
  TimeSpec.BindTime unit (TimeSpec.UnbindTime unit v) = v.
Proof.
  intros Hu Hv. unfold TimeSpec.BindTime, TimeSpec.UnbindTime.
  rewrite Z.div_mul by lia. by apply wrap64_int64.
Qed.

(** ** The theorems at concrete inputs *)

Lemma BulkInsert_batches_witness :
  ∃ batches : list (list (User TimeSpec.Instant)),
    execArgs (InsertUsersBulk reliable (TimeSpec.BindTime millis) bulkSql
                (genUsers 112) []).1
      = batchArgs (userValues (TimeSpec.BindTime millis)) <$> batches
    ∧ concat batches = genUsers 112
    ∧ length <$> batches =
        replicate (length (genUsers 112) / 100)%nat 100%nat
          ++ replicate (length (genUsers 112) mod 100 / 10)%nat 10%nat
          ++ replicate (length (genUsers 112) mod 10)%nat 1%nat
    ∧ sum_list (length <$> batches) = length (genUsers 112)
    ∧ Forall (λ b, length b ∈ [100; 10; 1]%nat) batches.
Proof.
  apply (BulkInsert_batches reliable bulkSql 4
           (userValues (TimeSpec.BindTime millis)) (genUsers 112)).
  - lia.
  - reflexivity.
  - reflexivity.
Defined.

Lemma BulkInsert_one_or_none_witness :
  (BulkInsert reliable bulkSql 4 (userValues (TimeSpec.BindTime millis)) [] []).1
    = [mkEvent Begin None; mkEvent Commit None]
  ∧ prepared (BulkInsert reliable bulkSql 4
                (userValues (TimeSpec.BindTime millis)) (genUsers 1) []).1
    = ["INSERT INTO users(id,created,email,active) VALUES (?,?,?,?)"].
Proof.
  destruct (BulkInsert_one_or_none reliable bulkSql 4
              (userValues (TimeSpec.BindTime millis)) (genUser base2023 0)
              ltac:(lia) ltac:(reflexivity)) as (H0 & _ & _ & H1 & _).
  split; [exact H0 | exact H1].
Defined.

Lemma bulk_matches_row_by_row_witness :
  selectOrderById (storedRows 4
    (InsertUsersBulk reliable (TimeSpec.BindTime millis) bulkSql (genUsers 12) []).1)
  = selectOrderById (storedRows 4
    (InsertUsers reliable (TimeSpec.BindTime millis) insertUserSql (genUsers 12) []).1).
Proof.
  apply (bulk_matches_row_by_row reliable (TimeSpec.BindTime millis)
           (TimeSpec.UnbindTime millis) bulkSql insertUserSql (genUsers 12)).
  reflexivity.
Defined.

Lemma chunkUsers_partition_witness :
  ∃ cu : list (list (User TimeSpec.Instant)),
    chunkUsers (genUsers 23) 4 = Ok cu
    ∧ length cu = 4%nat
    ∧ concat cu = genUsers 23
    ∧ sum_list (length <$> cu) = length (genUsers 23)
    ∧ (∀ i c, (i < 4 - 1)%nat → cu !! i = Some c →
         length c = (length (genUsers 23) / 4)%nat)
    ∧ (∃ rest, cu !! (4 - 1)%nat = Some rest
         ∧ length rest
           = (length (genUsers 23) / 4 + length (genUsers 23) mod 4)%nat).
Proof.
  apply (chunkUsers_partition (genUsers 23) 4). lia.
Defined.

Lemma bind_unbind_roundtrip_witness :
  TimeSpec.UnbindTime millis (TimeSpec.BindTime millis 1696154400123456789)
  = 1696154400123000000.
Proof.
  destruct (bind_unbind_roundtrip millis 1696154400123456789) as [H _].
  - reflexivity.
  - unfold TimeSpec.representable, TimeSpec.int64. vm_compute.
    split; [discriminate | reflexivity].
  - rewrite H. reflexivity.
Defined.

(** Twelve generated users, inserted in bulk and read back: their timestamps
    are whole seconds, so they come back as they went in. *)
Example bulk_insert_read_back :
  readBackUsers (TimeSpec.UnbindTime millis)
    (storedRows 4
       (InsertUsersBulk reliable (TimeSpec.BindTime millis) bulkSql (genUsers 12) []).1)
  = Ok (genUsers 12).
Proof. by vm_compute. Qed.

(** * More of the package

    The properties below cover code the ones above leave out: [SqlDb.Exec]
    and the schema, the row-by-row inserts, the queries on a database that
    fails, the edges of [chunkUsers], and what [BulkInsert] does around its
    batches. *)

(** ** [repeatJoin], whatever the count *)

Lemma length_append (a b : string) :
  String.length (a +:+ b) = (String.length a + String.length b)%nat.
Proof.
  induction a as [|x a IH]; [done|].
  rewrite append_cons. cbn [String.length]. by rewrite IH.
Qed.

Lemma length_concat_replicate (str sep : string) (k : nat) :
  String.length (String.concat sep (replicate (S k) str))
  = (S k * String.length str + k * String.length sep)%nat.
Proof.
  induction k as [|k IH]; [cbn; lia|].
  rewrite concat_sep_replicate_S, !length_append, IH. lia.
Qed.

(** X1. For a count of at least one, [repeatJoin] returns the copies of the
    string joined by the separator, and the capacity it asked of the
    builder beforehand is the length of that result: the builder never has
    to grow again. *)
Theorem repeatJoin_exact_capacity (str sep : string) (n : Z) :
  1 ≤ n →
  ∃ s, repeatJoin str n sep = Ok s
    ∧ s = String.concat sep (replicate (Z.to_nat n) str)
    ∧ len s = len str * n + len sep * (n - 1).
Proof.
  intros Hn. eexists. split; [|split; [reflexivity|]].
  - replace n with (Z.of_nat (Z.to_nat n)) at 1 by lia.
    apply repeatJoin_spec. lia.
  - unfold len. destruct (Z.to_nat n) as [|k] eqn:Hk; [lia|].
    rewrite length_concat_replicate. nia.
Qed.

(** X2. With a column count of zero or less, [BulkInsert] panics while it
    builds the placeholder list, before any call reaches the database: no
    transaction is opened.  The count is kept above [-2^62]: the capacity
    asked of the builder is [2 * ncols - 1], and from there on it is the
    same number in Go's 64-bit [int] as in [Z]; further down the sum wraps
    around to a positive number and the builder accepts it. *)
Theorem BulkInsert_no_columns {T} (drv : Driver) (fInsertSql : string) (ncols : Z)
    (values : T → list Any) (rows : list T) (h : Trace) :
  - 2 ^ 62 < ncols → ncols ≤ 0 →
  BulkInsert drv fInsertSql ncols values rows h
    = (h, Panic "strings.Builder.Grow: negative count")
  ∧ TimeSpec.wrap64 (len "?" * ncols + len "," * (ncols - 1))
    = len "?" * ncols + len "," * (ncols - 1).
Proof.
  intros Hlow Hn. split.
  - unfold BulkInsert, bind, lift, repeatJoin, Grow.
    rewrite bool_decide_true; [done|].
    change (len "?") with 1. change (len ",") with 1. lia.
  - apply wrap64_int64. unfold TimeSpec.int64.
    change (len "?") with 1. change (len ",") with 1. lia.
Qed.

(** ** [SqlDb.Exec] *)

Section SqlDbProps.
Variable sdrv : SqlDriver.

Lemma SqlDb_Exec_cons (s : string) (sqls : list string) (h : list ExecEvent) :
  SqlDb_Exec sdrv (s :: sqls) h =
    match sdrv h s with
    | Some e => (h ++ [mkExecEvent s (Some e)], Panic e)
    | None => SqlDb_Exec sdrv sqls (h ++ [mkExecEvent s None])
    end.
Proof.
  unfold SqlDb_Exec. cbn [forEach]. unfold bind, dbExec, lift.
  by destruct (sdrv h s).
Qed.

Lemma SqlDb_Exec_app (a b : list string) (h : list ExecEvent) :
  SqlDb_Exec sdrv (a ++ b) h = (do! SqlDb_Exec sdrv a in SqlDb_Exec sdrv b) h.
Proof.
  revert h. induction a as [|s a IH]; intros h; [done|].
  cbn [app]. unfold bind in *. rewrite !SqlDb_Exec_cons.
  destruct (sdrv h s); [done|]. apply IH.
Qed.

(** X3. [SqlDb.Exec] runs its statements in the order given and stops at the
    first one the database rejects: it panics with that error and runs
    nothing after it; it returns exactly when every statement was run and
    none failed. *)
Theorem SqlDb_Exec_stops_at_first_failure (sqls : list string) (h : list ExecEvent) :
  ∃ evs r, SqlDb_Exec sdrv sqls h = (h ++ evs, r)
    ∧ (ex_sql <$> evs) `prefix_of` sqls
    ∧ (∀ i e, evs !! i = Some e → ex_err e = sdrv (h ++ take i evs) (ex_sql e))
    ∧ r ≠ OutOfFuel
    ∧ (is_Ok r = true ↔ ex_sql <$> evs = sqls ∧ Forall execOk evs)
    ∧ (∀ msg, r = Panic msg →
         ∃ front s, evs = front ++ [mkExecEvent s (Some msg)] ∧ Forall execOk front).
Proof.
  revert h. induction sqls as [|s sqls IH]; intros h.
  - exists [], (Ok tt). rewrite app_nil_r. split_and!; done.
  - rewrite SqlDb_Exec_cons. destruct (sdrv h s) as [e|] eqn:He.
    + exists [mkExecEvent s (Some e)], (Panic e). split_and!; try done.
      * by apply prefix_cons, prefix_nil.
      * intros [|i] x Hx; simplify_eq/=. by rewrite app_nil_r.
      * split; [done|]. intros [_ Hok]. by inversion Hok.
      * intros msg [= <-]. by exists [], s.
    + destruct (IH (h ++ [mkExecEvent s None]))
        as (evs & r & Heq & Hpre & Hdrv & Hfuel & Hok & Hpanic).
      exists (mkExecEvent s None :: evs), r. rewrite Heq, <- app_assoc.
      split_and!; try done.
      * cbn. by apply prefix_cons.
      * intros [|i] x Hx; simplify_eq/=; [by rewrite app_nil_r|].
        rewrite (Hdrv i x Hx), <- app_assoc. done.
      * rewrite Hok. cbn. rewrite Forall_cons. unfold execOk at 2. cbn.
        split; [intros [-> ?]; done|]. intros [[= ?] [_ ?]]. done.
      * intros msg Hr. destruct (Hpanic msg Hr) as (front & s' & -> & Hfront).
        exists (mkExecEvent s None :: front), s'. split; [done|].
        by apply Forall_cons.
Qed.

(** X4. [initJournalDelete] and [initJournalWal] behave as one [Exec] of
    their four PRAGMAs followed by the eight statements of the schema: the
    schema is created only once every PRAGMA was accepted, and both create
    the same schema. *)
Theorem initJournal_one_sequence (h : list ExecEvent) :
  initJournalDelete sdrv h = SqlDb_Exec sdrv (journalDeleteSql ++ schemaSql) h
  ∧ initJournalWal sdrv h = SqlDb_Exec sdrv (journalWalSql ++ schemaSql) h.
Proof.
  split; symmetry; apply SqlDb_Exec_app.
Qed.
End SqlDbProps.

(** ** The row-by-row inserts *)

Section PlanProps.
Variable drv : Driver.

Lemma runPlan_app (a b : list Call) (h : Trace) :
  runPlan drv (a ++ b) h =
    match runPlan drv a h with
    | (h', Ok _) => runPlan drv b h'
    | (h', Panic msg) => (h', Panic msg)
    | (h', OutOfFuel) => (h', OutOfFuel)
    end.
Proof.
  revert h. induction a as [|c a IH]; intros h; [done|].
  cbn [app runPlan]. destruct (drv h c); [done|]. apply IH.
Qed.

Lemma runPlan_spec (plan : list Call) (h : Trace) :
  ∃ evs r, runPlan drv plan h = (h ++ evs, r) ∧ checked drv h plan evs r.
Proof.
  revert h. induction plan as [|c plan IH]; intros h.
  - exists [], (Ok tt). cbn. rewrite app_nil_r. split; [done|].
    unfold checked. split_and!; try done.
  - cbn [runPlan]. destruct (drv h c) as [e|] eqn:He.
    + exists [mkEvent c (Some e)], (Panic e). split; [done|].
      unfold checked. split_and!; try done.
      * by apply prefix_cons, prefix_nil.
      * intros [|i] x Hx; simplify_eq/=. by rewrite app_nil_r.
      * split; [done|]. intros [_ Hok]. by inversion Hok.
      * intros msg [= <-]. by exists [], c.
    + destruct (IH (h ++ [mkEvent c None]))
        as (evs & r & Heq & Hpre & Hdrv & Hfuel & Hok & Hpanic).
      exists (mkEvent c None :: evs), r. rewrite Heq, <- app_assoc.
      split; [done|]. unfold checked. split_and!; try done.
      * cbn. by apply prefix_cons.
      * intros [|i] x Hx; simplify_eq/=; [by rewrite app_nil_r|].
        rewrite (Hdrv i x Hx), <- app_assoc. done.
      * rewrite Hok. cbn. rewrite Forall_cons. unfold succeeded at 2. cbn.
        split; [intros [-> ?]; done|]. intros [[= ?] [_ ?]]. done.
      * intros msg Hr. destruct (Hpanic msg Hr) as (front & c' & -> & Hfront).
        exists (mkEvent c None :: front), c'. split; [done|].
        by apply Forall_cons.
Qed.

Lemma runPlan_commit (body : list Call) (h evs : Trace) (r : Res unit) :
  Commit ∉ body →
  runPlan drv (body ++ [Commit]) h = (h ++ evs, r) →
  (is_Ok r = true ↔ mkEvent Commit None ∈ evs).
Proof.
  revert h evs r. induction body as [|c body IH]; intros h evs r Hnot Heq.
  - cbn in Heq. destruct (drv h Commit); simplify_list_eq.
    + split; [done|]. intros [=]%list_elem_of_singleton.
    + split; [|done]. intros _. by apply list_elem_of_singleton.
  - apply not_elem_of_cons in Hnot as [Hc Hnot].
    cbn [app runPlan] in Heq. destruct (drv h c).
    + simplify_list_eq. split; [done|]. intros [=]%list_elem_of_singleton.
    + destruct (runPlan_spec (body ++ [Commit]) (h ++ [mkEvent c None]))
        as (evs' & r' & Heq' & _).
      pose proof (IH _ _ _ Hnot Heq') as Hiff.
      rewrite Heq' in Heq. rewrite <- app_assoc in Heq. simplify_list_eq.
      rewrite Hiff, elem_of_cons.
      split; [by right|]. intros [[= ?]|?]; [congruence|done].
Qed.

Lemma insertPlan_commit (id : nat) (sql : string) (argss : list (list Any))
    (h evs : Trace) (r : Res unit) :
  runPlan drv (insertPlan id sql argss) h = (h ++ evs, r) →
  (is_Ok r = true ↔ mkEvent Commit None ∈ evs).
Proof.
  unfold insertPlan.
  replace ([Begin; Prepare sql] ++ (Exec (mkStmt id sql) <$> argss)
             ++ [Close (mkStmt id sql); Commit])
    with (([Begin; Prepare sql] ++ (Exec (mkStmt id sql) <$> argss)
             ++ [Close (mkStmt id sql)]) ++ [Commit])
    by (by rewrite <- !app_assoc).
  apply runPlan_commit.
  rewrite !elem_of_app, list_elem_of_fmap, !elem_of_cons, elem_of_nil.
  intros [[[=]|[[=]|[]]]|[(x & [=] & _)|[[=]|[]]]].
Qed.

(** The end of a row-by-row insert: close the statement, commit. *)
Lemma close_commit_plan (s : Stmt) (h : Trace) :
  (let! err := stmtClose drv (Some s) in
   do! lift (MustBeNil err) in
   let! err := txCommit drv in
   lift (MustBeNil err)) h
  = runPlan drv [Close s; Commit] h.
Proof.
  unfold bind, stmtClose, txCommit, call, lift. cbn.
  destruct (drv h (Close s)); [done|]. cbn.
  by destruct (drv (h ++ [mkEvent (Close s) None]) Commit).
Qed.

Section Rows.
Context {Time : Type}.
Variable BindTime : Time → Z.

Lemma InsertUsers_loop_plan (s : Stmt) (users : list (User Time)) (h : Trace) :
  InsertUsers_loop drv BindTime (Some s) users h
  = runPlan drv (Exec s <$> (userArgs BindTime <$> users)) h.
Proof.
  revert h. induction users as [|u users IH]; intros h; [done|].
  cbn [InsertUsers_loop fmap list_fmap runPlan]. unfold bind, stmtExec, call, lift.
  unfold userArgs at 1. destruct (drv h _); [done|]. apply IH.
Qed.

Lemma InsertArticles_loop_plan (s : Stmt) (articles : list (Article Time)) (h : Trace) :
  InsertArticles_loop drv BindTime (Some s) articles h
  = runPlan drv (Exec s <$> (articleArgs BindTime <$> articles)) h.
Proof.
  revert h. induction articles as [|u articles IH]; intros h; [done|].
  cbn [InsertArticles_loop fmap list_fmap runPlan]. unfold bind, stmtExec, call, lift.
  unfold articleArgs at 1. destruct (drv h _); [done|]. apply IH.
Qed.

Lemma InsertComments_loop_plan (s : Stmt) (comments : list (Comment Time)) (h : Trace) :
  InsertComments_loop drv BindTime (Some s) comments h
  = runPlan drv (Exec s <$> (commentArgs BindTime <$> comments)) h.
Proof.
  revert h. induction comments as [|u comments IH]; intros h; [done|].
  cbn [InsertComments_loop fmap list_fmap runPlan]. unfold bind, stmtExec, call, lift.
  unfold commentArgs at 1. destruct (drv h _); [done|]. apply IH.
Qed.

Lemma InsertUsers_plan (insertSql : string) (users : list (User Time)) (h : Trace) :
  InsertUsers drv BindTime insertSql users h
  = runPlan drv (insertPlan (S (length h)) insertSql (userArgs BindTime <$> users)) h.
Proof.
  unfold InsertUsers, insertPlan. cbn [app runPlan].
  unfold bind at 1 2. unfold dbBegin, bind at 1, call, ret, lift.
  destruct (drv h Begin); [done|].
  unfold bind at 1 2. unfold txPrepare, bind at 1, call, ret, lift.
  rewrite length_app, Nat.add_1_r.
  destruct (drv _ (Prepare insertSql)); [done|].
  unfold bind at 1. rewrite InsertUsers_loop_plan, runPlan_app.
  destruct (runPlan _ _ _) as [h' [[]| |]]; [|done..].
  apply close_commit_plan.
Qed.

Lemma InsertArticles_plan (insertSql : string) (articles : list (Article Time)) (h : Trace) :
  InsertArticles drv BindTime insertSql articles h
  = runPlan drv (insertPlan (S (length h)) insertSql (articleArgs BindTime <$> articles)) h.
Proof.
  unfold InsertArticles, insertPlan. cbn [app runPlan].
  unfold bind at 1 2. unfold dbBegin, bind at 1, call, ret, lift.
  destruct (drv h Begin); [done|].
  unfold bind at 1 2. unfold txPrepare, bind at 1, call, ret, lift.
  rewrite length_app, Nat.add_1_r.
  destruct (drv _ (Prepare insertSql)); [done|].
  unfold bind at 1. rewrite InsertArticles_loop_plan, runPlan_app.
  destruct (runPlan _ _ _) as [h' [[]| |]]; [|done..].
  apply close_commit_plan.
Qed.

Lemma InsertComments_plan (insertSql : string) (comments : list (Comment Time)) (h : Trace) :
  InsertComments drv BindTime insertSql comments h
  = runPlan drv (insertPlan (S (length h)) insertSql (commentArgs BindTime <$> comments)) h.
Proof.
  unfold InsertComments, insertPlan. cbn [app runPlan].
  unfold bind at 1 2. unfold dbBegin, bind at 1, call, ret, lift.
  destruct (drv h Begin); [done|].
  unfold bind at 1 2. unfold txPrepare, bind at 1, call, ret, lift.
  rewrite length_app, Nat.add_1_r.
  destruct (drv _ (Prepare insertSql)); [done|].
  unfold bind at 1. rewrite InsertComments_loop_plan, runPlan_app.
  destruct (runPlan _ _ _) as [h' [[]| |]]; [|done..].
  apply close_commit_plan.
Qed.

(** X5. [InsertUsers] makes the calls Begin, Prepare, one Exec per user in
    input order with (id, BindTime(created), email, active), Close, Commit,
    and checks every one: it stops at the first call that fails and panics
    with its error, and it returns exactly when the whole plan ran without
    error, which is exactly when the transaction was committed. *)
Theorem InsertUsers_all_or_abort (insertSql : string) (users : list (User Time)) (h : Trace) :
  ∃ evs r, InsertUsers drv BindTime insertSql users h = (h ++ evs, r)
    ∧ checked drv h
        (insertPlan (S (length h)) insertSql (userArgs BindTime <$> users)) evs r
    ∧ (is_Ok r = true ↔ mkEvent Commit None ∈ evs).
Proof.
  rewrite InsertUsers_plan.
  destruct (runPlan_spec (insertPlan (S (length h)) insertSql (userArgs BindTime <$> users)) h)
    as (evs & r & Heq & Hchecked).
  exists evs, r. split_and!; [done..|]. by eapply insertPlan_commit.
Qed.

(** X6. [InsertArticles] does the same with one Exec per article, binding
    (id, BindTime(created), userId, text). *)
Theorem InsertArticles_all_or_abort (insertSql : string) (articles : list (Article Time))
    (h : Trace) :
  ∃ evs r, InsertArticles drv BindTime insertSql articles h = (h ++ evs, r)
    ∧ checked drv h
        (insertPlan (S (length h)) insertSql (articleArgs BindTime <$> articles)) evs r
    ∧ (is_Ok r = true ↔ mkEvent Commit None ∈ evs).
Proof.
  rewrite InsertArticles_plan.
  destruct (runPlan_spec
              (insertPlan (S (length h)) insertSql (articleArgs BindTime <$> articles)) h)
    as (evs & r & Heq & Hchecked).
  exists evs, r. split_and!; [done..|]. by eapply insertPlan_commit.
Qed.

(** X7. [InsertComments] does the same with one Exec per comment, binding
    (id, BindTime(created), articleId, text). *)
Theorem InsertComments_all_or_abort (insertSql : string) (comments : list (Comment Time))
    (h : Trace) :
  ∃ evs r, InsertComments drv BindTime insertSql comments h = (h ++ evs, r)
    ∧ checked drv h
        (insertPlan (S (length h)) insertSql (commentArgs BindTime <$> comments)) evs r
    ∧ (is_Ok r = true ↔ mkEvent Commit None ∈ evs).
Proof.
  rewrite InsertComments_plan.
  destruct (runPlan_spec
              (insertPlan (S (length h)) insertSql (commentArgs BindTime <$> comments)) h)
    as (evs & r & Heq & Hchecked).
  exists evs, r. split_and!; [done..|]. by eapply insertPlan_commit.
Qed.
End Rows.
End PlanProps.

(** ** Queries, whatever the database returns *)

Section QueryProps.
Context {Time : Type}.
Variable UnbindTime : Z → Time.

Lemma FindUsers_loop_closed (scans : list (Scan UserCols)) (acc : list (User Time)) :
  FindUsers_loop UnbindTime scans acc =
    match head (omap scan_err scans) with
    | Some e => Panic e
    | None => Ok (acc ++ (userOfCols UnbindTime <$> (scan_cols <$> scans)))
    end.
Proof.
  revert acc. induction scans as [|sc scans IH]; intros acc.
  - cbn. by rewrite app_nil_r.
  - cbn [FindUsers_loop omap list_omap fmap list_fmap].
    destruct (scan_err sc) as [e|]; [done|]. cbn [MustBeNil res_bind].
    rewrite IH. destruct (head _); [done|]. by rewrite <- app_assoc.
Qed.

Lemma FindArticles_loop_closed (scans : list (Scan ArticleCols)) (acc : list (Article Time)) :
  FindArticles_loop UnbindTime scans acc =
    match head (omap scan_err scans) with
    | Some e => Panic e
    | None => Ok (acc ++ (articleOfCols UnbindTime <$> (scan_cols <$> scans)))
    end.
Proof.
  revert acc. induction scans as [|sc scans IH]; intros acc.
  - cbn. by rewrite app_nil_r.
  - cbn [FindArticles_loop omap list_omap fmap list_fmap].
    destruct (scan_err sc) as [e|]; [done|]. cbn [MustBeNil res_bind].
    rewrite IH. destruct (head _); [done|]. by rewrite <- app_assoc.
Qed.

Lemma flatten_loop_closed (scans : list (Scan JoinCols)) (st : Flat Time) :
  flatten_loop UnbindTime scans st =
    match head (omap scan_err scans) with
    | Some e => Panic e
    | None =>
        Ok (mkFlat
              (collect Id (decodeUser UnbindTime <$> (scan_cols <$> scans)) (f_users st))
              (collect a_Id (decodeArticle UnbindTime <$> (scan_cols <$> scans))
                 (f_articles st))
              (collect k_Id (decodeComment UnbindTime <$> (scan_cols <$> scans))
                 (f_comments st)))
    end.
Proof.
  revert st. induction scans as [|sc scans IH]; intros st.
  - cbn. by destruct st.
  - cbn [flatten_loop omap list_omap fmap list_fmap].
    destruct (scan_err sc) as [e|]; [done|]. cbn [MustBeNil res_bind].
    rewrite IH. by destruct (head _).
Qed.

(** X8. [FindUsers] panics with the error of the query, or else with the
    error of the first row whose scan fails; otherwise it returns one user
    per row, in row order, a NULL column read as the zero value of its
    type. *)
Theorem FindUsers_rows_or_first_error (rows : Rows UserCols) :
  FindUsers UnbindTime rows =
    match queryError rows with
    | Some e => Panic e
    | None => Ok (userOfCols UnbindTime <$> columns rows)
    end.
Proof.
  unfold FindUsers, queryError, columns.
  destruct (rows_err rows); [done|]. cbn [MustBeNil res_bind].
  apply FindUsers_loop_closed.
Qed.

(** X9. [FindArticles] likewise: the error of the query or of the first
    failing scan, else one article per row in row order, NULL read as
    zero. *)
Theorem FindArticles_rows_or_first_error (rows : Rows ArticleCols) :
  FindArticles UnbindTime rows =
    match queryError rows with
    | Some e => Panic e
    | None => Ok (articleOfCols UnbindTime <$> columns rows)
    end.
Proof.
  unfold FindArticles, queryError, columns.
  destruct (rows_err rows); [done|]. cbn [MustBeNil res_bind].
  apply FindArticles_loop_closed.
Qed.

(** X10. [FindUsersArticlesComments] panics with the error of the query or
    of the first failing scan, whatever was collected before; otherwise
    each collection holds the records decoded from the rows, cut down to
    the first occurrence of every identifier. *)
Theorem FindUsersArticlesComments_rows_or_first_error (rows : Rows JoinCols) :
  FindUsersArticlesComments UnbindTime rows =
    match queryError rows with
    | Some e => Panic e
    | None =>
        Ok (firstsBy Id (decodeUser UnbindTime <$> columns rows),
            firstsBy a_Id (decodeArticle UnbindTime <$> columns rows),
            firstsBy k_Id (decodeComment UnbindTime <$> columns rows))
    end.
Proof.
  unfold FindUsersArticlesComments, queryError, columns.
  destruct (rows_err rows); [done|]. cbn [MustBeNil res_bind].
  rewrite flatten_loop_closed. destruct (head _); [done|].
  cbn [res_bind f_users f_articles f_comments].
  by rewrite !collect_from_empty.
Qed.

(** *** The indexers *)

Lemma indexed_empty {A} (key : A → Z) : indexed key ([], ∅).
Proof.
  intros k i. cbn. rewrite lookup_empty. split; [done|].
  intros (j & x & _ & Hx & _). by rewrite lookup_nil in Hx.
Qed.

Lemma indexed_appendIfNew {A} (key : A → Z) (x : A) (st : list A * gmap Z Z) :
  indexed key st → indexed key (appendIfNew key x st).
Proof.
  intros Hst. unfold appendIfNew.
  destruct (st.2 !! key x) as [i0|] eqn:Hx; [done|].
  intros k i. cbn [fst snd]. split.
  - destruct (decide (k = key x)) as [->|Hne].
    + rewrite lookup_insert_eq. intros [= <-].
      exists (length st.1), x. split_and!; [done| |done].
      by rewrite list_lookup_middle.
    + rewrite lookup_insert_ne by done. intros Hk.
      apply Hst in Hk as (j & y & -> & Hy & Hkey).
      exists j, y. split_and!; [done| |done].
      rewrite lookup_app_l; [done|]. by eapply lookup_lt_Some.
  - intros (j & y & -> & Hy & <-).
    apply lookup_app_Some in Hy as [Hy|[Hlen Hy]].
    + assert (st.2 !! key y = Some (Z.of_nat j)) as Hk
        by (apply Hst; by exists j, y).
      rewrite lookup_insert_ne; [done|]. intros Heq. congruence.
    + destruct (j - length st.1)%nat as [|n] eqn:Hj; [|by destruct n].
      cbn in Hy. simplify_eq. rewrite lookup_insert_eq. f_equal. lia.
Qed.

(** X11. While [FindUsersArticlesComments] reads the rows, each of its three
    indexers maps exactly the identifiers held in its collection, each to
    the position of its entry: when the loop ends without error, looking an
    identifier up gives the place of the one record that carries it. *)
Theorem flatten_indexers_locate (scans : list (Scan JoinCols)) (st : Flat Time) :
  flatten_loop UnbindTime scans (mkFlat ([], ∅) ([], ∅) ([], ∅)) = Ok st →
  indexed Id (f_users st) ∧ indexed a_Id (f_articles st) ∧ indexed k_Id (f_comments st).
Proof.
  assert (∀ st0 : Flat Time,
    indexed Id (f_users st0) ∧ indexed a_Id (f_articles st0)
      ∧ indexed k_Id (f_comments st0) →
    flatten_loop UnbindTime scans st0 = Ok st →
    indexed Id (f_users st) ∧ indexed a_Id (f_articles st)
      ∧ indexed k_Id (f_comments st)) as Hgen.
  { induction scans as [|sc scans IH]; intros st0 Hst0 Hrun.
    - cbn in Hrun. by simplify_eq.
    - cbn [flatten_loop] in Hrun.
      destruct (scan_err sc); [done|]. cbn [MustBeNil res_bind] in Hrun.
      destruct Hst0 as (Hu & Ha & Hc). apply (IH _) in Hrun; [done|].
      cbn [f_users f_articles f_comments].
      split; [|split]; by apply indexed_appendIfNew. }
  apply Hgen. cbn [f_users f_articles f_comments].
  split; [|split]; apply indexed_empty.
Qed.

(** *** Rows that arrive later *)

Lemma tracks_collect {A} (key : A → Z) (xs : list A) (st : list A * gmap Z Z) :
  tracks key st → tracks key (collect key xs st).
Proof.
  revert st. induction xs as [|x xs IH]; intros st Hst; [done|].
  cbn. apply IH. by apply tracks_appendIfNew.
Qed.

Lemma firstsBy_app {A} (key : A → Z) (xs ys : list A) :
  firstsBy key (xs ++ ys) =
    firstsBy key xs
      ++ filter (λ y, key y ∉ key <$> firstsBy key xs) (firstsBy key ys).
Proof.
  rewrite <- !collect_from_empty. unfold collect at 1. rewrite foldl_app.
  fold (collect key xs ([], ∅)). fold (collect key ys (collect key xs ([], ∅))).
  rewrite collect_firstsBy by apply tracks_collect, tracks_empty.
  by rewrite !collect_from_empty.
Qed.

(** X12. Rows that arrive later only add to what
    [FindUsersArticlesComments] returns: the collections for a stream are
    those for any beginning of it, followed by the first occurrences, among
    the remaining rows, of the identifiers not seen before.  What the
    beginning produced is neither reordered nor overwritten. *)
Theorem flatten_later_rows_only_add (rs rs' : list JoinCols) :
  ∃ users articles comments,
    FindUsersArticlesComments UnbindTime (rowsOf rs) = Ok (users, articles, comments)
    ∧ FindUsersArticlesComments UnbindTime (rowsOf (rs ++ rs')) =
        Ok (users
              ++ filter (λ y, Id y ∉ Id <$> users)
                   (firstsBy Id (decodeUser UnbindTime <$> rs')),
            articles
              ++ filter (λ y, a_Id y ∉ a_Id <$> articles)
                   (firstsBy a_Id (decodeArticle UnbindTime <$> rs')),
            comments
              ++ filter (λ y, k_Id y ∉ k_Id <$> comments)
                   (firstsBy k_Id (decodeComment UnbindTime <$> rs'))).
Proof.
  do 3 eexists. unfold rowsOf. rewrite !FindUsersArticlesComments_firsts.
  split; [reflexivity|]. by rewrite !fmap_app, !firstsBy_app.
Qed.
End QueryProps.

(** ** [chunkUsers] at the edges *)

Lemma pieces_zero {A} (i m : nat) (u : list A) : pieces 0 i m u = replicate m [].
Proof.
  unfold pieces. revert i. induction m as [|m IH]; intros i; [done|].
  cbn. by rewrite IH.
Qed.

Lemma chunkUsers_facts {A} (u : list A) (k : Z) :
  1 ≤ k →
  ∃ cu, chunkUsers u k = Ok cu
    ∧ length cu = Z.to_nat k
    ∧ concat cu = u
    ∧ Forall (λ c, (length u / Z.to_nat k ≤ length c)%nat) cu.
Proof.
  intros Hk. eexists. split; [by apply chunkUsers_closed|].
  set (K := Z.to_nat k). set (c := (length u / K)%nat).
  assert (1 ≤ K)%nat as HK1 by lia.
  assert (K * c ≤ length u)%nat as Hle by (subst c; apply Nat.Div0.mul_div_le).
  split_and!.
  - rewrite length_app, length_pieces. cbn. lia.
  - rewrite concat_app, concat_pieces. cbn [concat drop].
    rewrite app_nil_r. apply take_drop.
  - apply Forall_app. split.
    + apply Forall_lookup. intros j p Hp.
      rewrite (lookup_pieces _ _ _ _ _ Hp); [done|]. nia.
    + apply Forall_singleton. rewrite length_drop. nia.
Qed.

(** X13. [chunkUsers] returns exactly when the number of pieces asked for is
    at least one: zero pieces is a division by zero and a negative number
    is refused when the result is allocated. *)
Theorem chunkUsers_returns_iff {A} (u : list A) (n : Z) :
  is_Ok (chunkUsers u n) = true ↔ 1 ≤ n.
Proof.
  split.
  - unfold chunkUsers. case_bool_decide; [done|]. case_bool_decide; [done|]. lia.
  - intros Hn. by rewrite chunkUsers_closed.
Qed.

(** X14. Asked for more pieces than there are rows, [chunkUsers] returns
    empty pieces followed by one last piece that holds every row. *)
Theorem chunkUsers_more_pieces_than_rows {A} (u : list A) (k : Z) :
  1 ≤ k → Z.of_nat (length u) < k →
  chunkUsers u k = Ok (replicate (Z.to_nat k - 1) [] ++ [u]).
Proof.
  intros Hk Hlen. rewrite chunkUsers_closed by done. cbv zeta.
  rewrite Nat.div_small by lia. by rewrite pieces_zero, Nat.mul_0_r.
Qed.

(** X15. Cutting the users into shards and every shard into ten chunks, as
    [benchWal] does, loses and repeats nothing: the shards concatenate to
    the users and the ten chunks of a shard to the shard.  With at least
    ten rows per shard asked for, no chunk is empty. *)
Theorem shards_and_chunks_partition {A} (u : list A) (k : Z) :
  1 ≤ k →
  ∃ shards, chunkUsers u k = Ok shards
    ∧ length shards = Z.to_nat k
    ∧ concat shards = u
    ∧ ∀ s, s ∈ shards →
        ∃ chunks, chunkUsers s 10 = Ok chunks
          ∧ length chunks = 10%nat
          ∧ concat chunks = s
          ∧ (10 * k ≤ Z.of_nat (length u) → Forall (λ c, c ≠ []) chunks).
Proof.
  intros Hk. destruct (chunkUsers_facts u k Hk) as (shards & Hcu & Hlen & Hcat & Hmin).
  exists shards. split_and!; [done..|]. intros s Hs.
  destruct (chunkUsers_facts s 10 ltac:(lia)) as (chunks & Hcs & Hlen' & Hcat' & Hmin').
  exists chunks. split_and!; [done..|]. intros Hbig.
  rewrite Forall_forall in Hmin. specialize (Hmin s Hs).
  assert (10 ≤ length u / Z.to_nat k)%nat as H10.
  { apply Nat.div_le_lower_bound; lia. }
  assert (1 ≤ length s / Z.to_nat 10)%nat as H1.
  { change (Z.to_nat 10) with 10%nat. apply Nat.div_le_lower_bound; lia. }
  eapply Forall_impl; [exact Hmin'|]. intros c Hc ->. cbn in Hc. lia.
Qed.

(** ** A worker with a short shard *)

Section ShortShard.
Context {Time : Type}.
Variable Year : Time → Z.
Variable db : Db Time.

(** X16. A worker whose shard has fewer than ten rows never inserts them:
    its first nine chunks are empty, so it inserts an empty chunk and then
    panics on reading the first row of that chunk, before any query. *)
Theorem worker_short_shard (shard : list (User Time)) (h : list (DbEvent Time)) :
  (length shard < 10)%nat →
  worker Year db shard h =
    (h ++ [mkDbEvent (DbInsertUsers insertUserSql [])
             (db h (DbInsertUsers insertUserSql []))],
     match db h (DbInsertUsers insertUserSql []) with
     | Returned _ => Panic "index out of range"
     | Panicked msg => Panic msg
     end).
Proof.
  intros Hlen. unfold worker, bind at 1, lift at 1.
  rewrite chunkUsers_closed by lia. cbv zeta.
  change (Z.to_nat 10) with 10%nat.
  rewrite Nat.div_small, pieces_zero, Nat.mul_0_r by lia.
  change (zip _ _) with
    (zip (seqZ 0 10) (replicate 9 ([] : list (User Time)) ++ [shard])).
  cbn [replicate app].
  change (seqZ 0 10) with [0; 1; 2; 3; 4; 5; 6; 7; 8; 9].
  cbn [zip zip_with forEach]. unfold bind at 1. unfold workerRound at 1.
  cbn [fst snd]. unfold bind at 1, dbCall at 1.
  destruct (db h _); [|done].
  change (seqZ 0 3) with [0; 1; 2]. cbn [forEach].
  reflexivity.
Qed.
End ShortShard.

(** ** The generated users against the validations *)

Lemma civilYear_2023 (d : Z) : 19631 ≤ d ≤ 19722 → civilYear d = 2023.
Proof.
  intros Hd.
  assert (Forall (λ d, civilYear d = 2023) (seqZ 19631 92)) as Hall.
  { apply (Forall_impl (λ d, bool_decide (civilYear d = 2023) = true)).
    - apply Forall_forall. intros x Hx.
      assert (forallb (λ d, bool_decide (civilYear d = 2023)) (seqZ 19631 92) = true)
        as Hb by (vm_compute; reflexivity).
      rewrite forallb_forall in Hb. apply Hb. by apply list_elem_of_In.
    - intros x Hx. by apply bool_decide_eq_true in Hx. }
  rewrite Forall_seqZ in Hall. apply Hall. lia.
Qed.

Lemma Year_genUser (i : Z) :
  0 ≤ i < 7912800 → TimeSpec.Year (Created (genUser base2023 i)) = 2023.
Proof.
  intros Hi. cbn [Created genUser]. unfold TimeSpec.Year, base2023.
  apply civilYear_2023.
  change (10 ^ 9) with 1000000000.
  pose proof (Z.div_mod (1696154400 * 1000000000 + i * 1000000000) 86400000000000
                ltac:(lia)) as Hdm.
  pose proof (Z.mod_pos_bound (1696154400 * 1000000000 + i * 1000000000) 86400000000000
                ltac:(lia)) as Hm.
  lia.
Qed.

Lemma genUser_accepted (first : Z) (p : nat) (i : Z) :
  0 ≤ i < 7912800 → i + 1 = Z.of_nat p + first →
  rowAccepted TimeSpec.Year first p (genUser base2023 i).
Proof.
  intros Hi Hid. split_and!.
  - exact Hid.
  - by apply Year_genUser.
  - exists (pretty (i + 1) +:+ "@example.com"). reflexivity.
  - reflexivity.
Qed.

Lemma genUsers_lookup (n p : nat) (u : User TimeSpec.Instant) :
  genUsers n !! p = Some u → (p < n)%nat ∧ u = genUser base2023 (Z.of_nat p).
Proof.
  unfold genUsers. rewrite list_lookup_fmap.
  destruct (seq 0 n !! p) as [j|] eqn:Hj; [|done].
  apply lookup_seq in Hj as [-> Hlt]. cbn. intros [= <-]. done.
Qed.

Lemma validateUsers_loop_checkRows {Time} (Year : Time → Z) (i : Z) (users : list (User Time)) :
  validateUsers_loop Year i users = checkRows Year 1 i users.
Proof.
  revert i. induction users as [|u users IH]; intros i; [done|].
  cbn [validateUsers_loop checkRows].
  destruct (MustBeEqual (i + 1) (Id u)); [|done..].
  destruct (MustBeEqual 2023 (Year (Created u))); [|done..].
  destruct (goSubstr (Email u) 0 4) as [prefix| |]; [|done..]. cbn [res_bind].
  destruct (MustBeEqual "user" prefix); [|done..].
  destruct (MustBeEqual true (Active u)); [|done..]. apply IH.
Qed.

(** X17. The users the concurrent and WAL benchmarks generate pass their own
    validations when they come back as stored: every run of consecutive
    generated users is accepted by the check of the WAL worker for the
    chunk it makes up, and the whole sequence by the validation of the
    concurrent benchmark, as long as the creation times stay within 2023
    (7,912,800 users, one second apart; the benchmarks generate
    1,000,000). *)
Theorem generated_users_pass_validation (n lo m : nat) :
  (lo + m ≤ n)%nat → Z.of_nat n ≤ 7912800 →
  let chunk := take m (drop lo (genUsers n)) in
  checkFound TimeSpec.Year chunk (Z.of_nat lo + 1) chunk = Ok tt
  ∧ validateUsers TimeSpec.Year (Z.of_nat n) (genUsers n) = Ok tt.
Proof.
  intros Hlo Hn chunk. split.
  - apply checkFound_accepts. split; [done|]. intros p u Hp.
    unfold chunk in Hp. apply lookup_take_Some in Hp as [Hp Hpm].
    rewrite lookup_drop in Hp. apply genUsers_lookup in Hp as [Hlt ->].
    apply genUser_accepted; lia.
  - unfold validateUsers, MustBeEqual.
    rewrite decide_True by (unfold genUsers; by rewrite length_fmap, length_seq).
    cbn [res_bind].
    rewrite validateUsers_loop_checkRows.
    apply (checkRows_accepts TimeSpec.Year 1 0). intros p u Hp.
    apply genUsers_lookup in Hp as [Hlt ->].
    apply genUser_accepted; lia.
Qed.

(** ** [BulkInsert]: commit, release, and what a failure leaves behind *)

Section BulkInsertMore.
Variable drv : Driver.
Context {T : Type}.
Variable fInsertSql : string.
Variable ncols : Z.
Variable values : T → list Any.

Lemma BulkInsert_unfold (rows : list T) :
  0 < ncols → drv [] Begin = None →
  BulkInsert drv fInsertSql ncols values rows [] =
    match batchSteps drv fInsertSql values (colsOf ncols) (specBatches rows) sts0
            [mkEvent Begin None] with
    | (h', Ok sts') => finish drv sts' h'
    | (h', Panic msg) => (h', Panic msg)
    | (h', OutOfFuel) => (h', OutOfFuel)
    end.
Proof.
  intros Hn Hb. unfold BulkInsert.
  rewrite (repeatJoin_placeholders ncols) by done.
  unfold bind at 1, lift at 1. fold (colsOf ncols).
  unfold bind at 1, try at 1, dbBegin, bind at 1 2, call at 1, ret at 1.
  rewrite Hb. cbn [app try0 ret]. unfold bind at 1, ret at 1. unfold bind at 1.
  unfold ret at 1. cbv beta iota.
  rewrite loop_refines by done. fold sts0.
  destruct (batchSteps _ _ _ _ _ _ _) as [h' [sts'| |]]; done.
Qed.

Lemma steps_calls (cols : string) (bs : list (list T)) (sts : Stmts)
    (h evs : Trace) (r : Res Stmts) :
  batchSteps drv fInsertSql values cols bs sts h = (h ++ evs, r) →
  Forall (λ e, isPrepare e ∨ isExec e) evs.
Proof.
  revert sts h evs r. induction bs as [|b bs IH]; intros sts h evs r Hrun.
  { cbn in Hrun. unfold ret in Hrun. simplify_eq.
    assert (evs = []) as -> by (by eapply app_inv_head; rewrite app_nil_r).
    constructor. }
  rewrite steps_cons in Hrun.
  destruct (step_cases drv fInsertSql values cols sts b h)
    as [s _ Hstep| _ _ Hstep|e _ _ Hstep];
    rewrite Hstep in Hrun; clear Hstep; cbv zeta in Hrun.
  - match type of Hrun with batchSteps _ _ _ cols bs ?sts1 ?h1 = _ =>
      destruct (steps_extends drv fInsertSql values cols bs sts1 h1)
        as (evs' & r' & Hrun' & _) end.
    pose proof (IH _ _ _ _ Hrun') as IH'.
    rewrite Hrun' in Hrun. rewrite <- app_assoc in Hrun. simplify_list_eq.
    constructor; [by right | done].
  - match type of Hrun with batchSteps _ _ _ cols bs ?sts1 ?h1 = _ =>
      destruct (steps_extends drv fInsertSql values cols bs sts1 h1)
        as (evs' & r' & Hrun' & _) end.
    pose proof (IH _ _ _ _ Hrun') as IH'.
    rewrite Hrun' in Hrun. rewrite <- !app_assoc in Hrun. simplify_list_eq.
    constructor; [by left|]. constructor; [by right | done].
  - simplify_list_eq. constructor; [by left | constructor].
Qed.

Lemma steps_panic (cols : string) (bs : list (list T)) (sts : Stmts)
    (h evs : Trace) (r : Res Stmts) :
  batchSteps drv fInsertSql values cols bs sts h = (h ++ evs, r) → is_Ok r = false →
  ∃ front sql e, evs = front ++ [mkEvent (Prepare sql) (Some e)]
    ∧ Forall (λ ev, succeeded ev ∨ isExec ev) front.
Proof.
  revert sts h evs r. induction bs as [|b bs IH]; intros sts h evs r Hrun Hr.
  { cbn in Hrun. unfold ret in Hrun. by simplify_eq. }
  rewrite steps_cons in Hrun.
  destruct (step_cases drv fInsertSql values cols sts b h)
    as [s _ Hstep| _ _ Hstep|e _ _ Hstep];
    rewrite Hstep in Hrun; clear Hstep; cbv zeta in Hrun.
  - match type of Hrun with batchSteps _ _ _ cols bs ?sts1 ?h1 = _ =>
      destruct (steps_extends drv fInsertSql values cols bs sts1 h1)
        as (evs' & r' & Hrun' & _) end.
    pose proof (IH _ _ _ _ Hrun') as IH'.
    rewrite Hrun' in Hrun. rewrite <- app_assoc in Hrun. simplify_list_eq.
    destruct (IH' Hr) as (front & sql & e & -> & Hfront).
    eexists (_ :: front), sql, e. split; [done|]. constructor; [by right | done].
  - match type of Hrun with batchSteps _ _ _ cols bs ?sts1 ?h1 = _ =>
      destruct (steps_extends drv fInsertSql values cols bs sts1 h1)
        as (evs' & r' & Hrun' & _) end.
    pose proof (IH _ _ _ _ Hrun') as IH'.
    rewrite Hrun' in Hrun. rewrite <- !app_assoc in Hrun. simplify_list_eq.
    destruct (IH' Hr) as (front & sql & e & -> & Hfront).
    eexists (_ :: _ :: front), sql, e. split; [done|].
    constructor; [by left|]. constructor; [by right | done].
  - simplify_list_eq. by eexists [], _, _.
Qed.

Lemma finish_returns (sts : Stmts) (h post : Trace) (r : Res unit) :
  finish drv sts h = (h ++ post, r) →
  (mkEvent Commit None ∈ post → is_Ok r = true)
  ∧ (is_Ok r = true →
       post = ((λ s, mkEvent (Close s) None) <$> handlesOf sts) ++ [mkEvent Commit None]).
Proof.
  destruct sts as [[a|] [b|] [c|]].
  all: unfold finish, closeIfPrepared, stmtClose, txCommit, bind, call, try0, ret, panic;
    cbn [st1 st10 st100].
  all: repeat match goal with
         | |- context [drv ?h' ?c'] =>
             let e := fresh "e" in let He := fresh "He" in
             destruct (drv h' c') as [e|] eqn:He
         end.
  all: rewrite <- ?app_assoc; intros Heq; simplify_list_eq.
  all: split; [rewrite ?elem_of_cons, ?elem_of_nil; naive_solver | done].
Qed.

(** X18. [BulkInsert] returns exactly when its transaction was committed
    without error: whenever it panics no successful Commit has been made,
    and it never returns without one. *)
Theorem BulkInsert_returns_iff_committed (rows : list T) :
  let res := BulkInsert drv fInsertSql ncols values rows [] in
  is_Ok res.2 = true ↔ committed res.1 = true.
Proof.
  intros res. subst res. unfold committed. rewrite bool_decide_eq_true.
  destruct (decide (0 < ncols)) as [Hn|Hn]; cycle 1.
  { destruct (BulkInsert_shape drv fInsertSql ncols values rows)
      as [msg Hn'|e' Hn' _|evs post r1 r Hn' _ _ _ _ _ _ _ _]; [|lia..].
    cbn. split; [done|]. by intros ?%elem_of_nil. }
  destruct (drv [] Begin) as [e|] eqn:Hb.
  { destruct (BulkInsert_shape drv fInsertSql ncols values rows)
      as [msg Hn'|e' _ Hb'|evs post r1 r _ Hb' _ _ _ _ _ _ _]; [lia| |congruence].
    cbn. split; [done|]. intros [=]%list_elem_of_singleton. }
  rewrite BulkInsert_unfold by done.
  destruct (steps_extends drv fInsertSql values (colsOf ncols) (specBatches rows) sts0
              [mkEvent Begin None]) as (evs & r1 & Hsteps & Hr1).
  rewrite Hsteps. pose proof (steps_calls _ _ _ _ _ _ Hsteps) as Hcalls.
  assert (mkEvent Commit None ∉ [mkEvent Begin None] ++ evs) as Hno.
  { rewrite elem_of_app, list_elem_of_singleton. intros [[=]|Hin].
    rewrite Forall_forall in Hcalls. by destruct (Hcalls _ Hin). }
  destruct r1 as [sts'| |]; [|done..].
  destruct (finish_spec drv sts' ([mkEvent Begin None] ++ evs))
    as (post & r & Hfin & _ & _ & _ & _ & Hcommit).
  rewrite Hfin. cbn [fst snd].
  destruct (finish_returns _ _ _ _ Hfin) as [Hback _].
  split.
  - intros Hr. apply elem_of_app. right. by apply Hcommit.
  - intros [Hin|Hin]%elem_of_app; [done|]. by apply Hback.
Qed.

(** X19. When a Prepare fails, [BulkInsert] panics and leaves everything as
    it is: the statements compiled before are not closed and the
    transaction is neither committed nor rolled back.  No call follows the
    failed Prepare. *)
Theorem BulkInsert_failed_prepare_abandons (rows : list T) (sql e : string) :
  let res := BulkInsert drv fInsertSql ncols values rows [] in
  mkEvent (Prepare sql) (Some e) ∈ res.1 →
  is_Panic res.2 = true
  ∧ Forall (λ ev, ¬ closing ev) res.1
  ∧ last res.1 = Some (mkEvent (Prepare sql) (Some e)).
Proof.
  intros res. subst res.
  destruct (BulkInsert_shape drv fInsertSql ncols values rows)
    as [msg Hn'|e' _ Hb'|evs post r1 r Hn Hb Hsteps Hpost Hnil Hfuel Hok _ _];
    cbn [fst snd].
  - by intros ?%elem_of_nil.
  - by intros [=]%list_elem_of_singleton.
  - intros Hin. apply elem_of_cons in Hin as [[=]|Hin].
    pose proof (steps_calls _ _ _ _ _ _ Hsteps) as Hcalls.
    apply elem_of_app in Hin as [Hin|Hin]; cycle 1.
    { rewrite Forall_forall in Hpost. by destruct (Hpost _ Hin). }
    assert (is_Ok r1 = false) as Hr1.
    { destruct (is_Ok r1) eqn:Hr1; [|done].
      pose proof (steps_failures _ _ _ _ _ _ _ _ _ Hsteps Hr1) as Hf.
      rewrite Forall_forall in Hf. by destruct (Hf _ Hin). }
    rewrite (Hnil Hr1), app_nil_r in *.
    split_and!.
    + destruct r as [[]| |]; [|done..]. destruct Hok as [Hok _].
      destruct (Hok eq_refl). congruence.
    + constructor; [by intros []|].
      eapply Forall_impl; [exact Hcalls|].
      intros ev [Hp|Hx] Hc; unfold isPrepare, isExec, closing in *;
        by destruct (ev_call ev).
    + destruct (steps_panic _ _ _ _ _ _ Hsteps Hr1) as (front & sql' & e' & -> & Hfront).
      apply elem_of_app in Hin as [Hin|Hin%list_elem_of_singleton].
      * rewrite Forall_forall in Hfront. by destruct (Hfront _ Hin).
      * rewrite Hin. rewrite app_comm_cons. apply last_snoc.
Qed.
End BulkInsertMore.

(** ** [BulkInsert]: every statement compiled is released *)

Lemma openedFrom_app (n : nat) (a b : Trace) :
  openedFrom n (a ++ b) = openedFrom n a ++ openedFrom (n + length a) b.
Proof.
  revert n. induction a as [|e a IH]; intros n.
  - cbn. by rewrite Nat.add_0_r.
  - cbn [app openedFrom length]. rewrite IH, Nat.add_succ_r.
    by destruct (ev_call e), (ev_err e).
Qed.

Lemma openedFrom_none (n : nat) (tr : Trace) :
  Forall (λ e, ¬ isPrepare e) tr → openedFrom n tr = [].
Proof.
  revert n. induction tr as [|e tr IH]; intros n Hall; [done|].
  apply Forall_cons in Hall as [He Hall]. cbn [openedFrom]. rewrite IH by done.
  unfold isPrepare in He. by destruct (ev_call e), (ev_err e).
Qed.

Lemma closes_app (a b : Trace) : closes (a ++ b) = closes a ++ closes b.
Proof. apply omap_app. Qed.

Lemma closes_none (tr : Trace) : Forall (λ e, ¬ closing e) tr → closes tr = [].
Proof.
  induction tr as [|e tr IH]; intros Hall; [done|].
  apply Forall_cons in Hall as [He Hall]. unfold closes in *. cbn [omap list_omap].
  rewrite IH by done. unfold closing in He. by destruct (ev_call e).
Qed.

Lemma closes_closed (l : list Stmt) :
  closes (((λ s, mkEvent (Close s) None) <$> l) ++ [mkEvent Commit None]) = l.
Proof.
  rewrite closes_app. cbn. rewrite app_nil_r.
  induction l as [|s l IH]; [done|]. unfold closes in *. cbn. by rewrite IH.
Qed.

Lemma handlesOf_setHandle (sts : Stmts) (k : nat) (s : Stmt) :
  handleFor sts k = None →
  handlesOf (setHandle sts k (Some s)) ≡ₚ handlesOf sts ++ [s].
Proof.
  unfold handleFor, setHandle, handlesOf. destruct sts as [a b c].
  cbn [st1 st10 st100]. repeat case_bool_decide; intros ->; cbn.
  - destruct a, b; cbn; solve_Permutation.
  - destruct a, c; cbn; solve_Permutation.
  - destruct b, c; cbn; solve_Permutation.
Qed.

Section BulkInsertRelease.
Variable drv : Driver.
Context {T : Type}.
Variable fInsertSql : string.
Variable ncols : Z.
Variable values : T → list Any.

Lemma steps_opened (cols : string) (bs : list (list T)) (sts sts' : Stmts)
    (h evs : Trace) :
  batchSteps drv fInsertSql values cols bs sts h = (h ++ evs, Ok sts') →
  handlesOf sts' ≡ₚ handlesOf sts ++ openedFrom (length h) evs.
Proof.
  revert sts h evs. induction bs as [|b bs IH]; intros sts h evs Hrun.
  { cbn in Hrun. unfold ret in Hrun. simplify_eq.
    assert (evs = []) as -> by (by eapply app_inv_head; rewrite app_nil_r).
    cbn. by rewrite app_nil_r. }
  rewrite steps_cons in Hrun.
  destruct (step_cases drv fInsertSql values cols sts b h)
    as [s Hs Hstep|Hs _ Hstep|e _ _ Hstep];
    rewrite Hstep in Hrun; clear Hstep; cbv zeta in Hrun.
  - match type of Hrun with batchSteps _ _ _ cols bs ?sts1 ?h1 = _ =>
      destruct (steps_extends drv fInsertSql values cols bs sts1 h1)
        as (evs' & r' & Hrun' & _) end.
    rewrite Hrun' in Hrun. rewrite <- app_assoc in Hrun.
    assert (r' = Ok sts') as -> by congruence.
    pose proof (IH _ _ _ Hrun') as IH'. simplify_list_eq.
    rewrite IH', setHandle_id by done.
    by rewrite length_app, Nat.add_1_r.
  - match type of Hrun with batchSteps _ _ _ cols bs ?sts1 ?h1 = _ =>
      destruct (steps_extends drv fInsertSql values cols bs sts1 h1)
        as (evs' & r' & Hrun' & _) end.
    rewrite Hrun' in Hrun. rewrite <- !app_assoc in Hrun.
    assert (r' = Ok sts') as -> by congruence.
    pose proof (IH _ _ _ Hrun') as IH'. simplify_list_eq.
    rewrite IH', handlesOf_setHandle by done.
    rewrite length_app, <- app_assoc. cbn [length app openedFrom ev_call ev_err].
    by replace (length h + 2)%nat with (S (S (length h))) by lia.
  - by simplify_list_eq.
Qed.

(** X20. When [BulkInsert] returns, every statement it compiled has been
    closed exactly once: its history ends with the Close of each of them,
    all successful, followed by the Commit, and no statement is closed or
    the transaction committed before the last execution. *)
Theorem BulkInsert_releases_statements (rows : list T) :
  let res := BulkInsert drv fInsertSql ncols values rows [] in
  is_Ok res.2 = true →
  closes res.1 ≡ₚ opened res.1
  ∧ ∃ pre, res.1 = pre ++ ((λ s, mkEvent (Close s) None) <$> closes res.1)
                     ++ [mkEvent Commit None]
      ∧ Forall (λ e, ¬ closing e) pre.
Proof.
  intros res. subst res.
  destruct (decide (0 < ncols)) as [Hn|Hn]; cycle 1.
  { by destruct (BulkInsert_shape drv fInsertSql ncols values rows)
      as [msg Hn'|e' Hn' _|evs post r1 r Hn' _ _ _ _ _ _ _ _]; [|lia..]. }
  destruct (drv [] Begin) as [e|] eqn:Hb.
  { destruct (BulkInsert_shape drv fInsertSql ncols values rows)
      as [msg Hn'|e' _ Hb'|evs post r1 r _ Hb' _ _ _ _ _ _ _]; [lia|done|congruence]. }
  rewrite BulkInsert_unfold by done.
  destruct (steps_extends drv fInsertSql values (colsOf ncols) (specBatches rows) sts0
              [mkEvent Begin None]) as (evs & r1 & Hsteps & Hr1).
  rewrite Hsteps. pose proof (steps_calls _ _ _ _ _ _ _ _ _ Hsteps) as Hcalls.
  destruct r1 as [sts'| |]; [|done..].
  destruct (finish_spec drv sts' ([mkEvent Begin None] ++ evs))
    as (post & r & Hfin & _). rewrite Hfin. cbn [fst snd]. intros Hr.
  destruct (finish_returns _ _ _ _ _ Hfin) as [_ Hpost].
  specialize (Hpost Hr). subst post.
  assert (Forall (λ e, ¬ closing e) ([mkEvent Begin None] ++ evs)) as Hpre.
  { constructor; [by intros []|].
    eapply Forall_impl; [exact Hcalls|].
    intros ev [Hp|Hx] Hc; unfold isPrepare, isExec, closing in *;
      by destruct (ev_call ev). }
  assert (closes (([mkEvent Begin None] ++ evs)
                    ++ ((λ s, mkEvent (Close s) None) <$> handlesOf sts')
                    ++ [mkEvent Commit None]) = handlesOf sts') as Hcl.
  { by rewrite closes_app, closes_none, closes_closed. }
  rewrite Hcl. split; [|by exists ([mkEvent Begin None] ++ evs)].
  assert (opened (([mkEvent Begin None] ++ evs)
                    ++ ((λ s, mkEvent (Close s) None) <$> handlesOf sts')
                    ++ [mkEvent Commit None]) = openedFrom 1 evs) as ->.
  { unfold opened. rewrite <- app_assoc. cbn [app openedFrom ev_call].
    rewrite openedFrom_app, (openedFrom_none _ (_ ++ [_])), app_nil_r; [done|].
    apply Forall_app. split.
    - apply Forall_fmap, Forall_forall. by intros s _ [].
    - constructor; [by intros []|constructor]. }
  exact (steps_opened _ _ _ _ _ _ Hsteps).
Qed.
End BulkInsertRelease.

(** ** The two insert paths: executions, and reading back *)

Lemma rowLe_trans : Transitive rowLe.
Proof. intros a b c. unfold rowLe. lia. Qed.

Lemma rowLe_total : Total rowLe.
Proof. intros a b. unfold rowLe. lia. Qed.

Lemma execs_fmap_Exec (s : Stmt) (argss : list (list Any)) :
  execs ((λ args, mkEvent (Exec s args) None) <$> argss) = (λ args, (s, args, None)) <$> argss.
Proof. induction argss as [|a argss IH]; [done|]. cbn. by rewrite <- IH. Qed.

Section TwoPaths.
Variable drv : Driver.
Context {Time : Type}.
Variable BindTime : Time → Z.
Variable UnbindTime : Z → Time.
Hypothesis accepts : ∀ h c, drv h c = None.

Lemma single_execs (insertSql : string) (users : list (User Time)) :
  execs (InsertUsers drv BindTime insertSql users []).1
  = (λ u, (mkStmt 1 insertSql, userArgs BindTime u, None)) <$> users.
Proof.
  pose proof (InsertUsers_accepted drv BindTime insertSql users accepts) as Hs.
  cbv zeta in Hs. rewrite Hs. cbn [fst].
  rewrite !execs_app. cbn [execs omap list_omap ev_call app]. rewrite app_nil_r.
  clear. induction users as [|u users IH]; [done|]. cbn. by rewrite <- IH.
Qed.

Lemma single_stored (insertSql : string) (users : list (User Time)) :
  storedRows 4 (InsertUsers drv BindTime insertSql users []).1 = rowOf BindTime <$> users.
Proof.
  rewrite storedRows_boundRows.
  - unfold boundRows, execArgs. rewrite single_execs. clear.
    induction users as [|u users IH]; [done|]. cbn. by rewrite <- IH.
  - pose proof (InsertUsers_accepted drv BindTime insertSql users accepts) as Hs.
    cbv zeta in Hs. rewrite Hs. cbn [fst]. unfold committed.
    apply bool_decide_eq_true. rewrite !elem_of_app, !elem_of_cons. tauto.
  - rewrite single_execs. apply Forall_fmap, Forall_forall. by intros u _.
Qed.

Lemma bulk_stored (fInsertSql : string) (users : list (User Time)) :
  storedRows 4 (InsertUsersBulk drv BindTime fInsertSql users []).1
  = rowOf BindTime <$> users.
Proof.
  destruct (BulkInsert_accepted drv fInsertSql 4 (userValues BindTime) users
              ltac:(lia) accepts) as (Hb2 & Hbc & Hbx).
  fold (InsertUsersBulk drv BindTime fInsertSql users) in Hb2, Hbc, Hbx.
  rewrite storedRows_boundRows; [|done|].
  - unfold boundRows.
    transitivity (rowOf BindTime <$> concat (specBatches users));
      [|by rewrite specBatches_concat].
    apply boundRows_batches. unfold execArgs.
    apply (f_equal (fmap fst)) in Hbx. rewrite <- !list_fmap_compose in Hbx.
    exact Hbx.
  - apply (f_equal (fmap snd)) in Hbx. rewrite <- !list_fmap_compose in Hbx.
    apply Forall_forall. intros x Hx.
    apply (list_elem_of_fmap_2 (snd ∘ argsAndError)) in Hx. rewrite Hbx in Hx.
    apply list_elem_of_fmap in Hx as (b & Hb & _). exact Hb.
Qed.

(** X21. On a database that accepts every call, the bulk path executes
    n/100 + (n mod 100)/10 + n mod 10 statements for n users and the
    row-by-row path executes n: the bulk path never executes more. *)
Theorem bulk_executes_fewer (fInsertSql insertSql : string) (users : list (User Time)) :
  let bulk := (InsertUsersBulk drv BindTime fInsertSql users []).1 in
  let single := (InsertUsers drv BindTime insertSql users []).1 in
  let n := length users in
  length (execs bulk) = (n / 100 + n mod 100 / 10 + n mod 10)%nat
  ∧ length (execs single) = n
  ∧ (length (execs bulk) ≤ length (execs single))%nat.
Proof.
  clear UnbindTime. intros bulk single n.
  assert (length (execs bulk) = (n / 100 + n mod 100 / 10 + n mod 10)%nat) as Hb.
  { destruct (BulkInsert_accepted drv fInsertSql 4 (userValues BindTime) users
                ltac:(lia) accepts) as (_ & _ & Hbx).
    apply (f_equal length) in Hbx. rewrite !length_fmap in Hbx.
    unfold bulk, InsertUsersBulk. rewrite Hbx.
    rewrite <- (length_fmap length), specBatches_lengths. unfold batchSizes.
    rewrite !length_app, !length_replicate. subst n. lia. }
  assert (length (execs single) = n) as Hs.
  { unfold single. by rewrite single_execs, length_fmap. }
  split_and!; [done..|]. rewrite Hb, Hs.
  zify. Z.div_mod_to_equations. lia.
Qed.

Lemma sorted_same_id (users : list (User Time)) (u1 u2 : User Time) :
  StronglySorted (λ a b, Id a < Id b) users →
  u1 ∈ users → u2 ∈ users → Id u1 = Id u2 → u1 = u2.
Proof.
  induction 1 as [|x l Hl IH Hx]; [by intros ?%elem_of_nil|].
  rewrite Forall_forall in Hx.
  intros [->|H1]%elem_of_cons [->|H2]%elem_of_cons Hid; [done| | |by apply IH].
  - specialize (Hx _ H2). lia.
  - specialize (Hx _ H1). lia.
Qed.

Lemma select_sorted (users : list (User Time)) :
  StronglySorted (λ a b, Id a < Id b) users →
  selectOrderById (rowOf BindTime <$> users) = rowOf BindTime <$> users.
Proof.
  intros Hsorted. unfold selectOrderById.
  pose proof rowLe_trans. pose proof rowLe_total.
  apply (Sorted_unique_strong rowLe).
  - intros x1 x2 Hx1 Hx2 H12 H21.
    rewrite merge_sort_Permutation in Hx1.
    apply list_elem_of_fmap in Hx1 as (u1 & -> & Hu1).
    apply list_elem_of_fmap in Hx2 as (u2 & -> & Hu2).
    unfold rowLe in *. cbn in H12, H21.
    by rewrite (sorted_same_id users u1 u2) by (done || lia).
  - apply Sorted_merge_sort. apply _.
  - apply StronglySorted_Sorted.
    induction Hsorted as [|x l Hl IH Hx]; [constructor|].
    cbn [fmap list_fmap]. constructor; [done|].
    apply Forall_fmap. eapply Forall_impl; [exact Hx|].
    intros u Hu. unfold rowLe. cbn in *. lia.
  - apply merge_sort_Permutation.
Qed.

(** X22. What is inserted is what is read back.  On a database that accepts
    every call, for users in ascending order of identifier whose identifiers
    fit 32 bits, reading the stored table back through [FindUsers] gives the
    users in the same order, each with its identifier, email and flag and
    with its creation time taken through BindTime and UnbindTime; this
    holds for [InsertUsers] and for [InsertUsersBulk] alike. *)
Theorem inserted_users_read_back (fInsertSql insertSql : string) (users : list (User Time)) :
  StronglySorted (λ a b, Id a < Id b) users →
  Forall (λ u, - 2 ^ 31 ≤ Id u < 2 ^ 31) users →
  readBackUsers UnbindTime (storedRows 4 (InsertUsers drv BindTime insertSql users []).1)
    = Ok (storedUser BindTime UnbindTime <$> users)
  ∧ readBackUsers UnbindTime
      (storedRows 4 (InsertUsersBulk drv BindTime fInsertSql users []).1)
    = Ok (storedUser BindTime UnbindTime <$> users).
Proof.
  intros Hsorted Hrange. rewrite single_stored, bulk_stored.
  assert (readBackUsers UnbindTime (rowOf BindTime <$> users)
          = Ok (storedUser BindTime UnbindTime <$> users)) as Hread; [|done].
  unfold readBackUsers. rewrite select_sorted by done.
  assert (scanUserRow <$> (rowOf BindTime <$> users)
          = (λ c, mkScan c None) <$>
              ((λ u, mkUserCols (Some (Id u)) (Some (BindTime (Created u)))
                       (Some (Email u)) (Some (Active u))) <$> users)) as ->.
  { clear Hsorted. induction Hrange as [|u l Hu Hl IH]; [done|].
    cbn [fmap list_fmap]. rewrite <- IH. f_equal.
    unfold rowOf, scanUserRow. by rewrite bool_decide_true. }
  rewrite FindUsers_decodes, <- list_fmap_compose. done.
Qed.
End TwoPaths.

(** ** [BulkInsert]: what it tells its caller *)

Lemma Sprintf_failed (desc e : string) :
  Sprintf "failed to %s: %v" [OStr desc; OStr e] = "failed to " +:+ desc +:+ ": " +:+ e.
Proof.
  transitivity ("failed to " +:+ desc +:+ ": " +:+ (e +:+ "")); [by vm_compute|].
  by rewrite (append_empty_r e).
Qed.

Lemma Sprintf_plain (p f : string) (args : list Operand) :
  plain p = true → Sprintf (p +:+ f) args = p +:+ Sprintf f args.
Proof.
  induction p as [|c p IH]; intros Hp; [done|].
  cbn [plain] in Hp. apply andb_true_iff in Hp as [Hc Hp].
  rewrite !append_cons. cbn [Sprintf].
  destruct (bool_decide (c = "%"%char)); [done|]. by rewrite IH.
Qed.

Lemma colsOf_sql (n : nat) :
  colsOf (Z.of_nat n) = "(" +:+ String.concat "," (replicate n "?") +:+ ")".
Proof.
  unfold colsOf. rewrite repeatJoin_loop_spec. reflexivity.
Qed.

Section BulkInsertReports.
Variable drv : Driver.
Context {T : Type}.
Variable ncols : Z.
Variable values : T → list Any.

Lemma steps_panic_message (fInsertSql cols : string) (bs : list (list T)) (sts : Stmts)
    (h evs : Trace) (msg : string) :
  batchSteps drv fInsertSql values cols bs sts h = (h ++ evs, Panic msg) →
  ∃ front sql e k, evs = front ++ [mkEvent (Prepare sql) (Some e)]
    ∧ msg = Sprintf "failed to %s: %v" [OStr (descFor k); OStr e].
Proof.
  revert sts h evs. induction bs as [|b bs IH]; intros sts h evs Hrun.
  { cbn in Hrun. unfold ret in Hrun. by simplify_eq. }
  rewrite steps_cons in Hrun.
  destruct (step_cases drv fInsertSql values cols sts b h)
    as [s _ Hstep| _ _ Hstep|e _ _ Hstep];
    rewrite Hstep in Hrun; clear Hstep; cbv zeta in Hrun.
  - match type of Hrun with batchSteps _ _ _ cols bs ?sts1 ?h1 = _ =>
      destruct (steps_extends drv fInsertSql values cols bs sts1 h1)
        as (evs' & r' & Hrun' & _) end.
    rewrite Hrun' in Hrun. rewrite <- app_assoc in Hrun.
    assert (r' = Panic msg) as -> by congruence.
    destruct (IH _ _ _ Hrun') as (front & sql & e & k & -> & ->).
    simplify_list_eq. by eexists (_ :: front), sql, e, k.
  - match type of Hrun with batchSteps _ _ _ cols bs ?sts1 ?h1 = _ =>
      destruct (steps_extends drv fInsertSql values cols bs sts1 h1)
        as (evs' & r' & Hrun' & _) end.
    rewrite Hrun' in Hrun. rewrite <- !app_assoc in Hrun.
    assert (r' = Panic msg) as -> by congruence.
    destruct (IH _ _ _ Hrun') as (front & sql & e & k & -> & ->).
    simplify_list_eq. by eexists (_ :: _ :: front), sql, e, k.
  - simplify_list_eq. by eexists [], _, _, _.
Qed.

Lemma finish_panic_message (sts : Stmts) (h post : Trace) (msg : string) :
  finish drv sts h = (h ++ post, Panic msg) →
  ∃ front c e step, post = front ++ [mkEvent c (Some e)]
    ∧ step ∈ stepsOf c
    ∧ msg = Sprintf "failed to %s: %v" [OStr step; OStr e].
Proof.
  destruct sts as [[a|] [b|] [c|]].
  all: unfold finish, closeIfPrepared, stmtClose, txCommit, bind, call, try0, ret, panic;
    cbn [st1 st10 st100].
  all: repeat match goal with
         | |- context [drv ?h' ?c'] =>
             let e := fresh "e" in let He := fresh "He" in
             destruct (drv h' c') as [e|] eqn:He
         end.
  all: rewrite <- ?app_assoc; intros Heq; simplify_list_eq.
  all: first
    [ by (eexists [], _, _, _; split_and!; [reflexivity| |reflexivity];
          cbn [stepsOf]; rewrite !elem_of_cons; auto)
    | by (eexists [_], _, _, _; split_and!; [reflexivity| |reflexivity];
          cbn [stepsOf]; rewrite !elem_of_cons; auto)
    | by (eexists [_; _], _, _, _; split_and!; [reflexivity| |reflexivity];
          cbn [stepsOf]; rewrite !elem_of_cons; auto)
    | by (eexists [_; _; _], _, _, _; split_and!; [reflexivity| |reflexivity];
          cbn [stepsOf]; rewrite !elem_of_cons; auto) ].
Qed.

(** X23. When [BulkInsert] panics on an error of the database, the message
    names the step: it reads "failed to <step>: <error>", where the error is
    the one returned by the last call made and the step is the description
    of that call (open tx, prepare 1/10/100, close st1/st10/st100,
    commit). *)
Theorem BulkInsert_panic_names_step (fInsertSql : string) (rows : list T) (msg : string) :
  0 < ncols →
  let res := BulkInsert drv fInsertSql ncols values rows [] in
  res.2 = Panic msg →
  ∃ c e step, last res.1 = Some (mkEvent c (Some e))
    ∧ step ∈ stepsOf c
    ∧ msg = "failed to " +:+ step +:+ ": " +:+ e.
Proof.
  intros Hn res. subst res.
  destruct (drv [] Begin) as [e|] eqn:Hb.
  { destruct (BulkInsert_shape drv fInsertSql ncols values rows)
      as [msg' Hn'|e' _ Hb'|evs post r1 r _ Hb' _ _ _ _ _ _ _]; [lia| |congruence].
    cbn [fst snd]. intros [= <-]. exists Begin, e', "open tx".
    split_and!; [done|by apply list_elem_of_singleton|apply Sprintf_failed]. }
  rewrite BulkInsert_unfold by done.
  destruct (steps_extends drv fInsertSql values (colsOf ncols) (specBatches rows) sts0
              [mkEvent Begin None]) as (evs & r1 & Hsteps & Hr1).
  rewrite Hsteps. destruct r1 as [sts'|msg1|]; [| |done].
  - destruct (finish_spec drv sts' ([mkEvent Begin None] ++ evs))
      as (post & r & Hfin & _). rewrite Hfin. cbn [fst snd]. intros ->.
    destruct (finish_panic_message _ _ _ _ Hfin) as (front & c & e & step & -> & Hstep & ->).
    exists c, e, step. rewrite !app_assoc, last_snoc, Sprintf_failed. done.
  - cbn [fst snd]. intros [= ->].
    destruct (steps_panic_message _ _ _ _ _ _ _ Hsteps) as (front & sql & e & k & -> & ->).
    exists (Prepare sql), e, (descFor k).
    rewrite !app_assoc, last_snoc, Sprintf_failed. split_and!; [done| |done].
    unfold descFor, stepsOf. repeat case_bool_decide; rewrite !elem_of_cons; auto.
Qed.

(** X24. Whatever the executions return, [BulkInsert] goes on: when Begin,
    Prepare, Close and Commit succeed it binds every batch, commits and
    returns normally, even if every Exec failed. *)
Theorem BulkInsert_returns_whatever_exec_returns (fInsertSql : string) (rows : list T) :
  0 < ncols →
  (∀ h c, (∀ s args, c ≠ Exec s args) → drv h c = None) →
  let res := BulkInsert drv fInsertSql ncols values rows [] in
  res.2 = Ok tt
  ∧ committed res.1 = true
  ∧ execArgs res.1 = batchArgs values <$> specBatches rows.
Proof.
  intros Hn Hdrv res. subst res.
  rewrite BulkInsert_unfold by (done || by apply Hdrv).
  destruct (steps_execArgs drv fInsertSql values (colsOf ncols) (specBatches rows) sts0
              [mkEvent Begin None]) as (evs & sts' & Hsteps & Hargs).
  { intros h sql. by apply Hdrv. }
  rewrite Hsteps.
  destruct (finish_spec drv sts' ([mkEvent Begin None] ++ evs))
    as (post & r & Hfin & Hclosing & Hans & _ & Hok & Hcommit).
  rewrite Hfin. cbn [fst snd].
  assert (is_Ok r = true) as Hr.
  { apply Hok. rewrite Forall_forall in Hclosing, Hans |- *. intros ev Hev.
    destruct (Hans _ Hev) as [h' Hh']. unfold succeeded. rewrite Hh'.
    apply Hdrv. intros s args Hc. specialize (Hclosing _ Hev).
    unfold closing in Hclosing. by rewrite Hc in Hclosing. }
  split_and!.
  - by destruct r as [[]| |].
  - unfold committed. apply bool_decide_eq_true, elem_of_app. right. by apply Hcommit.
  - rewrite !execArgs_app. unfold execArgs at 1 3.
    rewrite (closing_execs post Hclosing). cbn. by rewrite app_nil_r.
Qed.

(** X25. The statements [BulkInsert] compiles from a template made of a
    text without [%] followed by [%s] are that text followed by 100, 10 or
    1 parenthesised tuples of [ncols] question marks, separated by
    commas. *)
Theorem BulkInsert_statement_text (prefix : string) (rows : list T) :
  plain prefix = true →
  let tr := (BulkInsert drv (prefix +:+ "%s") ncols values rows []).1 in
  Forall (λ sql, ∃ k, k ∈ [100; 10; 1]%nat
                   ∧ sql = prefix +:+ tuplesSql (Z.to_nat ncols) k)
    (prepared tr).
Proof.
  intros Hplain tr. subst tr.
  destruct (BulkInsert_shape drv (prefix +:+ "%s") ncols values rows)
    as [msg Hn'|e _ Hb|evs post r1 r Hn _ Hsteps Hpost _ _ _ _ _]; cbn [fst];
    [constructor| by repeat constructor |].
  change (mkEvent Begin None :: evs ++ post)
    with ([mkEvent Begin None] ++ evs ++ post).
  rewrite !prepared_app, (closing_prepared post Hpost), app_nil_r. cbn [prepared omap
    list_omap ev_call app].
  pose proof (steps_prepared drv (prefix +:+ "%s") values (length rows) (colsOf ncols)
                rows sts0 _ _ _ (Nat.le_refl _) Hsteps) as Hp.
  assert (∀ k, stmtText (prefix +:+ "%s") (colsOf ncols) k
               = prefix +:+ tuplesSql (Z.to_nat ncols) k) as Htext.
  { intros k. unfold stmtText, tuplesSql, tupleClause.
    rewrite Sprintf_plain by done.
    replace ncols with (Z.of_nat (Z.to_nat ncols)) at 1 by lia.
    rewrite colsOf_sql. cbn [Sprintf]. cbn. by rewrite append_empty_r. }
  apply Forall_forall. intros sql Hsql.
  apply (elem_of_sublist _ _ _ Hsql) in Hp. clear Hsql. rename Hp into Hsql.
  unfold need, pend, sts0 in Hsql. cbn [st1 st10 st100] in Hsql.
  rewrite !elem_of_app in Hsql.
  destruct Hsql as [Hsql|[Hsql|Hsql]]; case_bool_decide; try by apply elem_of_nil in Hsql.
  all: apply list_elem_of_singleton in Hsql as ->; eexists; split; [|apply Htext].
  all: rewrite !elem_of_cons; auto.
Qed.
End BulkInsertReports.

(** ** The worker on a database that returns what was inserted *)

Lemma forEach_returns {E A} (xs : list A) (body : A → Eff E unit) :
  (∀ x h, x ∈ xs → ∃ evs, body x h = (h ++ evs, Ok tt)) →
  ∀ h, ∃ evs, forEach xs body h = (h ++ evs, Ok tt).
Proof.
  induction xs as [|x xs IH]; intros Hbody h.
  - exists []. by rewrite app_nil_r.
  - cbn [forEach]. unfold bind.
    destruct (Hbody x h ltac:(left)) as (evs & ->).
    destruct (IH (λ y h' Hy, Hbody y h' ltac:(by right)) (h ++ evs)) as (evs' & ->).
    exists (evs ++ evs'). by rewrite app_assoc.
Qed.

Lemma runFrom_genUsers (n lo m : nat) :
  (lo + m ≤ n)%nat → Z.of_nat n ≤ 7912800 →
  runFrom (Z.of_nat lo + 1) (take m (drop lo (genUsers n))).
Proof.
  intros Hlo Hn p u Hp.
  apply lookup_take_Some in Hp as [Hp Hpm].
  rewrite lookup_drop in Hp. apply genUsers_lookup in Hp as [Hlt ->].
  split; [f_equal|]; lia.
Qed.

Lemma runFrom_part (first : Z) (l : list (User TimeSpec.Instant)) (a b : nat) :
  runFrom first l → runFrom (first + Z.of_nat b) (take a (drop b l)).
Proof.
  intros Hl p u Hp. apply lookup_take_Some in Hp as [Hp Hpa].
  rewrite lookup_drop in Hp. destruct (Hl _ _ Hp) as [-> Hrange].
  split; [f_equal|]; lia.
Qed.

Lemma runFrom_rest (first : Z) (l : list (User TimeSpec.Instant)) (b : nat) :
  runFrom first l → runFrom (first + Z.of_nat b) (drop b l).
Proof.
  intros Hl p u Hp.
  rewrite lookup_drop in Hp. destruct (Hl _ _ Hp) as [-> Hrange].
  split; [f_equal|]; lia.
Qed.

Lemma runFrom_accepted (first : Z) (l : list (User TimeSpec.Instant)) :
  runFrom first l → checkFound TimeSpec.Year l first l = Ok tt.
Proof.
  intros Hl. apply checkFound_accepts. split; [done|]. intros p u Hp.
  destruct (Hl _ _ Hp) as [-> Hrange]. apply genUser_accepted; lia.
Qed.

Section EchoingDb.
Variable db : Db TimeSpec.Instant.

Lemma checkChunk_returns (chunks : list (list (User TimeSpec.Instant))) (j : nat)
    (chunk : list (User TimeSpec.Instant)) (first : Z) (h : list (DbEvent TimeSpec.Instant)) :
  echoes db chunks → chunks !! j = Some chunk → chunk ≠ [] → runFrom first chunk →
  ∃ evs, checkChunk TimeSpec.Year db chunks (Z.of_nat j) h = (h ++ evs, Ok tt).
Proof.
  intros Hecho Hj Hne Hrun.
  destruct chunk as [|c0 rest] eqn:Hchunk; [done|]. rewrite <- Hchunk in *.
  assert (chunk !! 0%nat = Some c0) as H0 by (by rewrite Hchunk).
  assert (∃ cl, chunk !! (length chunk - 1)%nat = Some cl) as [cl Hl].
  { apply lookup_lt_is_Some. rewrite Hchunk. cbn. lia. }
  unfold checkChunk, bind at 1, lift at 1, goIndex.
  rewrite bool_decide_true, Nat2Z.id, Hj by lia.
  unfold bind at 1, lift at 1, goIndex.
  rewrite bool_decide_true by lia. change (Z.to_nat 0) with 0%nat. rewrite H0.
  unfold bind at 1, lift at 1, goIndex.
  rewrite bool_decide_true by (rewrite Hchunk; cbn; lia).
  replace (Z.to_nat (Z.of_nat (length chunk) - 1)) with (length chunk - 1)%nat by lia.
  rewrite Hl.
  destruct (Hecho h chunk) as [_ Hfind]; [by eapply list_elem_of_lookup_2|].
  specialize (Hfind (DbFindUsers (findQuery (Id c0) (Id cl)))).
  unfold findFor in Hfind. rewrite H0, Hl in Hfind. specialize (Hfind eq_refl).
  unfold bind, dbCall, lift. rewrite Hfind.
  destruct (Hrun _ _ H0) as [Hc0 _].
  assert (Id c0 = first) as -> by (rewrite Hc0; cbn; lia).
  rewrite runFrom_accepted by done. by eexists.
Qed.

Lemma workerRound_returns (chunks : list (list (User TimeSpec.Instant))) (i : nat)
    (chunk : list (User TimeSpec.Instant)) (h : list (DbEvent TimeSpec.Instant)) :
  echoes db chunks →
  Forall (λ c, c ≠ [] ∧ ∃ first, runFrom first c) chunks →
  chunks !! i = Some chunk →
  ∃ evs, workerRound TimeSpec.Year db chunks (Z.of_nat i, chunk) h = (h ++ evs, Ok tt).
Proof.
  intros Hecho Hall Hi. unfold workerRound. cbn [fst snd].
  unfold bind at 1, dbCall at 1.
  destruct (Hecho h chunk) as [[l ->] _]; [by eapply list_elem_of_lookup_2|].
  destruct (forEach_returns (seqZ 0 3)
              (λ j, if bool_decide (Z.of_nat i - j >= 0)
                    then checkChunk TimeSpec.Year db chunks (Z.of_nat i - j)
                    else ret tt)
              ) with (h := h ++ [mkDbEvent (DbInsertUsers insertUserSql chunk) (Returned l)])
    as (evs & ->).
  - intros j h' Hj. apply elem_of_seqZ in Hj.
    case_bool_decide as Hge; [|exists []; by rewrite app_nil_r].
    replace (Z.of_nat i - j) with (Z.of_nat (i - Z.to_nat j)) by lia.
    assert (∃ c, chunks !! (i - Z.to_nat j)%nat = Some c) as [c Hc].
    { apply lookup_lt_is_Some. apply lookup_lt_Some in Hi. lia. }
    rewrite Forall_forall in Hall.
    destruct (Hall c) as (Hne & first & Hrun); [by eapply list_elem_of_lookup_2|].
    by eapply checkChunk_returns.
  - exists ([mkDbEvent (DbInsertUsers insertUserSql chunk) (Returned l)] ++ evs).
    by rewrite app_assoc.
Qed.

(** X26. On a database that accepts every insert and answers every range
    query with the users inserted for that range, the worker of the WAL
    benchmark returns: for a shard of at least ten consecutive generated
    users, every one of its checks passes. *)
Theorem worker_returns_on_generated_shard (n lo m : nat) (h : list (DbEvent TimeSpec.Instant)) :
  (lo + m ≤ n)%nat → Z.of_nat n ≤ 7912800 → (10 ≤ m)%nat →
  let shard := take m (drop lo (genUsers n)) in
  (∀ chunks, chunkUsers shard 10 = Ok chunks → echoes db chunks) →
  (worker TimeSpec.Year db shard h).2 = Ok tt.
Proof.
  intros Hlo Hn Hm shard Hecho.
  pose proof (runFrom_genUsers n lo m Hlo Hn) as Hrun. fold shard in Hrun.
  assert (length shard = m) as Hlen.
  { unfold shard, genUsers.
    rewrite length_take, length_drop, length_fmap, length_seq. lia. }
  pose proof (chunkUsers_closed shard 10 ltac:(lia)) as Hcu. cbv zeta in Hcu.
  change (Z.to_nat 10) with 10%nat in Hcu. rewrite Hlen in Hcu.
  set (c := (m / 10)%nat) in Hcu.
  assert (1 ≤ c)%nat as Hc1 by (subst c; apply Nat.div_le_lower_bound; lia).
  assert (10 * c ≤ m)%nat as Hc10 by (subst c; apply Nat.Div0.mul_div_le).
  clearbody c.
  set (chunks := pieces c 0 (10 - 1) shard ++ [drop ((10 - 1) * c) shard]) in Hcu.
  specialize (Hecho chunks Hcu).
  assert (Forall (λ c, c ≠ [] ∧ ∃ first, runFrom first c) chunks) as Hall.
  { apply Forall_app. split.
    - apply Forall_lookup. intros j p Hp.
      pose proof (lookup_pieces _ _ _ _ _ Hp ltac:(lia)) as Hplen.
      unfold pieces in Hp. rewrite list_lookup_fmap in Hp.
      destruct (seq 0 (10 - 1) !! j) as [j'|] eqn:Hj'; [|done].
      cbn in Hp. injection Hp as <-. split.
      + intros Hnil. rewrite Hnil in Hplen. cbn [length] in Hplen. lia.
      + eexists. by apply runFrom_part.
    - apply Forall_singleton. split.
      + intros Hnil. apply (f_equal length) in Hnil.
        rewrite length_drop in Hnil. cbn [length] in Hnil. lia.
      + eexists. by apply runFrom_rest. }
  unfold worker, bind, lift. rewrite Hcu.
  destruct (forEach_returns (zip (seqZ 0 (Z.of_nat (length chunks))) chunks)
              (workerRound TimeSpec.Year db chunks)) with (h := h) as (evs & ->);
    [|done].
  intros [i chunk] h' Hin.
  apply list_elem_of_lookup in Hin as [k Hk].
  apply lookup_zip_with_Some in Hk as (i' & chunk' & [= <- <-] & Hi & Hchunk).
  apply lookup_seqZ in Hi as [-> _]. rewrite Z.add_0_l.
  by apply workerRound_returns.
Qed.
End EchoingDb.

(** ** [BulkInsert]: what every execution binds *)

Lemma countChar_append (c : ascii) (a b : string) :
  countChar c (a +:+ b) = (countChar c a + countChar c b)%nat.
Proof.
  induction a as [|x a IH]; [done|].
  rewrite append_cons. cbn [countChar]. rewrite IH. lia.
Qed.

Lemma countChar_concat_replicate (c : ascii) (str sep : string) (k : nat) :
  countChar c sep = 0%nat →
  countChar c (String.concat sep (replicate k str)) = (k * countChar c str)%nat.
Proof.
  intros Hsep. destruct k as [|k]; [done|].
  induction k as [|k IH]; [cbn; lia|].
  rewrite concat_sep_replicate_S, !countChar_append, IH, Hsep. lia.
Qed.

Lemma countChar_tuplesSql (n k : nat) : countChar "?" (tuplesSql n k) = (k * n)%nat.
Proof.
  unfold tuplesSql. rewrite countChar_concat_replicate by done.
  rewrite !countChar_append, countChar_concat_replicate by done.
  change (countChar "?" "(") with 0%nat. change (countChar "?" ")") with 0%nat.
  change (countChar "?" "?") with 1%nat. lia.
Qed.

Lemma length_batchArgs {T} (values : T → list Any) (n : nat) (b : list T) :
  (∀ r, length (values r) = n) → length (batchArgs values b) = (length b * n)%nat.
Proof.
  intros Hn. rewrite batchArgs_concat.
  induction b as [|r b IH]; [done|].
  cbn [fmap list_fmap concat]. rewrite length_app, IH, Hn. cbn. lia.
Qed.

Lemma execs_exec (s : Stmt) (args : list Any) (e : option string) (tr : Trace) :
  execs (mkEvent (Exec s args) e :: tr) = (s, args, e) :: execs tr.
Proof. reflexivity. Qed.

Lemma execs_prepare (sql : string) (e : option string) (tr : Trace) :
  execs (mkEvent (Prepare sql) e :: tr) = execs tr.
Proof. reflexivity. Qed.

Section BulkInsertBinds.
Variable drv : Driver.
Context {T : Type}.
Variable fInsertSql : string.
Variable ncols : Z.
Variable values : T → list Any.

Lemma steps_binds (cols : string) (bs : list (list T)) (sts : Stmts) (h : Trace) :
  Forall (λ b, length b ∈ [100; 10; 1]%nat) bs →
  (∀ k s, k ∈ [100; 10; 1]%nat → handleFor sts k = Some s →
          stmt_sql s = stmtText fInsertSql cols k) →
  ∃ evs r,
    batchSteps drv fInsertSql values cols bs sts h = (h ++ evs, r)
    ∧ (is_Ok r = true → length (execs evs) = length bs)
    ∧ Forall2 (λ x b, stmt_sql x.1.1 = stmtText fInsertSql cols (length b)
                      ∧ x.1.2 = batchArgs values b)
        (execs evs) (take (length (execs evs)) bs).
Proof.
  intros Hnom. revert sts h.
  induction Hnom as [|b bs Hb Hnom IH]; intros sts h Htexts.
  { exists [], (Ok sts). rewrite app_nil_r. split_and!; [done..|constructor]. }
  rewrite steps_cons.
  destruct (step_cases drv fInsertSql values cols sts b h)
    as [s Hs ->|Hs Hd ->|e Hs Hd ->]; cbv zeta.
  - rewrite (setHandle_id _ _ _ Hs).
    destruct (IH sts (h ++ [mkEvent (Exec s (batchArgs values b))
                             (drv h (Exec s (batchArgs values b)))]) Htexts)
      as (evs & r & -> & Hr & Hu).
    eexists (_ :: evs), r. rewrite <- app_assoc. cbn [app].
    rewrite execs_exec. cbn [length take].
    split_and!; [done| |].
    + intros Hok. by rewrite (Hr Hok).
    + constructor; [|exact Hu]. split; [|done]. cbn.
      apply Htexts; [|done]. exact Hb.
  - match goal with |- context [batchSteps _ _ _ cols bs ?sts1 ?hh] =>
      destruct (IH sts1 hh) as (evs & r & -> & Hr & Hu)
    end.
    { intros k s' Hk Hs'. destruct (decide (k = length b)) as [->|Hne].
      - rewrite handleFor_setHandle in Hs'. by simplify_eq.
      - rewrite handleFor_setHandle_ne in Hs' by done. by apply Htexts. }
    eexists (_ :: _ :: evs), r. rewrite <- !app_assoc. cbn [app].
    rewrite execs_prepare, execs_exec. cbn [length take].
    split_and!; [done| |].
    + intros Hok. by rewrite (Hr Hok).
    + constructor; [|exact Hu]. done.
  - eexists [_], _. split_and!; [done..|constructor].
Qed.

Lemma BulkInsert_binds (rows : list T) :
  let res := BulkInsert drv fInsertSql ncols values rows [] in
  (is_Ok res.2 = true → length (execs res.1) = length (specBatches rows))
  ∧ Forall2 (λ x b, stmt_sql x.1.1 = stmtText fInsertSql (colsOf ncols) (length b)
                    ∧ x.1.2 = batchArgs values b)
      (execs res.1) (take (length (execs res.1)) (specBatches rows)).
Proof.
  intros res. subst res.
  destruct (BulkInsert_shape drv fInsertSql ncols values rows)
    as [msg Hn'|e _ Hb|evs post r1 r _ _ Hsteps Hpost _ _ Hok _ _]; cbn [fst snd].
  - split; [done|constructor].
  - split; [done|constructor].
  - destruct (steps_binds (colsOf ncols) (specBatches rows) sts0 [mkEvent Begin None]
                (specBatches_nominal rows)) as (evs' & r' & Hsteps' & Hr & Hu).
    { intros k s _ Hs. unfold handleFor, sts0 in Hs. repeat case_bool_decide; done. }
    rewrite Hsteps in Hsteps'. simplify_list_eq.
    change (mkEvent Begin None :: evs' ++ post)
      with ([mkEvent Begin None] ++ evs' ++ post).
    rewrite !execs_app, (closing_execs post Hpost), app_nil_r. cbn [execs omap list_omap
      ev_call app].
    split; [|exact Hu]. intros Hrok. apply Hr. by apply Hok.
Qed.

(** X27. For any database, the rows [BulkInsert] binds are a beginning of
    its rows, batch by batch and in order: the argument lists of its
    executions are those of the first batches, none skipped and none bound
    twice; when it returns, every batch has been bound. *)
Theorem BulkInsert_binds_rows_in_order (rows : list T) :
  let res := BulkInsert drv fInsertSql ncols values rows [] in
  execArgs res.1 `prefix_of` (batchArgs values <$> specBatches rows)
  ∧ (is_Ok res.2 = true → execArgs res.1 = batchArgs values <$> specBatches rows).
Proof.
  intros res. destruct (BulkInsert_binds rows) as [Hall Hu]. fold res in Hall, Hu.
  assert (execArgs res.1
          = batchArgs values <$> take (length (execs res.1)) (specBatches rows)) as Heq.
  { unfold execArgs. revert Hu.
    generalize (take (length (execs res.1)) (specBatches rows)), (execs res.1).
    intros bs0 xs0 Hu. induction Hu as [|x b xs bs [_ Hx] _ IH]; [done|].
    cbn. by rewrite Hx, IH. }
  split.
  - rewrite Heq.
    exists (batchArgs values <$> drop (length (execs res.1)) (specBatches rows)).
    by rewrite <- fmap_app, take_drop.
  - intros Hok. rewrite Heq, (Hall Hok). by rewrite firstn_all.
Qed.
End BulkInsertBinds.

(** X28. Every execution of [BulkInsert] passes exactly as many arguments
    as its statement has placeholders, when the row function yields [ncols]
    values per row and the template is a text without [%] or [?] followed
    by [%s]. *)
Theorem BulkInsert_arguments_match_placeholders {T} (drv : Driver) (prefix : string)
    (ncols : Z) (values : T → list Any) (rows : list T) :
  0 < ncols →
  (∀ r, length (values r) = Z.to_nat ncols) →
  plain prefix = true → countChar "?" prefix = 0%nat →
  let tr := (BulkInsert drv (prefix +:+ "%s") ncols values rows []).1 in
  Forall (λ x, countChar "?" (stmt_sql x.1.1) = length x.1.2) (execs tr).
Proof.
  intros Hn Hvalues Hplain Hprefix tr.
  destruct (BulkInsert_binds drv (prefix +:+ "%s") ncols values rows) as [_ Hu].
  fold tr in Hu.
  eapply Forall2_Forall_l; [exact Hu|].
  apply Forall_forall. intros b _ x [Htext Hargs]. rewrite Htext, Hargs.
  unfold stmtText, tupleClause. rewrite Sprintf_plain by done.
  replace ncols with (Z.of_nat (Z.to_nat ncols)) at 1 by lia.
  rewrite colsOf_sql.
  change (Sprintf "%s" [OStr ?v]) with (v +:+ "").
  rewrite append_empty_r, countChar_append, Hprefix.
  fold (tuplesSql (Z.to_nat ncols) (length b)).
  rewrite countChar_tuplesSql, (length_batchArgs values (Z.to_nat ncols)) by done.
  done.
Qed.

(** ** The further theorems at concrete inputs *)

Lemma repeatJoin_exact_capacity_witness :
  ∃ s, repeatJoin "(?,?,?,?)" 3 "," = Ok s
    ∧ s = String.concat "," (replicate (Z.to_nat 3) "(?,?,?,?)")
    ∧ len s = len "(?,?,?,?)" * 3 + len "," * (3 - 1).
Proof.
  apply (repeatJoin_exact_capacity "(?,?,?,?)" "," 3). lia.
Defined.

Lemma BulkInsert_no_columns_witness :
  BulkInsert reliable bulkSql 0 (userValues (TimeSpec.BindTime millis)) (genUsers 3) []
  = ([], Panic "strings.Builder.Grow: negative count").
Proof.
  destruct (BulkInsert_no_columns reliable bulkSql 0
              (userValues (TimeSpec.BindTime millis)) (genUsers 3) []) as [H _].
  - reflexivity.
  - lia.
  - exact H.
Defined.

Lemma flatten_indexers_locate_witness :
  ∃ st : Flat TimeSpec.Instant,
    flatten_loop (TimeSpec.UnbindTime millis)
      [mkScan (mkJoinCols (Some 1) (Some 5) (Some "a@example.com") (Some true)
                 (Some 7) (Some 6) (Some 1) (Some "text")
                 None None None None) None;
       mkScan (mkJoinCols (Some 1) (Some 5) (Some "a@example.com") (Some true)
                 (Some 8) (Some 6) (Some 1) (Some "text")
                 None None None None) None]
      (mkFlat ([], ∅) ([], ∅) ([], ∅)) = Ok st
    ∧ indexed Id (f_users st) ∧ indexed a_Id (f_articles st)
    ∧ indexed k_Id (f_comments st).
Proof.
  match goal with |- ∃ st, ?run = Ok st ∧ _ =>
    assert (∃ st, run = Ok st) as [st Hrun] by (eexists; reflexivity)
  end.
  exists st. split; [exact Hrun|].
  exact (flatten_indexers_locate (TimeSpec.UnbindTime millis) _ st Hrun).
Defined.

Lemma chunkUsers_more_pieces_than_rows_witness :
  chunkUsers (genUsers 3) 5 = Ok (replicate (Z.to_nat 5 - 1) [] ++ [genUsers 3]).
Proof.
  apply (chunkUsers_more_pieces_than_rows (genUsers 3) 5).
  - lia.
  - reflexivity.
Defined.

Lemma shards_and_chunks_partition_witness :
  ∃ shards, chunkUsers (genUsers 45) 2 = Ok shards
    ∧ length shards = Z.to_nat 2
    ∧ concat shards = genUsers 45
    ∧ ∀ s, s ∈ shards →
        ∃ chunks, chunkUsers s 10 = Ok chunks
          ∧ length chunks = 10%nat
          ∧ concat chunks = s
          ∧ (10 * 2 ≤ Z.of_nat (length (genUsers 45)) → Forall (λ c, c ≠ []) chunks).
Proof.
  apply (shards_and_chunks_partition (genUsers 45) 2). lia.
Defined.

Lemma worker_short_shard_witness :
  worker TimeSpec.Year (λ _ _, Returned []) (genUsers 3) [] =
    ([mkDbEvent (DbInsertUsers insertUserSql []) (Returned [])],
     Panic "index out of range").
Proof.
  apply (worker_short_shard TimeSpec.Year (λ _ _, Returned []) (genUsers 3) []).
  cbn. lia.
Defined.

Lemma generated_users_pass_validation_witness :
  checkFound TimeSpec.Year (take 7 (drop 10 (genUsers 50))) (Z.of_nat 10 + 1)
    (take 7 (drop 10 (genUsers 50))) = Ok tt
  ∧ validateUsers TimeSpec.Year (Z.of_nat 50) (genUsers 50) = Ok tt.
Proof.
  apply (generated_users_pass_validation 50 10 7); lia.
Defined.

Lemma BulkInsert_failed_prepare_abandons_witness :
  let drv : Driver := λ _ c, if c is Prepare _ then Some "disk I/O error" else None in
  let res := BulkInsert drv bulkSql 4 (userValues (TimeSpec.BindTime millis))
               (genUsers 1) [] in
  is_Panic res.2 = true
  ∧ Forall (λ ev, ¬ closing ev) res.1
  ∧ last res.1 =
      Some (mkEvent (Prepare "INSERT INTO users(id,created,email,active) VALUES (?,?,?,?)")
              (Some "disk I/O error")).
Proof.
  intros drv res.
  apply (BulkInsert_failed_prepare_abandons drv bulkSql 4
           (userValues (TimeSpec.BindTime millis)) (genUsers 1)).
  apply (list_elem_of_lookup_2 _ 1%nat). reflexivity.
Defined.

Lemma BulkInsert_releases_statements_witness :
  let res := BulkInsert reliable bulkSql 4 (userValues (TimeSpec.BindTime millis))
               (genUsers 12) [] in
  closes res.1 ≡ₚ opened res.1
  ∧ ∃ pre, res.1 = pre ++ ((λ s, mkEvent (Close s) None) <$> closes res.1)
                     ++ [mkEvent Commit None]
      ∧ Forall (λ e, ¬ closing e) pre.
Proof.
  apply (BulkInsert_releases_statements reliable bulkSql 4
           (userValues (TimeSpec.BindTime millis)) (genUsers 12)).
  reflexivity.
Defined.

Lemma bulk_executes_fewer_witness :
  length (execs (InsertUsersBulk reliable (TimeSpec.BindTime millis) bulkSql
                   (genUsers 112) []).1) = 4%nat
  ∧ length (execs (InsertUsers reliable (TimeSpec.BindTime millis) insertUserSql
                     (genUsers 112) []).1) = 112%nat.
Proof.
  destruct (bulk_executes_fewer reliable (TimeSpec.BindTime millis)
              (λ _ _, eq_refl) bulkSql insertUserSql (genUsers 112))
    as (Hb & Hs & _).
  split; [exact Hb | exact Hs].
Defined.

Lemma inserted_users_read_back_witness :
  readBackUsers (TimeSpec.UnbindTime millis)
    (storedRows 4 (InsertUsers reliable (TimeSpec.BindTime millis) insertUserSql
                     (genUsers 3) []).1)
    = Ok (storedUser (TimeSpec.BindTime millis) (TimeSpec.UnbindTime millis)
            <$> genUsers 3)
  ∧ readBackUsers (TimeSpec.UnbindTime millis)
      (storedRows 4 (InsertUsersBulk reliable (TimeSpec.BindTime millis) bulkSql
                       (genUsers 3) []).1)
    = Ok (storedUser (TimeSpec.BindTime millis) (TimeSpec.UnbindTime millis)
            <$> genUsers 3).
Proof.
  apply (inserted_users_read_back reliable (TimeSpec.BindTime millis)
           (TimeSpec.UnbindTime millis) (λ _ _, eq_refl) bulkSql insertUserSql
           (genUsers 3)).
  - repeat (constructor; try reflexivity).
  - repeat (constructor; try (split; [discriminate | reflexivity])).
Defined.

Lemma BulkInsert_panic_names_step_witness :
  ∃ c e step,
    last (BulkInsert (λ _ c, if c is Commit then Some "database is locked" else None)
            bulkSql 4 (userValues (TimeSpec.BindTime millis)) (genUsers 1) []).1
      = Some (mkEvent c (Some e))
    ∧ step ∈ stepsOf c
    ∧ "failed to commit: database is locked" = "failed to " +:+ step +:+ ": " +:+ e.
Proof.
  apply (BulkInsert_panic_names_step
           (λ _ c, if c is Commit then Some "database is locked" else None)
           4 (userValues (TimeSpec.BindTime millis)) bulkSql (genUsers 1)).
  - lia.
  - reflexivity.
Defined.

Lemma BulkInsert_returns_whatever_exec_returns_witness :
  let res := BulkInsert rejectsExec bulkSql 4 (userValues (TimeSpec.BindTime millis))
               (genUsers 12) [] in
  res.2 = Ok tt
  ∧ committed res.1 = true
  ∧ execArgs res.1
    = batchArgs (userValues (TimeSpec.BindTime millis)) <$> specBatches (genUsers 12).
Proof.
  apply (BulkInsert_returns_whatever_exec_returns rejectsExec 4
           (userValues (TimeSpec.BindTime millis)) bulkSql (genUsers 12)).
  - lia.
  - intros h c Hc. destruct c; try reflexivity. by destruct (Hc st args).
Defined.

Lemma BulkInsert_statement_text_witness :
  Forall (λ sql, ∃ k, k ∈ [100; 10; 1]%nat
                   ∧ sql = "INSERT INTO users(id,created,email,active) VALUES "
                             +:+ tuplesSql (Z.to_nat 4) k)
    (prepared (BulkInsert reliable
                 ("INSERT INTO users(id,created,email,active) VALUES " +:+ "%s") 4
                 (userValues (TimeSpec.BindTime millis)) (genUsers 12) []).1).
Proof.
  apply (BulkInsert_statement_text reliable 4 (userValues (TimeSpec.BindTime millis))
           "INSERT INTO users(id,created,email,active) VALUES " (genUsers 12)).
  reflexivity.
Defined.

Lemma worker_returns_on_generated_shard_witness :
  (worker TimeSpec.Year
     (echoDb (pieces 2 0 10 (genUsers 20)))
     (take 20 (drop 0 (genUsers 20))) []).2 = Ok tt.
Proof.
  apply (worker_returns_on_generated_shard
           (echoDb (pieces 2 0 10 (genUsers 20))) 20 0 20 []); [lia..|].
  intros chunks Hchunks.
  assert (chunks = pieces 2 0 10 (genUsers 20)) as ->.
  { vm_compute in Hchunks. injection Hchunks as <-. reflexivity. }
  intros h chunk Hin. vm_compute in Hin.
  repeat (apply elem_of_cons in Hin as [->|Hin]);
    [split; [by eexists | intros q [= <-]; reflexivity]..|].
  destruct (not_elem_of_nil _ Hin).
Defined.

Lemma BulkInsert_arguments_match_placeholders_witness :
  Forall (λ x, countChar "?" (stmt_sql x.1.1) = length x.1.2)
    (execs (BulkInsert reliable
              ("INSERT INTO users(id,created,email,active) VALUES " +:+ "%s") 4
              (userValues (TimeSpec.BindTime millis)) (genUsers 12) []).1).
Proof.
  apply (BulkInsert_arguments_match_placeholders reliable
           "INSERT INTO users(id,created,email,active) VALUES " 4
           (userValues (TimeSpec.BindTime millis)) (genUsers 12)).
  - lia.
  - intros r. reflexivity.
  - reflexivity.
  - reflexivity.
Defined.
